(** * The S3 upload manager (package manager, upload.go)

    A shallow embedding of the uploader: configuration defaults and
    validation, the part reader, the single PutObject path, the location
    recorder, and the multipart coordinator with its producer and worker
    goroutines.  The goroutines are interleaved by an explicit scheduler:
    [step t s] runs the next atomic action of thread [t]. *)

From Stdlib Require Import ZArith Lia Init.Byte Ascii String.
From stdpp Require Import gmap gmultiset strings list sorting pretty.

#[local] Set Warnings "-register-all,-notation-for-abbreviation,-clear-no-such-hyp".

Local Open Scope Z_scope.

(** ** Machine integers *)

(** Two's-complement wrap-around of a [w]-bit signed integer. *)
Definition wrap (w x : Z) : Z := (x + 2 ^ (w - 1)) mod 2 ^ w - 2 ^ (w - 1).
Definition int32 (x : Z) : Z := wrap 32 x.
Definition int64 (x : Z) : Z := wrap 64 x.

Definition max_int64 : Z := 2 ^ 63 - 1.

(** ** Package constants *)

Definition MaxUploadParts : Z := 10000.
Definition MinUploadPartSize : Z := 1024 * 1024 * 5.
Definition DefaultUploadPartSize : Z := MinUploadPartSize.
Definition DefaultUploadConcurrency : Z := 5.

(** ** Errors *)

(** Go error values.  [External] stands for an error built outside the
    package (by the stream, the context, strconv or the S3 client);
    [ErrorfW] is [fmt.Errorf] with a trailing [%w] verb. *)
Inductive error : Type :=
  | io_EOF
  | External (msg : string)
  | Errorf (msg : string)
  | ErrorfW (msg : string) (cause : error)
  | multiUploadError (err : option error) (uploadID : string).

Definition is_EOF (e : option error) : bool :=
  match e with Some io_EOF => true | _ => false end.

(** [Error()] of each error value. *)
Fixpoint Error (e : error) : string :=
  match e with
  | io_EOF => "EOF"
  | External msg => msg
  | Errorf msg => msg
  | ErrorfW msg cause => msg +:+ Error cause
  | multiUploadError err uploadID =>
      let extra := match err with
                   | Some c => ", cause: " +:+ Error c
                   | None => ""
                   end in
      "upload multipart failed, upload id: " +:+ uploadID +:+ extra
  end.

(** The [MultiUploadFailure] interface: an error that also has an
    [UploadID()] method.  Only [*multiUploadError] implements it. *)
Definition UploadID_of (e : error) : option string :=
  match e with
  | multiUploadError _ uploadID => Some uploadID
  | _ => None
  end.

Definition MultiUploadFailure (e : error) : Prop := is_Some (UploadID_of e).

(** [Unwrap] of [*multiUploadError]. *)
Definition Unwrap (e : error) : option error :=
  match e with
  | multiUploadError err _ => err
  | ErrorfW _ cause => Some cause
  | _ => None
  end.

(** ** Streams and request records *)

(** What one [Read] call of a sequential stream delivers. *)
Definition segment : Type := list byte * option error.

(** The dynamic type of [in.Body].  [len] is what [seekerLen] reports for
    an [io.Seeker]; [data] is what [ReadAt] serves; [r] is the script of
    the remaining [Read] calls. *)
Inductive io_Reader : Type :=
  | ReaderAtSeeker (len : error + Z) (data : list byte)
  | Seeker (len : error + Z) (r : list segment)
  | Reader (r : list segment).

Record PutObjectInput : Type := mkPutObjectInput {
  Bucket : string;
  Key : string;
  Body : io_Reader;
  SSECustomerAlgorithm : option string;
  SSECustomerKey : option string;
}.

Record PutObjectOutput : Type := { put_VersionId : option string }.
Record CreateMultipartUploadOutput : Type := { UploadId : string }.
Record UploadPartOutput : Type := { resp_ETag : option string }.
Record CompleteMultipartUploadOutput : Type := { VersionId : option string }.
Record Part : Type := mkPart { part_PartNumber : Z; part_ETag : string }.
Record CompletedPart : Type := mkCompletedPart { ETag : option string; PartNumber : Z }.

Record UploadOutput : Type := mkUploadOutput {
  Location : string;
  VersionID : option string;
  UploadID : string;
}.

(** ** The HTTP layer seen by the location recorder *)

(** The fields of [net/url.URL] that matter for an S3 request. *)
Record URL : Type := mkURL {
  Scheme : string;
  Host : string;
  Path : string;
  RawQuery : string;
  Fragment : string;
}.

(** [URL.String] in its general form scheme://host/path?query#fragment. *)
Definition URL_String (u : URL) : string :=
  Scheme u +:+ "://" +:+ Host u +:+ Path u
    +:+ (if String.eqb (RawQuery u) "" then "" else "?" +:+ RawQuery u)
    +:+ (if String.eqb (Fragment u) "" then "" else "#" +:+ Fragment u).

Record Request : Type := { req_URL : option URL }.
Record Response : Type := { resp_Request : option Request }.

(** One round trip of the wrapped [httpClient.Do]. *)
Definition HttpExchange : Type := error + Response.

Record recordLocationClient : Type := { location : string }.

(** [recordLocationClient.Do], given what the wrapped client returned. *)
Definition Do (c : recordLocationClient) (x : HttpExchange) : recordLocationClient :=
  match x with
  | inl _ => c
  | inr resp =>
      match resp_Request resp with
      | Some req =>
          match req_URL req with
          | Some url =>
              let url := mkURL (Scheme url) (Host url) (Path url) "" (Fragment url) in
              {| location := URL_String url |}
          | None => c
          end
      | None => c
      end
  end.

(** An API call made with [locationRecorder.WrapClient()] sends each of its
    round trips through [Do]. *)
Definition wrapped (c : recordLocationClient) (xs : list HttpExchange) : recordLocationClient :=
  foldl Do c xs.

(** ** Configuration *)

Inductive cleanupKind : Type :=
  | NoOp          (* func() {} *)
  | FromProvider  (* returned by BufferProvider.GetWriteTo *)
  | PoolPut       (* func() { u.cfg.partPool.Put(part) } *).

(** A cleanup closure; [cl_id] is the ordinal of the [nextReader] call
    that created it. *)
Record closure : Type := mkClosure { cl_id : nat; cl_kind : cleanupKind }.

(** The [Uploader] options.  [BufferProvider] tells whether one is set.
    [partPool] is the pool as [nextReader] sees it: the outcomes of the
    coming [Get(ctx)] calls, [None] for a buffer of [PartSize] bytes and
    [Some e] for the context's error; past the script a buffer is granted. *)
Record Uploader : Type := mkUploader {
  PartSize : Z;
  Concurrency : Z;
  LeavePartsOnError : bool;
  cfgMaxUploadParts : Z;
  BufferProvider : bool;
  partPool : list (option error);
}.

Record uploader : Type := mkuploader {
  cfg : Uploader;
  in_ : PutObjectInput;
  existingUploadID : option string;
  readerPos : Z;
  totalSize : Z;
  nreaders : nat;  (* readers handed out so far; names the cleanup closures *)
}.

Definition set_PartSize (p : Z) (c : Uploader) : Uploader :=
  mkUploader p (Concurrency c) (LeavePartsOnError c) (cfgMaxUploadParts c)
    (BufferProvider c) (partPool c).
Definition set_Concurrency (n : Z) (c : Uploader) : Uploader :=
  mkUploader (PartSize c) n (LeavePartsOnError c) (cfgMaxUploadParts c)
    (BufferProvider c) (partPool c).
Definition set_cfgMaxUploadParts (n : Z) (c : Uploader) : Uploader :=
  mkUploader (PartSize c) (Concurrency c) (LeavePartsOnError c) n
    (BufferProvider c) (partPool c).
Definition set_partPool (p : list (option error)) (c : Uploader) : Uploader :=
  mkUploader (PartSize c) (Concurrency c) (LeavePartsOnError c) (cfgMaxUploadParts c)
    (BufferProvider c) p.

Definition set_cfg (c : Uploader) (u : uploader) : uploader :=
  mkuploader c (in_ u) (existingUploadID u) (readerPos u) (totalSize u) (nreaders u).
Definition set_totalSize (n : Z) (u : uploader) : uploader :=
  mkuploader (cfg u) (in_ u) (existingUploadID u) (readerPos u) n (nreaders u).
Definition set_Body (b : io_Reader) (u : uploader) : uploader :=
  let i := in_ u in
  mkuploader (cfg u)
    (mkPutObjectInput (Bucket i) (Key i) b (SSECustomerAlgorithm i) (SSECustomerKey i))
    (existingUploadID u) (readerPos u) (totalSize u) (nreaders u).
Definition advance (n : Z) (u : uploader) : uploader :=
  mkuploader (cfg u) (in_ u) (existingUploadID u) (int64 (readerPos u + n))
    (totalSize u) (S (nreaders u)).

(** [seekerLen] applied to the body when it is an [io.Seeker]. *)
Definition seekerLen (b : io_Reader) : option (error + Z) :=
  match b with
  | ReaderAtSeeker len _ => Some len
  | Seeker len _ => Some len
  | Reader _ => None
  end.

(** [uploader.initSize].  Go's [/] on integers truncates toward zero. *)
Definition initSize (u : uploader) : error + uploader :=
  let u := set_totalSize (-1) u in
  match seekerLen (Body (in_ u)) with
  | Some (inl err) => inl err
  | Some (inr n) =>
      let u := set_totalSize n u in
      if int64 (totalSize u ÷ PartSize (cfg u)) >=? cfgMaxUploadParts (cfg u)
      then inr (set_cfg (set_PartSize
                  (int64 (totalSize u ÷ cfgMaxUploadParts (cfg u) + 1)) (cfg u)) u)
      else inr u
  | None => inr u
  end.

(** [uploader.init]: defaults, then [initSize].  The pool is rebuilt or
    re-capped so that its slices have [PartSize] bytes; its script of
    [Get] outcomes is left as it is. *)
Definition init (u : uploader) : error + uploader :=
  let c := cfg u in
  let c := if Concurrency c =? 0 then set_Concurrency DefaultUploadConcurrency c else c in
  let c := if PartSize c =? 0 then set_PartSize DefaultUploadPartSize c else c in
  let c := if cfgMaxUploadParts c =? 0 then set_cfgMaxUploadParts MaxUploadParts c else c in
  initSize (set_cfg c u).

(** The first [n] elements of a list, and the list without them, for a
    count held in a machine integer. *)
Fixpoint takeZ {A} (n : Z) (l : list A) : list A :=
  match l with
  | [] => []
  | x :: l' => if 0 <? n then x :: takeZ (n - 1) l' else []
  end.

Fixpoint dropZ {A} (n : Z) (l : list A) : list A :=
  match l with
  | [] => []
  | x :: l' => if 0 <? n then dropZ (n - 1) l' else l
  end.

(** [readFillBuf r b] with [space] the free room [len(b) - offset].  A
    [Read] on an exhausted script returns [0, io.EOF]. *)
Fixpoint readFillBuf (r : list segment) (space : Z)
    : list byte * option error * list segment :=
  if space <=? 0 then ([], None, r)
  else
    match r with
    | [] => ([], Some io_EOF, [])
    | (bs, e) :: r' =>
        if Z.of_nat (length bs) <=? space then
          match e with
          | Some err => (bs, Some err, r')
          | None =>
              let '(more, e', r'') := readFillBuf r' (space - Z.of_nat (length bs)) in
              (bs ++ more, e', r'')
          end
        else (takeZ space bs, None, (dropZ space bs, e) :: r')
    end.

(** The bytes behind [io.NewSectionReader(r, off, n)]. *)
Definition NewSectionReader (data : list byte) (off n : Z) : list byte :=
  takeZ n (dropZ off data).

(** The sequential branch of [nextReader]. *)
Definition nextReader_default (rebody : list segment → io_Reader)
    (r : list segment) (u : uploader)
    : (list byte * Z * closure * option error) * uploader :=
  match partPool (cfg u) with
  | Some err :: pool =>
      (([], 0, mkClosure (nreaders u) NoOp, Some err),
       advance 0 (set_cfg (set_partPool pool (cfg u)) u))
  | pool =>
      let '(part, err, r') := readFillBuf r (PartSize (cfg u)) in
      let n := Z.of_nat (length part) in
      ((part, n, mkClosure (nreaders u) PoolPut, err),
       advance n (set_Body (rebody r') (set_cfg (set_partPool (tail pool) (cfg u)) u)))
  end.

(** [uploader.nextReader]: the reader's bytes, its length, the cleanup
    closure and the error, with the uploader after the call. *)
Definition nextReader (u : uploader)
    : (list byte * Z * closure * option error) * uploader :=
  match Body (in_ u) with
  | ReaderAtSeeker _ data =>
      let '(n, err) :=
        if 0 <=? totalSize u then
          let bytesLeft := int64 (totalSize u - readerPos u) in
          if bytesLeft <=? PartSize (cfg u) then (bytesLeft, Some io_EOF)
          else (PartSize (cfg u), None)
        else (PartSize (cfg u), None) in
      let reader := NewSectionReader data (readerPos u) n in
      let cleanup :=
        mkClosure (nreaders u) (if BufferProvider (cfg u) then FromProvider else NoOp) in
      ((reader, n, cleanup, err), advance n u)
  | Seeker len r => nextReader_default (Seeker len) r u
  | Reader r => nextReader_default Reader r u
  end.

(** The readers that successive [nextReader] calls hand out, up to the
    first one that comes with an error or [io.EOF]. *)
Fixpoint read_all (fuel : nat) (u : uploader)
    : list (list byte * Z * closure * option error) :=
  match fuel with
  | O => []
  | S fuel' =>
      let '(x, u') := nextReader u in
      match x.2 with
      | None => x :: read_all fuel' u'
      | Some _ => [x]
      end
  end.

(** ** The S3 client *)

Record ListPartsOutput : Type := { Parts : list Part }.

(** One page of a ListParts paginator: the round trips it made and what
    [NextPage] returned. *)
Definition page : Type := list HttpExchange * (error + ListPartsOutput).

Record UploadPartInput : Type := mkUploadPartInput {
  up_Bucket : string;
  up_Key : string;
  up_Body : list byte;
  up_UploadId : string;
  up_SSECustomerAlgorithm : option string;
  up_SSECustomerKey : option string;
  up_PartNumber : Z;
}.

(** [UploadAPIClient], over a client with state [C].  The operations that
    the uploader wraps with the location recorder also report their HTTP
    round trips.  A paginator is the list of the pages it will serve;
    [HasMorePages] holds while that list is not empty. *)
Record UploadAPIClient (C : Type) : Type := mkUploadAPIClient {
  PutObject : string → string → list byte → C →
              list HttpExchange * (error + PutObjectOutput) * C;
  CreateMultipartUpload : string → string → C →
              list HttpExchange * (error + CreateMultipartUploadOutput) * C;
  NewListPartsPaginator : string → string → string → C → list page;
  UploadPart : UploadPartInput → C → (error + UploadPartOutput) * C;
  CompleteMultipartUpload : string → string → string → list CompletedPart → C →
              (error + CompleteMultipartUploadOutput) * C;
  AbortMultipartUpload : string → string → string → C → option error * C;
}.

Arguments PutObject {C}.
Arguments CreateMultipartUpload {C}.
Arguments NewListPartsPaginator {C}.
Arguments UploadPart {C}.
Arguments CompleteMultipartUpload {C}.
Arguments AbortMultipartUpload {C}.

(** What an observer of the upload sees: the calls on the S3 client and
    the cleanup closures that were run, in order. *)
Inductive event : Type :=
  | PutObjectCall (bucket key : string) (body : list byte)
  | CreateMultipartUploadCall (bucket key : string)
  | ListPartsCall (bucket key uploadID : string)
  | UploadPartCall (params : UploadPartInput)
  | CompleteMultipartUploadCall (bucket key uploadID : string) (manifest : list CompletedPart)
  | AbortMultipartUploadCall (bucket key uploadID : string)
  | CleanupCall (c : closure).

(** ** encoding/hex *)

Definition hextable : string := "0123456789abcdef".
Definition hexdigit (n : nat) : Ascii.ascii :=
  default "0"%char (String.get n hextable).

(** [hex.EncodeToString]. *)
Definition EncodeToString (src : list byte) : string :=
  foldr (λ b acc,
           let v := N.to_nat (Byte.to_N b) in
           String (hexdigit (v / 16)) (String (hexdigit (v mod 16)) acc))
        EmptyString src.

(** ** The multipart coordinator *)

(** The state the goroutines share.  [mu_uploader] is the embedded
    [*uploader]; only the main goroutine advances it. *)
Record multiuploader : Type := mkmultiuploader {
  mu_uploader : uploader;
  err : option error;
  uploadID : string;
  parts : list CompletedPart;
  eTagByPartNumber : gmap Z string;
}.

Record chunk : Type := mkchunk {
  buf : list byte;
  num : Z;
  cleanup : closure;
}.

Definition set_uploader (v : uploader) (u : multiuploader) : multiuploader :=
  mkmultiuploader v (err u) (uploadID u) (parts u) (eTagByPartNumber u).
Definition set_parts (ps : list CompletedPart) (u : multiuploader) : multiuploader :=
  mkmultiuploader (mu_uploader u) (err u) (uploadID u) ps (eTagByPartNumber u).

(** [completedParts.Less]. *)
Definition Less (a b : CompletedPart) : Prop := PartNumber a < PartNumber b.

(** [sort.Sort] on [completedParts]: a sort by [PartNumber].  Go's sort is
    not stable; where two parts share a number this model fixes one of the
    orders Go may produce. *)
Definition part_le (a b : CompletedPart) : Prop := PartNumber a ≤ PartNumber b.

#[global] Instance part_le_dec : RelDecision part_le.
Proof. intros a b. unfold part_le. apply _. Defined.

Definition sort_Sort (a : list CompletedPart) : list CompletedPart :=
  merge_sort part_le a.

Definition geterr (u : multiuploader) : option error := err u.

Definition seterr (e : option error) (u : multiuploader) : multiuploader :=
  mkmultiuploader (mu_uploader u) e (uploadID u) (parts u) (eTagByPartNumber u).

Definition completePart (u : multiuploader) (c : chunk) (eTag : option string)
    : multiuploader :=
  let n := num c in
  let completed := mkCompletedPart eTag n in
  set_parts (parts u ++ [completed]) u.

(** [multiuploader.shouldContinue]; [part++] is on an [int32]. *)
Definition shouldContinue (u : multiuploader) (part nextChunkLen : Z)
    (err : option error) : bool * option error :=
  match (if is_EOF err then None else err) with
  | Some e => (false, Some (ErrorfW "read multipart upload data failed, " e))
  | None =>
      if nextChunkLen =? 0 then (false, None)
      else
        let part := int32 (part + 1) in
        let limit := cfgMaxUploadParts (cfg (mu_uploader u)) in
        if (part >? limit) || (part >? MaxUploadParts) then
          let msg :=
            if part >? limit
            then "exceeded total allowed configured MaxUploadParts ("
                   +:+ pretty limit +:+ "). Adjust PartSize to fit in this limit"
            else "exceeded total allowed S3 limit MaxUploadParts ("
                   +:+ pretty MaxUploadParts +:+ "). Adjust PartSize to fit in this limit" in
          (false, Some (Errorf msg))
        else (true, err)
  end.

Definition checksum_msg (n : Z) : string :=
  "checksum did not match for chunk " +:+ pretty n
    +:+ ", multipart upload out of sync with local file".

Section manager.

(** The client behind [u.cfg.S3], and the two standard-library functions
    the coordinator calls on data: [md5.Sum] and [strconv.Unquote]. *)
Context {C : Type} (S3 : UploadAPIClient C).
Context (md5_Sum : list byte → list byte).
Context (Unquote : string → error + string).

(** [multiuploader.check]. *)
Definition check (u : multiuploader) (c : chunk) (eTag : string)
    : multiuploader * option error :=
  let sum := EncodeToString (md5_Sum (buf c)) in
  if negb (String.eqb sum eTag) then (u, Some (Errorf (checksum_msg (num c))))
  else (completePart u c (Some eTag), None).

Definition UploadPart_params (u : multiuploader) (c : chunk) : UploadPartInput :=
  let i := in_ (mu_uploader u) in
  mkUploadPartInput (Bucket i) (Key i) (buf c) (uploadID u)
    (SSECustomerAlgorithm i) (SSECustomerKey i) (num c).

(** [multiuploader.send] up to the answer of the UploadPart request; on
    success [completePart] follows as an action of its own. *)
Definition send (u : multiuploader) (c : chunk) (cl : C)
    : (error + UploadPartOutput) * list event * C :=
  let params := UploadPart_params u c in
  let '(r, cl') := UploadPart S3 params cl in
  (r, [UploadPartCall params], cl').

(** [multiuploader.fail]; the error of the abort call is dropped. *)
Definition fail (u : multiuploader) (cl : C) : list event * C :=
  let i := in_ (mu_uploader u) in
  if LeavePartsOnError (cfg (mu_uploader u)) then ([], cl)
  else
    let '(_, cl') := AbortMultipartUpload S3 (Bucket i) (Key i) (uploadID u) cl in
    ([AbortMultipartUploadCall (Bucket i) (Key i) (uploadID u)], cl').

(** [multiuploader.complete]. *)
Definition complete (u : multiuploader) (cl : C)
    : option CompleteMultipartUploadOutput * multiuploader * list event * C :=
  match geterr u with
  | Some _ =>
      let '(evs, cl') := fail u cl in
      (None, u, evs, cl')
  | None =>
      let i := in_ (mu_uploader u) in
      let u := set_parts (sort_Sort (parts u)) u in
      let call := CompleteMultipartUploadCall (Bucket i) (Key i) (uploadID u) (parts u) in
      let '(r, cl') := CompleteMultipartUpload S3 (Bucket i) (Key i) (uploadID u) (parts u) cl in
      match r with
      | inl e =>
          let u := seterr (Some e) u in
          let '(evs, cl'') := fail u cl' in
          (None, u, call :: evs, cl'')
      | inr resp => (Some resp, u, [call], cl')
      end
  end.

(** *** Goroutines *)

(** Where a worker stands in [readChunk]. *)
Inductive worker : Type :=
  | WRecv                          (* data, ok := <-ch *)
  | WGot (c : chunk)               (* looking the part up in eTagByPartNumber *)
  | WSend (c : chunk)              (* u.geterr() was nil: u.send(data) *)
  | WComplete (c : chunk) (eTag : option string)  (* u.completePart(c, resp.ETag) *)
  | WSetErr (e : error) (c : chunk)  (* u.seterr(err) *)
  | WCleanup (c : chunk)           (* data.cleanup() *)
  | WDone                          (* left the loop; wg.Done() *).

(** Where the main goroutine stands in [multiuploader.upload]. *)
Inductive producer : Type :=
  | PSend (c : chunk)              (* ch <- chunk{...} *)
  | PTop                           (* for u.geterr() == nil && err == nil *)
  | PRead                          (* nextReader, shouldContinue *)
  | PSetErr (e : error)            (* u.seterr(err); break *)
  | PClose                         (* close(ch) *)
  | PWait                          (* u.wg.Wait(); u.complete(); return *)
  | PReturned (r : error + UploadOutput).

Record state : Type := mkState {
  mu : multiuploader;
  client : C;
  ch : list chunk;
  closed : bool;
  workers : list worker;
  main : producer;
  st_num : Z;                 (* var num int32 *)
  st_err : option error;      (* var err error *)
  locationRecorder : recordLocationClient;
  trace : list event;
}.

Definition set_mu (v : multiuploader) (s : state) : state :=
  mkState v (client s) (ch s) (closed s) (workers s) (main s) (st_num s) (st_err s)
    (locationRecorder s) (trace s).
Definition set_client (v : C) (s : state) : state :=
  mkState (mu s) v (ch s) (closed s) (workers s) (main s) (st_num s) (st_err s)
    (locationRecorder s) (trace s).
Definition set_ch (v : list chunk) (s : state) : state :=
  mkState (mu s) (client s) v (closed s) (workers s) (main s) (st_num s) (st_err s)
    (locationRecorder s) (trace s).
Definition set_closed (v : bool) (s : state) : state :=
  mkState (mu s) (client s) (ch s) v (workers s) (main s) (st_num s) (st_err s)
    (locationRecorder s) (trace s).
Definition set_worker (i : nat) (w : worker) (s : state) : state :=
  mkState (mu s) (client s) (ch s) (closed s) (<[i:=w]> (workers s)) (main s)
    (st_num s) (st_err s) (locationRecorder s) (trace s).
Definition set_main (v : producer) (s : state) : state :=
  mkState (mu s) (client s) (ch s) (closed s) (workers s) v (st_num s) (st_err s)
    (locationRecorder s) (trace s).
Definition set_num (v : Z) (s : state) : state :=
  mkState (mu s) (client s) (ch s) (closed s) (workers s) (main s) v (st_err s)
    (locationRecorder s) (trace s).
Definition set_err (v : option error) (s : state) : state :=
  mkState (mu s) (client s) (ch s) (closed s) (workers s) (main s) (st_num s) v
    (locationRecorder s) (trace s).
Definition emit (evs : list event) (s : state) : state :=
  mkState (mu s) (client s) (ch s) (closed s) (workers s) (main s) (st_num s) (st_err s)
    (locationRecorder s) (trace s ++ evs).

(** One atomic action of worker [i] in [readChunk]; [None] when the worker
    is blocked on the channel or has returned. *)
Definition step_worker (i : nat) (s : state) : option state :=
  w ← workers s !! i;
  match w with
  | WRecv =>
      match ch s with
      | data :: q => Some (set_worker i (WGot data) (set_ch q s))
      | [] => if closed s then Some (set_worker i WDone s) else None
      end
  | WGot data =>
      match eTagByPartNumber (mu s) !! num data with
      | Some eTag =>
          match check (mu s) data eTag with
          | (u, Some e) => Some (set_worker i (WSetErr e data) (set_mu u s))
          | (u, None) => Some (set_worker i (WCleanup data) (set_mu u s))
          end
      | None =>
          match geterr (mu s) with
          | None => Some (set_worker i (WSend data) s)
          | Some _ => Some (set_worker i (WCleanup data) s)
          end
      end
  | WSend data =>
      let '(r, evs, cl) := send (mu s) data (client s) in
      let s := emit evs (set_client cl s) in
      match r with
      | inl e => Some (set_worker i (WSetErr e data) s)
      | inr resp => Some (set_worker i (WComplete data (resp_ETag resp)) s)
      end
  | WComplete data eTag =>
      Some (set_worker i (WCleanup data) (set_mu (completePart (mu s) data eTag) s))
  | WSetErr e data =>
      Some (set_worker i (WCleanup data) (set_mu (seterr (Some e) (mu s)) s))
  | WCleanup data =>
      Some (set_worker i WRecv (emit [CleanupCall (cleanup data)] s))
  | WDone => None
  end.

Definition all_done (ws : list worker) : bool :=
  forallb (λ w, match w with WDone => true | _ => false end) ws.

(** One atomic action of the main goroutine; [None] when it is blocked on
    the channel or on the wait group, or has returned. *)
Definition step_main (s : state) : option state :=
  match main s with
  | PSend c =>
      if Z.of_nat (length (ch s)) <? Concurrency (cfg (mu_uploader (mu s)))
      then Some (set_main PTop (set_ch (ch s ++ [c]) s))
      else None
  | PTop =>
      match geterr (mu s), st_err s with
      | None, None => Some (set_main PRead s)
      | _, _ => Some (set_main PClose s)
      end
  | PRead =>
      let '((reader, nextChunkLen, cleanup, e), u) := nextReader (mu_uploader (mu s)) in
      let s := set_mu (set_uploader u (mu s)) s in
      let '(ok, e) := shouldContinue (mu s) (st_num s) nextChunkLen e in
      let s := set_err e s in
      if negb ok then
        let s := emit [CleanupCall cleanup] s in
        match e with
        | Some e => Some (set_main (PSetErr e) s)
        | None => Some (set_main PClose s)
        end
      else
        let n := int32 (st_num s + 1) in
        Some (set_main (PSend (mkchunk reader n cleanup)) (set_num n s))
  | PSetErr e =>
      Some (set_main PClose (set_mu (seterr (Some e) (mu s)) s))
  | PClose => Some (set_main PWait (set_closed true s))
  | PWait =>
      if all_done (workers s) then
        let '(resp, u, evs, cl) := complete (mu s) (client s) in
        let s := emit evs (set_client cl (set_mu u s)) in
        match geterr u with
        | Some e =>
            Some (set_main (PReturned (inl (multiUploadError (Some e) (uploadID u)))) s)
        | None =>
            Some (set_main (PReturned (inr (mkUploadOutput
                    (location (locationRecorder s))
                    (resp ≫= VersionId)
                    (uploadID u)))) s)
        end
      else None
  | PReturned _ => None
  end.

Inductive thread : Type := Main | Worker (i : nat).

Definition step (t : thread) (s : state) : option state :=
  match t with
  | Main => step_main s
  | Worker i => step_worker i s
  end.

(** Running a schedule: the threads take their actions in the listed
    order; a thread that cannot move makes the schedule invalid. *)
Fixpoint run (sched : list thread) (s : state) : option state :=
  match sched with
  | [] => Some s
  | t :: sched' => s' ← step t s; run sched' s'
  end.

Definition reaches (s s' : state) : Prop := ∃ sched, run sched s = Some s'.

(** The reading of the error register as a write-once cell: in the
    executions from [s0], an error that is in the register stays there. *)
Definition write_once (s0 : state) : Prop :=
  ∀ s1 s2 e, reaches s0 s1 → err (mu s1) = Some e → reaches s1 s2 →
             err (mu s2) = Some e.

(** A fixed scheduling policy: the lowest-numbered worker that can move,
    else the main goroutine. *)
Definition pick (s : state) : option state :=
  match list_find (λ i, is_Some (step_worker i s)) (seq 0 (length (workers s))) with
  | Some (_, i) => step_worker i s
  | None => step_main s
  end.

Fixpoint run_policy (fuel : nat) (s : state) : state :=
  match fuel with
  | O => s
  | S fuel' => match pick s with Some s' => run_policy fuel' s' | None => s end
  end.

(** *** Session acquisition *)

(** The loop over [parts.Parts] of one page: the map after it, and whether
    it stopped on a part number seen before. *)
Fixpoint scanParts (ps : list Part) (m : gmap Z string) : error + (gmap Z string * bool) :=
  match ps with
  | [] => inr (m, false)
  | part :: ps' =>
      match m !! part_PartNumber part with
      | Some _ => inr (m, true)
      | None =>
          match Unquote (part_ETag part) with
          | inl e => inl e
          | inr eTag => scanParts ps' (<[part_PartNumber part := eTag]> m)
          end
      end
  end.

(** The loop [for paginator.HasMorePages() && !repeat]. *)
Fixpoint paginate (call : event) (pages : list page) (rec : recordLocationClient)
    (m : gmap Z string) : list event * recordLocationClient * (error + gmap Z string) :=
  match pages with
  | [] => ([], rec, inr m)
  | (xs, r) :: rest =>
      let rec := wrapped rec xs in
      match r with
      | inl e => ([call], rec, inl e)
      | inr out =>
          match scanParts (Parts out) m with
          | inl e => ([call], rec, inl e)
          | inr (m, true) => ([call], rec, inr m)
          | inr (m, false) =>
              let '(evs, rec, res) := paginate call rest rec m in
              (call :: evs, rec, res)
          end
      end
  end.

(** How a call stands once its sequential prelude is over: it has
    returned, it has panicked, or its goroutines are running. *)
Inductive started : Type :=
  | Returned (tr : list event) (cl : C) (r : error + UploadOutput)
  | Panicked (tr : list event) (cl : C)
  | Started (s : state).

(** The goroutines right after [go u.readChunk(ch)] was issued
    [Concurrency] times; [make(chan chunk, n)] panics on a negative [n]. *)
Definition spawn (u : multiuploader) (firstBuf : list byte) (cleanup : closure)
    (rec : recordLocationClient) (tr : list event) (cl : C) : started :=
  let n := Concurrency (cfg (mu_uploader u)) in
  if n <? 0 then Panicked tr cl
  else Started (mkState u cl [] false (replicate (Z.to_nat n) WRecv)
                  (PSend (mkchunk firstBuf 1 cleanup)) 1 None rec tr).

(** [multiuploader.upload] up to the first channel send. *)
Definition mu_upload (u : multiuploader) (firstBuf : list byte) (cleanup : closure)
    (cl : C) : started :=
  let i := in_ (mu_uploader u) in
  let locationRecorder := {| location := "" |} in
  match existingUploadID (mu_uploader u) with
  | Some id =>
      let u := mkmultiuploader (mu_uploader u) (err u) id (parts u) (eTagByPartNumber u) in
      let paginator := NewListPartsPaginator S3 (Bucket i) (Key i) id cl in
      let '(evs, rec, r) :=
        paginate (ListPartsCall (Bucket i) (Key i) id) paginator locationRecorder
          (eTagByPartNumber u) in
      match r with
      | inl e => Returned evs cl (inl e)
      | inr m =>
          spawn (mkmultiuploader (mu_uploader u) (err u) id (parts u) m)
            firstBuf cleanup rec evs cl
      end
  | None =>
      let '(xs, r, cl) := CreateMultipartUpload S3 (Bucket i) (Key i) cl in
      let rec := wrapped locationRecorder xs in
      let call := CreateMultipartUploadCall (Bucket i) (Key i) in
      match r with
      | inl e => Returned [call; CleanupCall cleanup] cl (inl e)
      | inr resp =>
          spawn (mkmultiuploader (mu_uploader u) (err u) (UploadId resp) (parts u)
                   (eTagByPartNumber u))
            firstBuf cleanup rec [call] cl
      end
  end.

(** [uploader.singlePart]; the deferred [cleanup()] runs last. *)
Definition singlePart (u : uploader) (r : list byte) (cleanup : closure) (cl : C)
    : started :=
  let i := in_ u in
  let locationRecorder := {| location := "" |} in
  let '(xs, out, cl) := PutObject S3 (Bucket i) (Key i) r cl in
  let rec := wrapped locationRecorder xs in
  let tr := [PutObjectCall (Bucket i) (Key i) r; CleanupCall cleanup] in
  match out with
  | inl e => Returned tr cl (inl e)
  | inr out => Returned tr cl (inr (mkUploadOutput (location rec) (put_VersionId out) ""))
  end.

Definition partsize_msg : string :=
  "part size must be at least " +:+ pretty MinUploadPartSize +:+ " bytes".

(** [uploader.upload]. *)
Definition upload (u : uploader) (cl : C) : started :=
  match init u with
  | inl e => Returned [] cl (inl (ErrorfW "unable to initialize upload: " e))
  | inr u =>
      if PartSize (cfg u) <? MinUploadPartSize
      then Returned [] cl (inl (Errorf partsize_msg))
      else
        let '((reader, _, cleanup, e), u) := nextReader u in
        if is_EOF e then singlePart u reader cleanup cl
        else
          match e with
          | Some e =>
              Returned [CleanupCall cleanup] cl
                (inl (ErrorfW "read upload data failed: " e))
          | None =>
              mu_upload (mkmultiuploader u None "" [] ∅) reader cleanup cl
          end
  end.

(** [Uploader.uploadWithSingleUploader]: the per-call options edit the
    copy of the configuration. *)
Definition uploadWithSingleUploader (i : uploader) (opts : list (Uploader → Uploader))
    (cl : C) : started :=
  upload (set_cfg (foldl (λ c opt, opt c) (cfg i) opts) i) cl.

Definition Upload (u : Uploader) (input : PutObjectInput)
    (opts : list (Uploader → Uploader)) (cl : C) : started :=
  uploadWithSingleUploader (mkuploader u input None 0 0 0) opts cl.

Definition ResumeUpload (u : Uploader) (input : PutObjectInput) (uploadID : option string)
    (opts : list (Uploader → Uploader)) (cl : C) : started :=
  uploadWithSingleUploader (mkuploader u input uploadID 0 0 0) opts cl.

End manager.

Arguments state : clear implicits.
Arguments started : clear implicits.

(** The number of parts of [size] bytes needed for [total] bytes. *)
Definition ceil_div (total size : Z) : Z := (total + size - 1) / size.

(** * Specification vocabulary *)

(** What [nextReader] leaves alone: the request and the options other
    than the pool. *)
Definition same_settings (u u' : uploader) : Prop :=
  Bucket (in_ u') = Bucket (in_ u)
  ∧ Key (in_ u') = Key (in_ u)
  ∧ SSECustomerAlgorithm (in_ u') = SSECustomerAlgorithm (in_ u)
  ∧ SSECustomerKey (in_ u') = SSECustomerKey (in_ u)
  ∧ existingUploadID u' = existingUploadID u
  ∧ PartSize (cfg u') = PartSize (cfg u)
  ∧ Concurrency (cfg u') = Concurrency (cfg u)
  ∧ LeavePartsOnError (cfg u') = LeavePartsOnError (cfg u)
  ∧ cfgMaxUploadParts (cfg u') = cfgMaxUploadParts (cfg u)
  ∧ BufferProvider (cfg u') = BufferProvider (cfg u).

Section vocabulary.

Context {C : Type} (S3 : UploadAPIClient C).

(** The session ID, the ETag table, the recorded location, the request and
    the options stay as they were; the trace only grows; the error
    register, once set, stays set. *)
Definition stable (s s' : state C) : Prop :=
  uploadID (mu s') = uploadID (mu s)
  ∧ eTagByPartNumber (mu s') = eTagByPartNumber (mu s)
  ∧ locationRecorder s' = locationRecorder s
  ∧ same_settings (mu_uploader (mu s)) (mu_uploader (mu s'))
  ∧ trace s `prefix_of` trace s'
  ∧ (is_Some (err (mu s)) → is_Some (err (mu s'))).

(** What holds of a returned result: an error wraps the content of the
    register and carries the session ID; an output carries the session ID
    and the recorded location, and the register is empty. *)
Definition returned_as (s : state C) (r : error + UploadOutput) : Prop :=
  match r with
  | inl e =>
      ∃ cause, err (mu s) = Some cause
               ∧ e = multiUploadError (Some cause) (uploadID (mu s))
  | inr out =>
      err (mu s) = None
      ∧ UploadID out = uploadID (mu s)
      ∧ Location out = location (locationRecorder s)
      ∧ ∃ tr, trace s = tr ++ [CompleteMultipartUploadCall
                                 (Bucket (in_ (mu_uploader (mu s))))
                                 (Key (in_ (mu_uploader (mu s))))
                                 (uploadID (mu s)) (parts (mu s))]
  end.

Definition returned_inv (s : state C) : Prop :=
  ∀ r, main s = PReturned r → all_done (workers s) = true ∧ returned_as s r.

Definition after_close (p : producer) : bool :=
  match p with PWait | PReturned _ => true | _ => false end.

(** There are [Concurrency] workers; the channel holds no more chunks than
    its capacity; it is closed only once the producer has left its loop; a
    worker leaves only when the channel is closed and drained; the part
    counter stays between 1 and [MaxUploadParts]. *)
Definition wf (s : state C) : Prop :=
  length (workers s) = Z.to_nat (Concurrency (cfg (mu_uploader (mu s))))
  ∧ (length (ch s) ≤ length (workers s))%nat
  ∧ (closed s = true → after_close (main s) = true)
  ∧ (WDone ∈ workers s → closed s = true ∧ ch s = [])
  ∧ 1 ≤ st_num s ≤ MaxUploadParts.

(** The chunk a worker holds, and the chunk it still has to settle. *)
Definition held (w : worker) : list chunk :=
  match w with
  | WGot c | WSend c | WComplete c _ | WSetErr _ c | WCleanup c => [c]
  | WRecv | WDone => []
  end.

Definition unfinished (w : worker) : list chunk :=
  match w with
  | WGot c | WSend c | WComplete c _ | WSetErr _ c => [c]
  | WCleanup _ | WRecv | WDone => []
  end.

Definition sending (p : producer) : list chunk :=
  match p with PSend c => [c] | _ => [] end.

(** The multiset of the keys of a list of chunks. *)
Definition tally `{Countable K} (k : chunk → K) (l : list chunk) : gmultiset K :=
  list_to_set_disj (k <$> l).

(** The numbers of the chunks that are queued or being handled and have
    not been settled yet. *)
Definition pending (s : state C) : gmultiset Z :=
  tally num (sending (main s)) ⊎ tally num (ch s)
    ⊎ tally num (workers s ≫= unfinished).

(** While no error is recorded, the completed parts and the pending chunks
    together are the parts numbered 1 to [num]. *)
Definition parts_inv (s : state C) : Prop :=
  err (mu s) = None →
  list_to_set_disj (PartNumber <$> parts (mu s)) ⊎ pending s
  = list_to_set_disj (seqZ 1 (st_num s)).

(** The manifests handed to CompleteMultipartUpload so far. *)
Definition complete_calls (tr : list event) : list (list CompletedPart) :=
  omap (λ ev, match ev with
              | CompleteMultipartUploadCall _ _ _ m => Some m
              | _ => None
              end) tr.

(** CompleteMultipartUpload is called at most once, at the very end, and
    then with the parts 1 to [num]. *)
Definition calls_inv (s : state C) : Prop :=
  match main s with
  | PReturned _ =>
      complete_calls (trace s) = []
      ∨ ∃ m, complete_calls (trace s) = [m] ∧ PartNumber <$> m = seqZ 1 (st_num s)
  | _ => complete_calls (trace s) = []
  end.

(** The closures run so far. *)
Definition cleaned (tr : list event) : list closure :=
  omap (λ ev, match ev with CleanupCall c => Some c | _ => None end) tr.

Definition closure_of (c : chunk) : nat := cl_id (cleanup c).

(** The closures that were run and those of the chunks still queued or
    held are, each once, the closures of the readers handed out. *)
Definition cleanup_inv (s : state C) : Prop :=
  list_to_set_disj (cl_id <$> cleaned (trace s))
    ⊎ (tally closure_of (sending (main s)) ⊎ tally closure_of (ch s)
       ⊎ tally closure_of (workers s ≫= held))
  = list_to_set_disj (seq 0 (nreaders (mu_uploader (mu s)))).

(** The UploadPart requests made so far. *)
Definition uploads (tr : list event) : list UploadPartInput :=
  omap (λ ev, match ev with UploadPartCall p => Some p | _ => None end) tr.

Definition numbered (n : Z) (c : chunk) : Prop := 1 ≤ num c ≤ n.

Definition worker_ok (m : gmap Z string) (n : Z) (w : worker) : Prop :=
  Forall (numbered n) (held w)
  ∧ match w with WSend c => m !! num c = None | _ => True end.

(** Every chunk in the system carries a number between 1 and [num]; a
    worker is about to send only a part that has no entry in
    [eTagByPartNumber]; and only such parts were sent. *)
Definition uploads_inv (s : state C) : Prop :=
  Forall (numbered (st_num s)) (sending (main s) ++ ch s)
  ∧ Forall (worker_ok (eTagByPartNumber (mu s)) (st_num s)) (workers s)
  ∧ Forall (λ p, 1 ≤ up_PartNumber p ≤ st_num s
                 ∧ eTagByPartNumber (mu s) !! up_PartNumber p = None)
      (uploads (trace s)).

Definition inv (s : state C) : Prop :=
  wf s ∧ parts_inv s ∧ returned_inv s ∧ calls_inv s ∧ uploads_inv s.

(** What the goroutines start from: part 1 is about to be sent, the
    channel is empty and open, every worker waits on it. *)
Definition fresh (u : multiuploader) (firstBuf : list byte) (cleanup : closure)
    (rec : recordLocationClient) (tr : list event) (cl : C) (s : state C) : Prop :=
  mu s = u ∧ client s = cl ∧ ch s = [] ∧ closed s = false
  ∧ workers s = replicate (Z.to_nat (Concurrency (cfg (mu_uploader u)))) WRecv
  ∧ main s = PSend (mkchunk firstBuf 1 cleanup)
  ∧ st_num s = 1 ∧ st_err s = None ∧ locationRecorder s = rec ∧ trace s = tr.

Definition location_of (urls : list URL) : string :=
  match last urls with
  | Some url => URL_String (mkURL (Scheme url) (Host url) (Path url) "" (Fragment url))
  | None => ""
  end.

(** The request URLs that the recorder got to see. *)
Definition observed (xs : list HttpExchange) : list URL :=
  omap (λ x, match x with
             | inr resp => resp_Request resp ≫= req_URL
             | inl _ => None
             end) xs.

(** How the session was acquired when the goroutines were started: a
    caller-supplied ID with the ListParts pages that were fetched, or a
    successful CreateMultipartUpload. *)
Definition acquired (u : multiuploader) (cl : C) (s0 : state C) : Prop :=
  let i := in_ (mu_uploader u) in
  match existingUploadID (mu_uploader u) with
  | Some id =>
      let pages := NewListPartsPaginator S3 (Bucket i) (Key i) id cl in
      uploadID (mu s0) = id ∧ client s0 = cl
      ∧ ∃ k, trace s0 = replicate k (ListPartsCall (Bucket i) (Key i) id)
             ∧ (k ≤ length pages)%nat
             ∧ locationRecorder s0
               = wrapped {| location := "" |} (concat (fst <$> take k pages))
  | None =>
      ∃ xs resp, CreateMultipartUpload S3 (Bucket i) (Key i) cl = (xs, inr resp, client s0)
                 ∧ uploadID (mu s0) = UploadId resp
                 ∧ trace s0 = [CreateMultipartUploadCall (Bucket i) (Key i)]
                 ∧ locationRecorder s0 = wrapped {| location := "" |} xs
                 ∧ eTagByPartNumber (mu s0) = eTagByPartNumber u
  end.

Definition leaving (p : producer) : bool :=
  match p with PSetErr _ | PClose | PWait | PReturned _ => true | _ => false end.

(** The producer is past [close(ch)] exactly when the channel is closed. *)
Definition closing_inv (s : state C) : Prop :=
  after_close (main s) = true → closed s = true.

(** A bound on the number of actions left: what the producer can still
    do, six for every chunk in the channel, and what each worker has left
    with the chunk it holds. *)
Definition producer_potential (p : producer) (n : Z) : nat :=
  let rounds := Z.to_nat (MaxUploadParts - n) in
  match p with
  | PSend _ => 9 * rounds + 13
  | PTop => 9 * rounds + 6
  | PRead => 9 * rounds + 5
  | PSetErr _ => 4
  | PClose => 3
  | PWait => 2
  | PReturned _ => 0
  end.

Definition worker_potential (w : worker) : nat :=
  match w with
  | WGot _ => 6
  | WSend _ => 5
  | WComplete _ _ => 4
  | WSetErr _ _ => 4
  | WCleanup _ => 3
  | WRecv => 1
  | WDone => 0
  end.

Definition potential (s : state C) : nat :=
  producer_potential (main s) (st_num s) + 6 * length (ch s)
    + sum_list (worker_potential <$> workers s).

End vocabulary.

(** The work of [uploader.upload] before it hands over to the coordinator:
    the coordinator's initial record, the first chunk and its cleanup,
    when the first read found more than one part. *)
Definition prelude (u : uploader) : option (multiuploader * list byte * closure) :=
  match init u with
  | inl _ => None
  | inr u =>
      if PartSize (cfg u) <? MinUploadPartSize then None
      else
        match nextReader u with
        | ((reader, _, fn, None), u) => Some (mkmultiuploader u None "" [] ∅, reader, fn)
        | _ => None
        end
  end.

(** * Worked executions *)

Module Demo.

Definition url : URL := mkURL "https" "bucket.s3.amazonaws.com" "/key" "uploads=" "".

Definition round_trip : HttpExchange :=
  inr {| resp_Request := Some {| req_URL := Some url |} |}.

(** A client scripted by the answers of its operations; it keeps no state. *)
Definition mock (create : error + string) (pages : list page)
    (upload : Z → error + option string) (complete : error + option string)
    : UploadAPIClient unit :=
  mkUploadAPIClient unit
    (λ _ _ _ c, ([round_trip], inr {| put_VersionId := None |}, c))
    (λ _ _ c, ([round_trip],
               match create with inl e => inl e | inr id => inr {| UploadId := id |} end, c))
    (λ _ _ _ _, pages)
    (λ p c, (match upload (up_PartNumber p) with
             | inl e => inl e
             | inr t => inr {| resp_ETag := t |}
             end, c))
    (λ _ _ _ _ c, (match complete with
                   | inl e => inl e
                   | inr v => inr {| VersionId := v |}
                   end, c))
    (λ _ _ _ c, (None, c)).

Definition part_fails (n : Z) : error + option string :=
  inl (External ("part " +:+ pretty n +:+ " failed")).

Definition part_stored (n : Z) : error + option string :=
  inr (Some ("etag-" +:+ pretty n)).

(** The MD5 digest of RFC 1321, which [md5.Sum] computes: 64 rounds per
    block of 64 bytes over four 32-bit words, on the message padded with
    [0x80], zeros and its length in bits. *)
Definition u32 (x : Z) : Z := x mod 2 ^ 32.
Definition rotl (x c : Z) : Z := u32 (Z.lor (Z.shiftl x c) (Z.shiftr x (32 - c))).

Definition md5_K : list Z :=
  [0xd76aa478; 0xe8c7b756; 0x242070db; 0xc1bdceee; 0xf57c0faf; 0x4787c62a; 0xa8304613; 0xfd469501;
   0x698098d8; 0x8b44f7af; 0xffff5bb1; 0x895cd7be; 0x6b901122; 0xfd987193; 0xa679438e; 0x49b40821;
   0xf61e2562; 0xc040b340; 0x265e5a51; 0xe9b6c7aa; 0xd62f105d; 0x02441453; 0xd8a1e681; 0xe7d3fbc8;
   0x21e1cde6; 0xc33707d6; 0xf4d50d87; 0x455a14ed; 0xa9e3e905; 0xfcefa3f8; 0x676f02d9; 0x8d2a4c8a;
   0xfffa3942; 0x8771f681; 0x6d9d6122; 0xfde5380c; 0xa4beea44; 0x4bdecfa9; 0xf6bb4b60; 0xbebfbc70;
   0x289b7ec6; 0xeaa127fa; 0xd4ef3085; 0x04881d05; 0xd9d4d039; 0xe6db99e5; 0x1fa27cf8; 0xc4ac5665;
   0xf4292244; 0x432aff97; 0xab9423a7; 0xfc93a039; 0x655b59c3; 0x8f0ccc92; 0xffeff47d; 0x85845dd1;
   0x6fa87e4f; 0xfe2ce6e0; 0xa3014314; 0x4e0811a1; 0xf7537e82; 0xbd3af235; 0x2ad7d2bb; 0xeb86d391].

Definition md5_S : list Z :=
  [7; 12; 17; 22; 7; 12; 17; 22; 7; 12; 17; 22; 7; 12; 17; 22;
   5; 9; 14; 20; 5; 9; 14; 20; 5; 9; 14; 20; 5; 9; 14; 20;
   4; 11; 16; 23; 4; 11; 16; 23; 4; 11; 16; 23; 4; 11; 16; 23;
   6; 10; 15; 21; 6; 10; 15; 21; 6; 10; 15; 21; 6; 10; 15; 21].

Definition not32 (x : Z) : Z := Z.lxor x 0xffffffff.

Definition md5_round (M : list Z) (st : Z * Z * Z * Z) (i : nat) : Z * Z * Z * Z :=
  let '(A, B, C0, D) := st in
  let iz := Z.of_nat i in
  let '(F, g) :=
    if iz <? 16 then (Z.lor (Z.land B C0) (Z.land (not32 B) D), iz)
    else if iz <? 32 then (Z.lor (Z.land D B) (Z.land (not32 D) C0), (5 * iz + 1) mod 16)
    else if iz <? 48 then (Z.lxor (Z.lxor B C0) D, (3 * iz + 5) mod 16)
    else (Z.lxor C0 (Z.lor B (not32 D)), (7 * iz) mod 16) in
  let F := u32 (F + A + (md5_K !!! i) + (M !!! Z.to_nat g)) in
  (D, u32 (B + rotl F (md5_S !!! i)), B, C0).

Fixpoint le_words (bs : list Z) (n : nat) : list Z :=
  match n with
  | O => []
  | S n' =>
      match bs with
      | b0 :: b1 :: b2 :: b3 :: rest =>
          (b0 + 256 * b1 + 65536 * b2 + 16777216 * b3) :: le_words rest n'
      | _ => []
      end
  end.

Definition md5_block (st : Z * Z * Z * Z) (block : list Z) : Z * Z * Z * Z :=
  let M := le_words block 16 in
  let '(a0, b0, c0, d0) := st in
  let '(A, B, C0, D) := foldl (md5_round M) st (seq 0 64) in
  (u32 (a0 + A), u32 (b0 + B), u32 (c0 + C0), u32 (d0 + D)).

Fixpoint md5_blocks (st : Z * Z * Z * Z) (bs : list Z) (n : nat) : Z * Z * Z * Z :=
  match n with
  | O => st
  | S n' => md5_blocks (md5_block st (take 64 bs)) (drop 64 bs) n'
  end.

Definition le_bytes (x : Z) (n : nat) : list Z :=
  (λ k, (x / 256 ^ Z.of_nat k) mod 256) <$> seq 0 n.

Definition md5_pad (msg : list Z) : list Z :=
  let len := Z.of_nat (length msg) in
  let zeros := Z.to_nat ((55 - len) mod 64) in
  msg ++ [128] ++ replicate zeros 0 ++ le_bytes ((8 * len) mod 2 ^ 64) 8.

Definition digest (msg : list byte) : list byte :=
  let bs := md5_pad ((λ b, Z.of_N (Byte.to_N b)) <$> msg) in
  let '(a, b, c, d) :=
    md5_blocks (0x67452301, 0xefcdab89, 0x98badcfe, 0x10325476) bs (length bs / 64) in
  (λ z, default x00 (Byte.of_N (Z.to_N z)))
    <$> (le_bytes a 4 ++ le_bytes b 4 ++ le_bytes c 4 ++ le_bytes d 4).

(** The unquoting of a string held between two double quotes. *)

Definition dquote : Ascii.ascii := "034"%char.

Fixpoint strip_closing (s : string) : option string :=
  match s with
  | EmptyString => None
  | String c EmptyString => if Ascii.eqb c dquote then Some EmptyString else None
  | String c rest => String c <$> strip_closing rest
  end.

Definition unquote (s : string) : error + string :=
  match s with
  | String c rest =>
      if Ascii.eqb c dquote then
        match strip_closing rest with
        | Some t => inr t
        | None => inl (External "invalid syntax")
        end
      else inl (External "invalid syntax")
  | EmptyString => inl (External "invalid syntax")
  end.

Definition quoted (s : string) : string :=
  String dquote (s +:+ String dquote EmptyString).

(** The default options with two workers. *)
Definition options : Uploader := mkUploader 0 2 false 0 false [].

(** A random-access body that reports [2 * 5 MiB + 1] bytes; only its
    first three bytes are spelled out. *)
Definition three_parts : PutObjectInput :=
  mkPutObjectInput "bucket" "key"
    (ReaderAtSeeker (inr (2 * MinUploadPartSize + 1)) [x01; x02; x03]) None None.

(** A random-access body positioned past its end, so that [seekerLen]
    is negative and no read reports [io.EOF]. *)
Definition endless : PutObjectInput :=
  mkPutObjectInput "bucket" "key" (ReaderAtSeeker (inr (-1)) [x01; x02; x03]) None None.

Definition healthy : UploadAPIClient unit :=
  mock (inr "upload-1") [] part_stored (inr (Some "v1")).

Definition broken_parts : UploadAPIClient unit :=
  mock (inr "upload-1") [] part_fails (inr None).

Definition no_session : UploadAPIClient unit :=
  mock (inl (External "AccessDenied")) [] part_stored (inr None).

Definition no_listing : UploadAPIClient unit :=
  mock (inr "upload-1") [([], inl (External "ListParts failed"))] part_stored (inr None).

(** A session in which parts 1 and 2 are stored already. *)
Definition listing : list page :=
  [([round_trip],
    inr {| Parts := [mkPart 1 (quoted "5289df737df57326fcdd22597afb1fac");
                      mkPart 2 (quoted "d41d8cd98f00b204e9800998ecf8427e")] |})].

Definition resumable : UploadAPIClient unit :=
  mock (inr "unused") listing part_stored (inr (Some "v1")).

(** The default options with a buffer provider, and with a part limit of 2. *)
Definition buffered : Uploader := mkUploader 0 2 false 0 true [].
Definition two_parts_at_most : Uploader := mkUploader 0 2 false 2 false [].

(** A part size of 1 KiB, and an empty sequential stream. *)
Definition small_parts : Uploader := mkUploader 1024 0 false 0 false [].
Definition empty_stream : PutObjectInput :=
  mkPutObjectInput "bucket" "key" (Reader []) None None.

(** A seekable stream of 50 GiB. *)
Definition fifty_GiB : uploader :=
  mkuploader (mkUploader DefaultUploadPartSize 5 false MaxUploadParts false [])
    (mkPutObjectInput "bucket" "key" (Seeker (inr (50 * 1024 * 1024 * 1024)) []) None None)
    None 0 0 0.

(** What [uploader.upload] hands to the coordinator for the given options,
    request and resume ID. *)
Definition entered (o : Uploader) (i : PutObjectInput) (id : option string)
    : multiuploader * list byte * closure :=
  default (mkmultiuploader (mkuploader o i id 0 0 0) None "" [] ∅, [], mkClosure 0 NoOp)
    (prelude (mkuploader o i id 0 0 0)).

Definition coordinator (o : Uploader) (i : PutObjectInput) (id : option string)
    : multiuploader := (entered o i id).1.1.
Definition first_chunk (o : Uploader) (i : PutObjectInput) (id : option string)
    : list byte := (entered o i id).1.2.
Definition first_cleanup (o : Uploader) (i : PutObjectInput) (id : option string)
    : closure := (entered o i id).2.

(** The state in which the goroutines of that call start. *)
Definition begun (S3 : UploadAPIClient unit) (o : Uploader) (i : PutObjectInput)
    (id : option string) : state unit :=
  match mu_upload S3 unquote (coordinator o i id) (first_chunk o i id)
          (first_cleanup o i id) tt with
  | Started s => s
  | _ => mkState (coordinator o i id) tt [] true [] PWait 1 None {| location := "" |} []
  end.

(** The state after a schedule, and after the scheduling policy has run
    the call to its end. *)
Definition after (S3 : UploadAPIClient unit) (sched : list thread) (s : state unit)
    : state unit :=
  default s (run S3 digest sched s).

Definition finished (S3 : UploadAPIClient unit) (s : state unit) : state unit :=
  run_policy S3 digest 60 s.

(** Both workers pick a part and find the register empty; both requests
    fail; worker 0 records its error. *)
Definition both_fail : list thread :=
  [Main; Main; Main; Main; Worker 0; Worker 1; Worker 0; Worker 1;
   Worker 0; Worker 1; Worker 0].

(** Then worker 1 records its own, and the call winds up. *)
Definition wind_up : list thread :=
  [Worker 1; Worker 0; Worker 1; Main; Main; Worker 0; Worker 1; Main].

End Demo.

(** * Further vocabulary *)

(** ** Readers *)

(** The bytes a script of [Read] calls still holds. *)
Definition stream_bytes (r : list segment) : list byte := r ≫= fst.

(** The bytes of the body that no reader has been handed yet. *)
Definition unread (u : uploader) : list byte :=
  match Body (in_ u) with
  | ReaderAtSeeker _ data => dropZ (readerPos u) data
  | Seeker _ r => stream_bytes r
  | Reader r => stream_bytes r
  end.

(** The bytes of the readers in a list of [nextReader] results. *)
Definition readers_bytes (xs : list (list byte * Z * closure * option error))
    : list byte :=
  xs ≫= (λ x, x.1.1.1).

(** A script whose [Read] calls report no error before the stream ends. *)
Definition clean (r : list segment) : Prop := Forall (λ seg, seg.2 = None) r.

(** Whether the body is read sequentially (the default branch of
    [nextReader]). *)
Definition sequential (u : uploader) : option (list segment) :=
  match Body (in_ u) with
  | ReaderAtSeeker _ _ => None
  | Seeker _ r => Some r
  | Reader r => Some r
  end.

(** A body that behaves, read with a positive part size: a random-access
    body that reports the length of its data and is read from a position
    within it; or a sequential stream that reports no error before its
    end, read with a pool that always grants a buffer. *)
Definition well_behaved (u : uploader) : Prop :=
  0 < PartSize (cfg u)
  ∧ match Body (in_ u) with
    | ReaderAtSeeker _ data =>
        totalSize u = Z.of_nat (length data)
        ∧ 0 ≤ readerPos u ≤ totalSize u
        ∧ totalSize u < max_int64
    | Seeker _ r | Reader r =>
        clean r ∧ Forall (λ g, g = None) (partPool (cfg u))
    end.

(** The uploader after [k] further calls of [nextReader]. *)
Fixpoint after_reads (k : nat) (u : uploader) : uploader :=
  match k with
  | O => u
  | S k' => (nextReader (after_reads k' u)).2
  end.

(** The bytes of part [k] of a multipart upload that starts from the
    uploader [u] with the first reader [firstBuf]: part 1 is the first
    reader, part [k] the reader that the [(k-1)]-th further call of
    [nextReader] hands out. *)
Definition part_reader (u : uploader) (firstBuf : list byte) (k : Z) : list byte :=
  if k =? 1 then firstBuf
  else (nextReader (after_reads (Z.to_nat (k - 2)) u)).1.1.1.1.

(** The bytes of the parts 1 to [n]. *)
Definition read_so_far (u : uploader) (firstBuf : list byte) (n : Z) : list byte :=
  seqZ 1 n ≫= part_reader u firstBuf.

(** The configuration after the defaults of [init] are filled in. *)
Definition defaulted (c : Uploader) : Uploader :=
  let c := if Concurrency c =? 0 then set_Concurrency DefaultUploadConcurrency c else c in
  let c := if PartSize c =? 0 then set_PartSize DefaultUploadPartSize c else c in
  if cfgMaxUploadParts c =? 0 then set_cfgMaxUploadParts MaxUploadParts c else c.

(** ** Client calls and part numbers *)

(** The AbortMultipartUpload requests made so far. *)
Definition abort_calls (tr : list event) : list (string * string * string) :=
  omap (λ ev, match ev with
              | AbortMultipartUploadCall b k id => Some (b, k, id)
              | _ => None
              end) tr.

Definition is_failure (r : error + UploadOutput) : bool :=
  match r with inl _ => true | inr _ => false end.

(** A client call of a multipart upload that is made for the object of
    the request [i] and, where it names a session, for the session [id]. *)
Definition addressed (i : PutObjectInput) (id : string) (ev : event) : Prop :=
  match ev with
  | PutObjectCall _ _ _ => False
  | CreateMultipartUploadCall b k => b = Bucket i ∧ k = Key i
  | ListPartsCall b k id' => b = Bucket i ∧ k = Key i ∧ id' = id
  | UploadPartCall p =>
      up_Bucket p = Bucket i ∧ up_Key p = Key i ∧ up_UploadId p = id
      ∧ up_SSECustomerAlgorithm p = SSECustomerAlgorithm i
      ∧ up_SSECustomerKey p = SSECustomerKey i
  | CompleteMultipartUploadCall b k id' _ => b = Bucket i ∧ k = Key i ∧ id' = id
  | AbortMultipartUploadCall b k id' => b = Bucket i ∧ k = Key i ∧ id' = id
  | CleanupCall _ => True
  end.

(** The chunk a worker holds and has not yet made a request for. *)
Definition unsent (w : worker) : list chunk :=
  match w with
  | WGot c | WSend c => [c]
  | _ => []
  end.

(** The part numbers of [l] that have no entry in the ETag table. *)
Definition unlisted (m : gmap Z string) (l : list Z) : list Z :=
  filter (λ k, m !! k = None) l.

(** The multiset of the unlisted numbers of a list of chunks. *)
Definition utally (m : gmap Z string) (l : list chunk) : gmultiset Z :=
  list_to_set_disj (unlisted m (num <$> l)).

(** The parts that the pages of a ListParts paginator list. *)
Definition listed (pages : list page) : list Part :=
  pages ≫= (λ pg, match pg.2 with inr out => Parts out | inl _ => [] end).

(** The body of the UploadPart request for part [k], if there is one. *)
Definition part_body (tr : list event) (k : Z) : list byte :=
  match list_find (λ p, up_PartNumber p = k) (uploads tr) with
  | Some (_, p) => up_Body p
  | None => []
  end.

(** The bodies of the UploadPart requests, in the order of their part
    numbers. *)
Definition uploaded_bytes (tr : list event) : list byte :=
  seqZ 1 (Z.of_nat (length (uploads tr))) ≫= part_body tr.

(** ** Invariants of the coordinator *)

Section coordinator_vocabulary.

Context {C : Type}.

(** AbortMultipartUpload is called only while the call returns an error,
    and only when the parts are not to be left: then once, for the
    session, as the last client call. *)
Definition abort_inv (s : state C) : Prop :=
  match main s with
  | PReturned r =>
      let u := mu_uploader (mu s) in
      if is_failure r && negb (LeavePartsOnError (cfg u)) then
        ∃ tr, trace s = tr ++ [AbortMultipartUploadCall (Bucket (in_ u)) (Key (in_ u))
                                 (uploadID (mu s))]
              ∧ abort_calls tr = []
      else abort_calls (trace s) = []
  | _ => abort_calls (trace s) = []
  end.

Definition addressed_inv (s : state C) : Prop :=
  Forall (addressed (in_ (mu_uploader (mu s))) (uploadID (mu s))) (trace s).

(** The part counter never passes the part limit in effect, except that
    part 1 is always there. *)
Definition limit_inv (s : state C) : Prop :=
  st_num s
  ≤ Z.max 1 (Z.min (cfgMaxUploadParts (cfg (mu_uploader (mu s)))) MaxUploadParts).

(** The part numbers requested so far and those of the unlisted chunks
    that wait for their request. *)
Definition sent_or_waiting (s : state C) : gmultiset Z :=
  list_to_set_disj (up_PartNumber <$> uploads (trace s))
    ⊎ (utally (eTagByPartNumber (mu s)) (sending (main s))
       ⊎ utally (eTagByPartNumber (mu s)) (ch s)
       ⊎ utally (eTagByPartNumber (mu s)) (workers s ≫= unsent)).

(** No unlisted part is requested twice; while no error is recorded,
    every unlisted part has been requested or waits for its request. *)
Definition sent_inv (s : state C) : Prop :=
  let all := list_to_set_disj (unlisted (eTagByPartNumber (mu s)) (seqZ 1 (st_num s))) in
  sent_or_waiting s ⊆ all
  ∧ (err (mu s) = None → sent_or_waiting s = all).

(** While the producer is in its loop the uploader has made one read per
    part after the first; every chunk in the system and every UploadPart
    request holds the bytes of the reader of its part. *)
Definition data_inv (u : uploader) (firstBuf : list byte) (s : state C) : Prop :=
  (leaving (main s) = false →
   mu_uploader (mu s) = after_reads (Z.to_nat (st_num s - 1)) u)
  ∧ Forall (λ c, buf c = part_reader u firstBuf (num c)) (sending (main s) ++ ch s)
  ∧ Forall (λ w, Forall (λ c, buf c = part_reader u firstBuf (num c)) (held w)) (workers s)
  ∧ Forall (λ p, up_Body p = part_reader u firstBuf (up_PartNumber p)) (uploads (trace s)).

(** While the producer is in its loop, the parts numbered so far and the
    bytes not yet read make up the body, and nothing is left unread once a
    read came with [io.EOF]; when the producer has left its loop with an
    empty error register, the parts numbered so far make up the body. *)
Definition whole_inv (data : list byte) (u : uploader) (firstBuf : list byte)
    (s : state C) : Prop :=
  match main s with
  | PSend _ | PTop | PRead =>
      well_behaved (mu_uploader (mu s))
      ∧ read_so_far u firstBuf (st_num s) ++ unread (mu_uploader (mu s)) = data
      ∧ (is_Some (st_err s) → unread (mu_uploader (mu s)) = [])
  | PSetErr _ => True
  | PClose | PWait | PReturned _ =>
      err (mu s) = None → read_so_far u firstBuf (st_num s) = data
  end.

Context (md5_Sum : list byte → list byte).

(** A completed part that is listed in the ETag table carries the stored
    ETag, and that ETag is the hex MD5 of the bytes read for the part. *)
Definition verified (m : gmap Z string) (u : uploader) (firstBuf : list byte)
    (cp : CompletedPart) : Prop :=
  ∀ e, m !! PartNumber cp = Some e →
       ETag cp = Some e
       ∧ EncodeToString (md5_Sum (part_reader u firstBuf (PartNumber cp))) = e.

Definition resume_inv (u : uploader) (firstBuf : list byte) (s : state C) : Prop :=
  Forall (verified (eTagByPartNumber (mu s)) u firstBuf) (parts (mu s))
  ∧ Forall (λ w, match w with
                 | WComplete c _ => eTagByPartNumber (mu s) !! num c = None
                 | _ => True
                 end) (workers s).

End coordinator_vocabulary.

Section listing_vocabulary.

Context (Unquote : string → error + string).

(** A part that stands for the entry [v] under the number [k]. *)
Definition stands_for (k : Z) (v : string) (part : Part) : Prop :=
  part_PartNumber part = k ∧ Unquote (part_ETag part) = inr v.

End listing_vocabulary.

(** Whether a worker has decided to make its UploadPart request. *)
Definition about_to_send (w : worker) : nat :=
  match w with WSend _ => 1 | _ => 0 end.

(** Whether the producer has decided to make one more read. *)
Definition about_to_read (p : producer) : Z :=
  match p with PRead => 1 | _ => 0 end.

Section failure_vocabulary.

Context {C : Type}.

(** A state in which some goroutine has an error to record, or has
    recorded one. *)
Definition doomed (s : state C) : Prop :=
  is_Some (err (mu s))
  ∨ (∃ e, main s = PSetErr e)
  ∨ (∃ i e c, workers s !! i = Some (WSetErr e c)).

(** The parts that can still be numbered, and the requests that can still
    be made, once an error is recorded. *)
Definition numbering_budget (s : state C) : Z := st_num s + about_to_read (main s).

Definition request_budget (s : state C) : nat :=
  (length (uploads (trace s)) + sum_list (about_to_send <$> workers s))%nat.

End failure_vocabulary.

(** * Further worked executions *)

Module Cases.

(** Five bytes, read in parts of two by two workers. *)
Definition five : list byte := [x01; x02; x03; x04; x05].

Definition in_twos : Uploader := mkUploader 2 2 false 10000 false [].

Definition request (b : io_Reader) : PutObjectInput :=
  mkPutObjectInput "bucket" "key" b None None.

(** The five bytes as an in-memory body and as a stream that delivers
    three bytes and then two, both as [init] leaves them. *)
Definition in_memory : uploader :=
  mkuploader in_twos (request (ReaderAtSeeker (inr 5) five)) None 0 5 0.

Definition streamed : uploader :=
  mkuploader in_twos (request (Reader [([x01; x02; x03], None); ([x04; x05], None)]))
    None 0 (-1) 0.

(** A stream that breaks after four bytes. *)
Definition broken_stream : uploader :=
  mkuploader in_twos
    (request (Reader [([x01; x02; x03], None);
                      ([x04], Some (External "connection reset"));
                      ([x05], None)]))
    None 0 (-1) 0.

(** The first reader of [u] and the coordinator that takes over. *)
Definition first_reader (u : uploader) : list byte := (nextReader u).1.1.1.1.
Definition first_closure (u : uploader) : closure := (nextReader u).1.1.2.
Definition taking_over (u : uploader) : multiuploader :=
  mkmultiuploader (nextReader u).2 None "" [] ∅.

(** The goroutines of a multipart upload of [u] at the client [S3], and the
    state in which the scheduling policy leaves them. *)
Definition started_from (S3 : UploadAPIClient unit) (u : uploader) : state unit :=
  match mu_upload S3 Demo.unquote (taking_over u) (first_reader u) (first_closure u) tt with
  | Started s => s
  | _ => mkState (taking_over u) tt [] true [] PWait 1 None {| location := "" |} []
  end.

Definition ended (S3 : UploadAPIClient unit) (s : state unit) : state unit :=
  run_policy S3 Demo.digest 200 s.

(** A five-byte body for [Upload], with and without a session to resume. *)
Definition short : PutObjectInput := request (ReaderAtSeeker (inr 5) five).

(** A seekable stream of 100 bytes, one whose length cannot be found, and
    a stream whose first read fails. *)
Definition hundred : PutObjectInput := request (Seeker (inr 100) []).
Definition unseekable : PutObjectInput :=
  request (Seeker (inl (External "seek failed")) []).
Definition unreadable : PutObjectInput :=
  request (Reader [([], Some (External "connection reset"))]).

(** Options with a negative part limit, and with a negative number of
    workers. *)
Definition negative_limit : Uploader := mkUploader 0 0 false (-1) false [].
Definition negative_workers : Uploader := mkUploader 5242880 (-1) false 10000 false [].

(** The default options as [init] fills them in, with two workers. *)
Definition filled_in : Uploader := mkUploader 5242880 2 false 10000 false [].

(** A session whose listed part 2 is not the local one. *)
Definition stale_listing : list page :=
  [([Demo.round_trip],
    inr {| Parts := [mkPart 1 (Demo.quoted "5289df737df57326fcdd22597afb1fac");
                      mkPart 2 (Demo.quoted "00000000000000000000000000000000")] |})].

Definition stale : UploadAPIClient unit :=
  Demo.mock (inr "unused") stale_listing Demo.part_stored (inr (Some "v1")).

(** Two schedules of a two-worker upload whose requests fail: both
    workers have a failed request and nothing is recorded yet; and worker
    0 has recorded its error while worker 1 is about to send. *)
Definition requests_fail : list thread :=
  [Main; Main; Main; Main; Worker 0; Worker 1; Worker 0; Worker 1; Worker 0; Worker 1].

Definition first_recorded : list thread :=
  [Main; Main; Main; Main; Worker 0; Worker 1; Worker 0; Worker 1; Worker 0; Worker 0].

End Cases.

(** * Properties *)

(** ** Machine integers *)

Lemma int64_small (x : Z) : - 2 ^ 63 ≤ x < 2 ^ 63 → int64 x = x.
Proof.
  intros Hx. unfold int64, wrap.
  replace (64 - 1) with 63 by lia.
  rewrite Z.mod_small; lia.
Qed.

Lemma int32_small (x : Z) : - 2 ^ 31 ≤ x < 2 ^ 31 → int32 x = x.
Proof.
  intros Hx. unfold int32, wrap.
  replace (32 - 1) with 31 by lia.
  rewrite Z.mod_small; lia.
Qed.

Lemma quot_bounds (a b : Z) : 0 ≤ a → - a ≤ a ÷ b ≤ a.
Proof.
  intros Ha.
  destruct (Z.eq_dec b 0) as [->|Hb].
  - replace (a ÷ 0) with 0 by (by destruct a). lia.
  - pose proof (Z.quot_abs a b Hb) as Habs.
    assert (Z.abs a ÷ Z.abs b ≤ Z.abs a).
    { rewrite Z.quot_div_nonneg by lia.
      apply Z.div_le_upper_bound; [lia|]. nia. }
    lia.
Qed.

(** ** Size detection (initSize) *)

Section initSize_facts.

Variable u : uploader.
Variable T : Z.
Hypothesis Hseek : seekerLen (Body (in_ u)) = Some (inr T).
Hypothesis HT : 0 ≤ T < max_int64.

Lemma initSize_known_size :
  ∃ u', initSize u = inr u' ∧ totalSize u' = T.
Proof using Hseek.
  unfold initSize. cbn. rewrite Hseek. cbn.
  case_match; eexists; split; reflexivity.
Qed.

Lemma initSize_adjusts :
  cfgMaxUploadParts (cfg u) ≤ T ÷ PartSize (cfg u) →
  initSize u =
    inr (set_cfg (set_PartSize (int64 (T ÷ cfgMaxUploadParts (cfg u) + 1)) (cfg u))
           (set_totalSize T (set_totalSize (-1) u))).
Proof using Hseek HT.
  intros Hge. unfold initSize. cbn. rewrite Hseek. cbn.
  unfold max_int64 in HT.
  rewrite int64_small by (pose proof (quot_bounds T (PartSize (cfg u))); lia).
  destruct (Z.geb_spec (T ÷ PartSize (cfg u)) (cfgMaxUploadParts (cfg u))); [done|lia].
Qed.

End initSize_facts.

Lemma ceil_div_quot_succ (T M : Z) :
  0 ≤ T → 1 ≤ M → ceil_div T (T ÷ M + 1) ≤ M.
Proof.
  intros HT HM. unfold ceil_div.
  rewrite Z.quot_div_nonneg by lia.
  pose proof (Z.div_mod T M ltac:(lia)) as Hdm.
  pose proof (Z.mod_pos_bound T M ltac:(lia)) as Hmod.
  assert (0 ≤ T / M) by (apply Z.div_pos; lia).
  apply Z.lt_succ_r.
  apply Z.div_lt_upper_bound; [lia|]. nia.
Qed.

(** C8.  When the stream's length [T] is known and [T / PartSize] reaches
    [MaxUploadParts], [initSize] sets the part size to
    [T / MaxUploadParts + 1] (integer division), and with that part size
    [ceil (T / PartSize)] is at most [MaxUploadParts]. *)
Theorem initSize_part_count_within_MaxUploadParts (u : uploader) (T : Z) :
  seekerLen (Body (in_ u)) = Some (inr T) →
  0 ≤ T < max_int64 →
  1 ≤ cfgMaxUploadParts (cfg u) →
  cfgMaxUploadParts (cfg u) ≤ T ÷ PartSize (cfg u) →
  ∃ u', initSize u = inr u'
        ∧ totalSize u' = T
        ∧ cfgMaxUploadParts (cfg u') = cfgMaxUploadParts (cfg u)
        ∧ PartSize (cfg u') = T ÷ cfgMaxUploadParts (cfg u) + 1
        ∧ ceil_div T (PartSize (cfg u')) ≤ cfgMaxUploadParts (cfg u).
Proof.
  intros Hseek HT HM Hge.
  rewrite (initSize_adjusts u T Hseek HT Hge).
  eexists; split; [reflexivity|]. cbn.
  assert (Hq : 0 ≤ T ÷ cfgMaxUploadParts (cfg u) ≤ T).
  { split; [apply Z.quot_pos; lia|].
    pose proof (quot_bounds T (cfgMaxUploadParts (cfg u))). lia. }
  unfold max_int64 in HT.
  rewrite int64_small by lia.
  repeat split. by apply ceil_div_quot_succ; lia.
Qed.

(** ** The number of parts of a random-access body *)

Lemma ceil_div_step (a p : Z) : 0 < p → p < a → ceil_div a p = ceil_div (a - p) p + 1.
Proof.
  intros Hp Ha. unfold ceil_div.
  replace (a + p - 1) with ((a - p + p - 1) + 1 * p) by lia.
  rewrite Z.div_add by lia. done.
Qed.

Lemma ceil_div_pos (a p : Z) : 0 < p → 0 < a → 1 ≤ ceil_div a p.
Proof.
  intros Hp Ha. unfold ceil_div.
  apply Z.div_le_lower_bound; lia.
Qed.

(** With the length [T] known, a random-access body is read in at most
    [ceil (T / PartSize)] chunks (one chunk when it is empty). *)
Lemma random_access_read_count (fuel : nat) (u : uploader) (len : error + Z)
    (data : list byte) :
  Body (in_ u) = ReaderAtSeeker len data →
  0 < PartSize (cfg u) →
  0 ≤ readerPos u ≤ totalSize u →
  totalSize u < max_int64 →
  Z.of_nat (length (read_all fuel u))
  ≤ Z.max 1 (ceil_div (totalSize u - readerPos u) (PartSize (cfg u))).
Proof.
  unfold max_int64.
  revert u. induction fuel as [|fuel IH]; intros u Hbody Hp Hpos Hmax; [cbn; lia|].
  cbn [read_all]. unfold nextReader. rewrite Hbody.
  destruct (Z.leb_spec 0 (totalSize u)); [|lia].
  rewrite int64_small by lia.
  destruct (Z.leb_spec (totalSize u - readerPos u) (PartSize (cfg u))) as [Hle|Hgt].
  - cbn. lia.
  - cbn [snd length]. rewrite Nat2Z.inj_succ.
    etrans; [apply Zsucc_le_compat, IH|]; cbn.
    + done.
    + done.
    + rewrite int64_small by lia. lia.
    + done.
    + rewrite int64_small by lia.
      rewrite (ceil_div_step (totalSize u - readerPos u)) by lia.
      pose proof (ceil_div_pos (totalSize u - (readerPos u + PartSize (cfg u)))
                    (PartSize (cfg u))).
      replace (totalSize u - readerPos u - PartSize (cfg u))
        with (totalSize u - (readerPos u + PartSize (cfg u))) by lia.
      lia.
Qed.

(** X18.  After [initSize] has raised the part size, a random-access body is
    read in at most [MaxUploadParts] chunks. *)
Lemma random_access_parts_within_limit (u : uploader) (T : Z) (data : list byte) :
  Body (in_ u) = ReaderAtSeeker (inr T) data →
  readerPos u = 0 →
  0 ≤ T < max_int64 →
  1 ≤ cfgMaxUploadParts (cfg u) →
  cfgMaxUploadParts (cfg u) ≤ T ÷ PartSize (cfg u) →
  ∃ u', initSize u = inr u'
        ∧ ∀ fuel, Z.of_nat (length (read_all fuel u')) ≤ cfgMaxUploadParts (cfg u).
Proof.
  intros Hbody Hpos HT HM Hge.
  assert (seekerLen (Body (in_ u)) = Some (inr T)) as Hseek by (by rewrite Hbody).
  rewrite (initSize_adjusts u T Hseek HT Hge).
  eexists; split; [reflexivity|]. intros fuel.
  assert (Hq : 0 ≤ T ÷ cfgMaxUploadParts (cfg u) ≤ T).
  { split; [apply Z.quot_pos; lia|].
    pose proof (quot_bounds T (cfgMaxUploadParts (cfg u))). lia. }
  unfold max_int64 in HT.
  etrans; [eapply (random_access_read_count _ _ (inr T) data)|]; cbn.
  - done.
  - rewrite int64_small by lia. lia.
  - lia.
  - unfold max_int64. lia.
  - rewrite Hpos, Z.sub_0_r, int64_small by lia.
    pose proof (ceil_div_quot_succ T (cfgMaxUploadParts (cfg u))). lia.
Qed.

(** ** The facade: validation and the single-part path *)

Lemma initSize_in (u u' : uploader) :
  initSize u = inr u' →
  Bucket (in_ u') = Bucket (in_ u) ∧ Key (in_ u') = Key (in_ u)
  ∧ existingUploadID u' = existingUploadID u.
Proof.
  unfold initSize. cbn. intros H.
  repeat case_match; simplify_eq; done.
Qed.

Lemma init_in (u u' : uploader) :
  init u = inr u' →
  Bucket (in_ u') = Bucket (in_ u) ∧ Key (in_ u') = Key (in_ u)
  ∧ existingUploadID u' = existingUploadID u.
Proof. unfold init. intros H. by apply initSize_in in H. Qed.

(** [init] does not look at the resume ID. *)
Lemma init_existingUploadID (c : Uploader) (i : PutObjectInput) (id id' : option string)
    (p t : Z) (n : nat) (u' : uploader) :
  init (mkuploader c i id p t n) = inr u' →
  ∃ u'', init (mkuploader c i id' p t n) = inr u'' ∧ cfg u'' = cfg u'.
Proof.
  unfold init, initSize. cbn. intros H.
  repeat case_match; simplify_eq; eexists; (split; [reflexivity|done]).
Qed.

Lemma same_settings_refl (u : uploader) : same_settings u u.
Proof. by repeat split. Qed.

Lemma same_settings_trans (u u' u'' : uploader) :
  same_settings u u' → same_settings u' u'' → same_settings u u''.
Proof. unfold same_settings. intros H1 H2. destruct_and!. repeat split; congruence. Qed.

Lemma nextReader_default_settings rebody r (u u' : uploader) x :
  nextReader_default rebody r u = (x, u') →
  same_settings u u' ∧ nreaders u' = S (nreaders u) ∧ cl_id x.1.2 = nreaders u.
Proof.
  unfold nextReader_default, same_settings. intros H.
  repeat case_match; simplify_eq; done.
Qed.

Lemma nextReader_settings (u u' : uploader) x :
  nextReader u = (x, u') →
  same_settings u u' ∧ nreaders u' = S (nreaders u) ∧ cl_id x.1.2 = nreaders u.
Proof.
  unfold nextReader. intros H.
  destruct (Body (in_ u)) eqn:Hb.
  - unfold same_settings. repeat case_match; simplify_eq; done.
  - by eapply nextReader_default_settings in H.
  - by eapply nextReader_default_settings in H.
Qed.

Section facade.

Context {C : Type} (S3 : UploadAPIClient C).
Context (Unquote : string → error + string).

Lemma upload_small_part_size (u u' : uploader) (cl : C) :
  init u = inr u' →
  PartSize (cfg u') < MinUploadPartSize →
  upload S3 Unquote u cl
  = Returned [] cl (inl (Errorf "part size must be at least 5242880 bytes")).
Proof.
  intros Hinit Hsmall. unfold upload. rewrite Hinit.
  destruct (Z.ltb_spec (PartSize (cfg u')) MinUploadPartSize); [done|lia].
Qed.

(** A failing [init] is reported as such, again before any client call. *)
Lemma upload_init_failure (u : uploader) (e : error) (cl : C) :
  init u = inl e →
  upload S3 Unquote u cl
  = Returned [] cl (inl (ErrorfW "unable to initialize upload: " e)).
Proof. intros Hinit. unfold upload. by rewrite Hinit. Qed.

(** C7.  When the part size in effect after [init] is below
    5*1024*1024 bytes, [Upload] and [ResumeUpload] return the error
    "part size must be at least 5242880 bytes" with an empty record of
    client calls and the client left as it was. *)
Theorem part_size_below_minimum_is_rejected (U : Uploader) (input : PutObjectInput)
    (uploadID : option string) (opts : list (Uploader → Uploader)) (cl : C)
    (u' : uploader) :
  init (mkuploader (foldl (λ c opt, opt c) U opts) input uploadID 0 0 0) = inr u' →
  PartSize (cfg u') < MinUploadPartSize →
  Upload S3 Unquote U input opts cl
  = Returned [] cl (inl (Errorf "part size must be at least 5242880 bytes"))
  ∧ ResumeUpload S3 Unquote U input uploadID opts cl
    = Returned [] cl (inl (Errorf "part size must be at least 5242880 bytes")).
Proof.
  intros Hinit Hsmall.
  unfold Upload, ResumeUpload, uploadWithSingleUploader, set_cfg. cbn.
  split.
  - destruct (init_existingUploadID _ _ _ None _ _ _ _ Hinit) as (u'' & Hinit' & Hcfg).
    apply (upload_small_part_size _ u''); [done|]. by rewrite Hcfg.
  - by apply (upload_small_part_size _ u').
Qed.

(** C9.  When the first [nextReader] call reports [io.EOF], the call makes
    one PutObject request whose body is the reader just obtained, runs the
    cleanup, and makes no other client call; a successful response yields
    an output with the recorded location, the response's version and an
    empty upload ID, and a failed one is returned as it is. *)
Theorem first_read_at_EOF_is_a_single_PutObject (u u0 u1 : uploader) (cl cl' : C)
    (reader : list byte) (n : Z) (cleanup : closure)
    (xs : list HttpExchange) (out : error + PutObjectOutput) :
  init u = inr u0 →
  MinUploadPartSize ≤ PartSize (cfg u0) →
  nextReader u0 = ((reader, n, cleanup, Some io_EOF), u1) →
  PutObject S3 (Bucket (in_ u)) (Key (in_ u)) reader cl = (xs, out, cl') →
  upload S3 Unquote u cl
  = Returned [PutObjectCall (Bucket (in_ u)) (Key (in_ u)) reader; CleanupCall cleanup] cl'
      match out with
      | inl e => inl e
      | inr o => inr (mkUploadOutput (location (wrapped {| location := "" |} xs))
                        (put_VersionId o) "")
      end.
Proof.
  intros Hinit Hsize Hread Hput. unfold upload. rewrite Hinit.
  destruct (Z.ltb_spec (PartSize (cfg u0)) MinUploadPartSize); [lia|].
  rewrite Hread. cbn. unfold singlePart.
  destruct (init_in _ _ Hinit) as (Hb & Hk & _).
  destruct (nextReader_settings _ _ _ Hread) as ((Hb' & Hk' & _) & _).
  rewrite Hb', Hk', Hb, Hk, Hput. by destruct out.
Qed.

End facade.

(** ** The coordinator: stepping lemmas *)

(** Splits a hypothesis [step t s = Some s'] into one goal per atomic
    action of the producer and of a worker. *)
Ltac step_inv H :=
  match type of H with
  | step _ _ ?t ?s = Some _ =>
      destruct t as [|?i]; cbn [step] in H;
      [ unfold step_main in H; destruct (main s) eqn:?Hmain
      | unfold step_worker in H;
        let w := fresh "w" in
        destruct (workers s !! i) as [w|] eqn:?Hw; cbn [mbind option_bind] in H;
        [destruct w|] ];
      unfold check, send, complete, fail in H;
      repeat case_match; simplify_eq
  end.

Section coordinator.

Context {C : Type} (S3 : UploadAPIClient C).
Context (md5_Sum : list byte → list byte).

Notation step := (step S3 md5_Sum).
Notation run := (run S3 md5_Sum).
Notation reaches := (reaches S3 md5_Sum).
Notation acquired := (acquired S3).

Lemma reaches_refl (s : state C) : reaches s s.
Proof. by exists []. Qed.

Lemma reaches_step (t : thread) (s s' s'' : state C) :
  step t s = Some s' → reaches s' s'' → reaches s s''.
Proof. intros Hstep [sched Hrun]. exists (t :: sched). cbn. by rewrite Hstep. Qed.

Lemma run_app (sched1 sched2 : list thread) (s : state C) :
  run (sched1 ++ sched2) s = run sched1 s ≫= run sched2.
Proof.
  revert s. induction sched1 as [|t sched1 IH]; intros s; cbn; [done|].
  destruct (step t s); cbn; [apply IH|done].
Qed.

Lemma reaches_trans (s s' s'' : state C) :
  reaches s s' → reaches s' s'' → reaches s s''.
Proof.
  intros [sched1 H1] [sched2 H2]. exists (sched1 ++ sched2).
  rewrite run_app, H1. done.
Qed.

(** Induction along an execution: a property kept by every atomic action
    holds in every state the execution reaches. *)
Lemma reaches_invariant (P : state C → Prop) :
  (∀ t s s', P s → step t s = Some s' → P s') →
  ∀ s s', reaches s s' → P s → P s'.
Proof.
  intros Hstep s s' [sched Hrun]. revert s Hrun.
  induction sched as [|t sched IH]; intros s Hrun HP; cbn in Hrun.
  - by simplify_eq.
  - destruct (step t s) as [s1|] eqn:Hs; [|done]. cbn in Hrun. eauto.
Qed.

(** The same for a relation between the first state and the current one. *)
Lemma reaches_relation (R : state C → state C → Prop) :
  (∀ s, R s s) →
  (∀ t s0 s s', R s0 s → step t s = Some s' → R s0 s') →
  ∀ s s', reaches s s' → R s s'.
Proof.
  intros Hrefl Hstep s s' Hreach.
  apply (reaches_invariant (R s)) with (s := s); [|done|apply Hrefl].
  intros t s1 s2 HR Hs. by apply (Hstep t s s1 s2).
Qed.

(** *** What no action changes *)

Lemma stable_refl (s : state C) : stable s s.
Proof. unfold stable. split_and!; auto using same_settings_refl. Qed.

Lemma stable_trans (s s' s'' : state C) : stable s s' → stable s' s'' → stable s s''.
Proof.
  intros (?&?&?&?&?&?) (?&?&?&?&?&?).
  unfold stable. split_and!; try congruence; eauto using same_settings_trans.
  by etrans.
Qed.

Lemma step_stable (t : thread) (s s' : state C) : step t s = Some s' → stable s s'.
Proof.
  intros H. unfold stable. step_inv H; cbn.
  all: try match goal with
           | H : nextReader _ = _ |- _ => apply nextReader_settings in H as (? & _)
           end.
  all: split_and!; auto using same_settings_refl, prefix_app_r.
Qed.

Lemma reaches_stable (s s' : state C) : reaches s s' → stable s s'.
Proof.
  apply reaches_relation; [apply stable_refl|].
  intros t s0 s1 s2 H01 H12. eapply stable_trans; [done|]. by eapply step_stable.
Qed.

Lemma all_done_lookup (ws : list worker) (i : nat) (w : worker) :
  all_done ws = true → ws !! i = Some w → w = WDone.
Proof.
  unfold all_done. rewrite forallb_forall. intros Hall Hw.
  apply list_elem_of_lookup_2, list_elem_of_In, Hall in Hw. by destruct w.
Qed.

(** *** How the call returns *)

Lemma step_returned_inv (t : thread) (s s' : state C) :
  returned_inv s → step t s = Some s' → returned_inv s'.
Proof.
  intros Hinv H. unfold returned_inv, returned_as in *. step_inv H; cbn in *.
  all: try (intros; simplify_eq; split_and?; eauto; fail).
  all: intros res Hr; destruct (Hinv res Hr) as [Hall _];
       by pose proof (all_done_lookup _ _ _ Hall Hw).
Qed.

Lemma reaches_returned (s s' : state C) (r : error + UploadOutput) :
  (∀ r0, main s ≠ PReturned r0) →
  reaches s s' → main s' = PReturned r → returned_as s' r.
Proof.
  intros Hs Hreach Hr.
  assert (returned_inv s') as Hinv.
  { eapply (reaches_invariant returned_inv); [|done|].
    - intros t s1 s2. apply step_returned_inv.
    - intros r0 ?. by destruct (Hs r0). }
  by apply Hinv.
Qed.

(** *** Shape of the reachable states *)

Lemma shouldContinue_true (u : multiuploader) (part n : Z) (e e' : option error) :
  shouldContinue u part n e = (true, e') →
  n ≠ 0 ∧ e' = e ∧ (e = None ∨ e = Some io_EOF)
  ∧ int32 (part + 1) ≤ cfgMaxUploadParts (cfg (mu_uploader u))
  ∧ int32 (part + 1) ≤ MaxUploadParts.
Proof.
  unfold shouldContinue. intros H.
  destruct e as [[]|]; cbn in H; try done.
  all: destruct (Z.eqb_spec n 0); [done|].
  all: destruct (Z.gtb_spec (int32 (part + 1)) (cfgMaxUploadParts (cfg (mu_uploader u))));
       [done|].
  all: destruct (Z.gtb_spec (int32 (part + 1)) MaxUploadParts); [done|].
  all: cbn in H; simplify_eq; split_and!; auto; lia.
Qed.

Lemma next_part_number (part : Z) :
  1 ≤ part ≤ MaxUploadParts → int32 (part + 1) = part + 1.
Proof. unfold MaxUploadParts. intros. apply int32_small. lia. Qed.

Lemma elem_of_insert_inv {A} (l : list A) (i : nat) (x y : A) :
  x ∈ <[i:=y]> l → x = y ∨ x ∈ l.
Proof.
  revert i. induction l as [|z l IH]; intros [|i]; cbn; rewrite ?elem_of_cons.
  - by right.
  - by right.
  - intros [->|?]; auto.
  - intros [->|Hx]; [auto|]. destruct (IH _ Hx); auto.
Qed.

Lemma step_wf (t : thread) (s s' : state C) : wf s → step t s = Some s' → wf s'.
Proof.
  intros (Hlen & Hcap & Hclosed & Hdone & Hnum) H. unfold wf.
  step_inv H; cbn in *.
  all: rewrite ?length_insert.
  all: try match goal with
           | H : nextReader _ = _ |- _ =>
               apply nextReader_settings in H as ((?&?&?&?&?&?&HC&?) & _);
               rewrite ?HC
           end.
  all: try match goal with
           | H : shouldContinue _ _ _ _ = (?b, _), H' : negb ?b = false |- _ =>
               destruct b; [|done];
               apply shouldContinue_true in H as (?&?&?&?&?); cbn in *
           end.
  all: rewrite ?next_part_number in * by done.
  all: repeat match goal with
              | H : (_ <? _) = true |- _ => apply Z.ltb_lt in H
              | H : ch _ = _ |- _ => rewrite H in *; cbn in *
              end.
  all: rewrite ?length_app; cbn.
  all: split_and!; try done; try lia.
  all: try (intros [->|Hin]%elem_of_insert_inv; [done|]; by apply Hdone).
  all: try (intros Hin%elem_of_insert_inv; destruct Hin as [?|Hin]; [done|];
            destruct (Hdone Hin); simplify_eq; done).
  all: try (destruct (closed s); [by specialize (Hclosed eq_refl)|]).
  all: try (intros Hin; destruct (Hdone Hin); simplify_eq; done).
  all: done.
Qed.

(** *** Counting chunks *)

Lemma tally_nil `{Countable K} (k : chunk → K) : tally k [] = ∅.
Proof. done. Qed.

Lemma tally_app `{Countable K} (k : chunk → K) (l1 l2 : list chunk) :
  tally k (l1 ++ l2) = tally k l1 ⊎ tally k l2.
Proof. unfold tally. by rewrite fmap_app, list_to_set_disj_app. Qed.

Lemma tally_cons `{Countable K} (k : chunk → K) (c : chunk) (l : list chunk) :
  tally k (c :: l) = {[+ k c +]} ⊎ tally k l.
Proof. unfold tally. by rewrite fmap_cons, list_to_set_disj_cons. Qed.

Lemma tally_singleton `{Countable K} (k : chunk → K) (c : chunk) :
  tally k [c] = {[+ k c +]}.
Proof. rewrite tally_cons, tally_nil. multiset_solver. Qed.

(** Replacing worker [i] exchanges its contribution to a tally. *)
Lemma tally_bind_insert `{Countable K} (k : chunk → K) (f : worker → list chunk)
    (ws : list worker) (i : nat) (w w' : worker) :
  ws !! i = Some w →
  tally k (<[i:=w']> ws ≫= f) ⊎ tally k (f w) = tally k (ws ≫= f) ⊎ tally k (f w').
Proof.
  intros Hw.
  rewrite insert_take_drop by (by eapply lookup_lt_Some).
  rewrite <- (take_drop_middle ws i w Hw) at 3.
  rewrite !bind_app, !bind_cons, !tally_app. multiset_solver.
Qed.

Lemma tally_all_done `{Countable K} (k : chunk → K) (f : worker → list chunk)
    (ws : list worker) :
  f WDone = [] → all_done ws = true → tally k (ws ≫= f) = ∅.
Proof.
  intros Hf. induction ws as [|w ws IH]; [done|].
  cbn. intros [Hw Hws]%andb_prop. destruct w; try done.
  fold (all_done ws) in Hws.
  change ((WDone :: ws) ≫= f) with (f WDone ++ (ws ≫= f)).
  rewrite Hf. cbn. by apply IH.
Qed.

(** Equal tallies are permutations of one another. *)
Lemma list_to_set_disj_inj `{Countable K} (l1 l2 : list K) :
  list_to_set_disj l1 =@{gmultiset K} list_to_set_disj l2 → l1 ≡ₚ l2.
Proof.
  revert l2. induction l1 as [|x l1 IH]; intros l2 Heq.
  - destruct l2 as [|y l2]; [done|].
    rewrite list_to_set_disj_nil, list_to_set_disj_cons in Heq. multiset_solver.
  - assert (x ∈ l2) as Hx.
    { apply elem_of_list_to_set_disj. rewrite <- Heq.
      rewrite list_to_set_disj_cons. multiset_solver. }
    apply list_elem_of_split in Hx as (la & lb & ->).
    rewrite <- Permutation_middle. constructor. apply IH.
    rewrite list_to_set_disj_cons, list_to_set_disj_app, list_to_set_disj_cons in Heq.
    rewrite list_to_set_disj_app. multiset_solver.
Qed.

(** *** Completed parts *)

Ltac simpl_state :=
  cbn [mu client ch closed workers main st_num st_err locationRecorder trace
       set_mu set_client set_ch set_closed set_worker set_main set_num set_err emit
       err parts uploadID eTagByPartNumber mu_uploader seterr geterr completePart
       set_parts set_uploader num buf cleanup PartNumber ETag] in *.

Lemma seqZ_snoc (n : Z) : 0 ≤ n → seqZ 1 (n + 1) = seqZ 1 n ++ [n + 1].
Proof.
  intros Hn. rewrite seqZ_app by lia.
  replace (1 + n) with (n + 1) by lia. done.
Qed.

Lemma step_parts_inv (t : thread) (s s' : state C) :
  wf s → parts_inv s → step t s = Some s' → parts_inv s'.
Proof.
  intros (Hlen & Hcap & Hclosed & Hdone & Hnum) Hinv H.
  unfold parts_inv, pending in *.
  step_inv H; simpl_state.
  all: try match goal with
           | Hw : workers _ !! ?i = Some ?w |- context [<[?i:=?w']> (workers _)] =>
               pose proof (tally_bind_insert num unfinished _ i w w' Hw) as Hex;
               cbn [unfinished] in Hex;
               rewrite ?tally_singleton, ?tally_nil in Hex
           end.
  all: try match goal with
           | H : shouldContinue _ _ _ _ = (?b, _), H' : negb ?b = false |- _ =>
               destruct b; [|done];
               apply shouldContinue_true in H as (?&?&?&?&?); simpl_state;
               rewrite next_part_number, seqZ_snoc by lia
           end.
  all: repeat match goal with
              | H : main _ = _ |- _ => rewrite H in *
              | H : ch _ = _ |- _ => rewrite H in *
              end.
  all: cbn [sending] in *.
  all: rewrite ?fmap_app, ?list_to_set_disj_app, ?tally_app, ?tally_cons,
         ?tally_singleton, ?tally_nil in *; cbn [fmap list_fmap PartNumber num] in *.
  all: rewrite ?list_to_set_disj_cons, ?list_to_set_disj_nil in *.
  all: try (intros Hnone; discriminate Hnone).
  all: intros Hnone; specialize (Hinv Hnone).
  all: try (unfold geterr in *; congruence).
  all: unfold sort_Sort; rewrite ?merge_sort_Permutation.
  all: try (exact Hinv).
  all: try (clear -Hinv; multiset_solver).
  all: clear -Hinv Hex; multiset_solver.
Qed.

(** *** The manifest *)

Lemma StronglySorted_lt_seqZ (m n : Z) : StronglySorted Z.lt (seqZ m n).
Proof.
  destruct (decide (0 ≤ n)) as [Hn|Hn]; [|rewrite seqZ_nil by lia; constructor].
  rewrite <- (Z2Nat.id n Hn). generalize (Z.to_nat n) as k. clear n Hn.
  intros k. revert m. induction k as [|k IH]; intros m.
  - cbn. rewrite seqZ_nil by lia. constructor.
  - rewrite seqZ_cons by lia. constructor.
    + replace (Z.pred (Z.of_nat (S k))) with (Z.of_nat k) by lia. apply IH.
    + apply Forall_seqZ. lia.
Qed.

Lemma Sorted_le_seqZ (m n : Z) : Sorted Z.le (seqZ m n).
Proof.
  apply StronglySorted_Sorted.
  pose proof (StronglySorted_lt_seqZ m n) as Hs.
  induction Hs as [|x l Hs IH Hall]; constructor; [done|].
  eapply Forall_impl; [done|]. intros y. cbv beta. lia.
Qed.

#[local] Instance part_le_total : Total part_le.
Proof. intros a b. unfold part_le. lia. Qed.

(** A sorted list of parts whose numbers are a permutation of 1..n has
    exactly the numbers 1..n, in that order. *)
Lemma sort_Sort_seqZ (ps : list CompletedPart) (n : Z) :
  PartNumber <$> ps ≡ₚ seqZ 1 n →
  PartNumber <$> sort_Sort ps = seqZ 1 n.
Proof.
  intros Hperm. unfold sort_Sort.
  apply (Sorted_unique Z.le).
  - eapply Sorted_fmap; [|apply (Sorted_merge_sort part_le)]. done.
  - apply Sorted_le_seqZ.
  - by rewrite merge_sort_Permutation.
Qed.

Lemma StronglySorted_Less (m : list CompletedPart) (n : Z) :
  PartNumber <$> m = seqZ 1 n → StronglySorted Less m.
Proof.
  intros Heq. pose proof (StronglySorted_lt_seqZ 1 n) as Hs. rewrite <- Heq in Hs.
  clear Heq. induction m as [|a m IH]; [constructor|].
  cbn in Hs. apply StronglySorted_inv in Hs as [Hs Hall].
  constructor; [by apply IH|].
  rewrite Forall_fmap in Hall. done.
Qed.

(** Once the workers are gone nothing is pending. *)
Lemma quiescent_pending (s : state C) :
  wf s → main s = PWait → all_done (workers s) = true → pending s = ∅.
Proof.
  intros (Hlen & Hcap & Hclosed & Hdone & Hnum) Hmain Hall. unfold pending.
  rewrite Hmain. cbn [sending]. rewrite tally_nil.
  rewrite (tally_all_done num unfinished) by done.
  assert (ch s = []) as ->.
  { destruct (workers s) as [|w ws] eqn:Hws.
    - cbn in Hcap. destruct (ch s); [done|cbn in Hcap; lia].
    - assert (w = WDone) as -> by (by eapply (all_done_lookup _ 0)).
      apply Hdone. by left. }
  rewrite tally_nil. multiset_solver.
Qed.

Lemma quiescent_manifest (s : state C) :
  wf s → parts_inv s → main s = PWait → all_done (workers s) = true →
  err (mu s) = None →
  PartNumber <$> sort_Sort (parts (mu s)) = seqZ 1 (st_num s).
Proof.
  intros Hwf Hinv Hmain Hall Hnone.
  apply sort_Sort_seqZ, list_to_set_disj_inj.
  rewrite <- (Hinv Hnone), (quiescent_pending s) by done. multiset_solver.
Qed.

Lemma step_calls_inv (t : thread) (s s' : state C) :
  wf s → parts_inv s → returned_inv s → calls_inv s →
  step t s = Some s' → calls_inv s'.
Proof.
  intros Hwf Hparts Hret Hinv H. unfold calls_inv in *.
  pose proof (quiescent_manifest s Hwf Hparts) as Hq.
  step_inv H; simpl_state.
  all: try match goal with
           | Hm : main _ = PReturned ?r |- _ =>
               destruct (Hret r Hm) as [Hall _];
               by pose proof (all_done_lookup _ _ _ Hall Hw)
           end.
  all: unfold complete_calls in *; rewrite ?omap_app; cbn [omap list_omap].
  all: try match goal with H : main _ = _ |- _ => rewrite H in * end.
  all: try (rewrite Hinv; done).
  all: try match goal with
           | |- context [match ?m with PReturned _ => _ | _ => _ end] =>
               destruct m eqn:?; rewrite ?Hinv; try done
           end.
  all: rewrite ?Hinv; cbn.
  all: try (left; done).
  all: try (right; eexists; split; [reflexivity|]; apply Hq; done).
Qed.

(** *** Cleanup closures *)

Lemma step_cleanup_inv (t : thread) (s s' : state C) :
  cleanup_inv s → step t s = Some s' → cleanup_inv s'.
Proof.
  intros Hinv H. unfold cleanup_inv in *.
  step_inv H; simpl_state.
  all: try match goal with
           | Hw : workers _ !! ?i = Some ?w |- context [<[?i:=?w']> (workers _)] =>
               pose proof (tally_bind_insert closure_of held _ i w w' Hw) as Hex;
               cbn [held] in Hex;
               rewrite ?tally_singleton, ?tally_nil in Hex
           end.
  all: try match goal with
           | H : nextReader _ = _ |- _ =>
               apply nextReader_settings in H as (_ & Hn & Hid); cbn in Hid;
               rewrite Hn, seq_S; cbn [Nat.add]
           end.
  all: repeat match goal with
              | H : main _ = _ |- _ => rewrite H in *
              | H : ch _ = _ |- _ => rewrite H in *
              end.
  all: cbn [sending] in *.
  all: unfold cleaned in *; rewrite ?omap_app; cbn [omap list_omap].
  all: rewrite ?fmap_app, ?list_to_set_disj_app, ?tally_app, ?tally_cons,
         ?tally_singleton, ?tally_nil in *; cbn [fmap list_fmap] in *.
  all: rewrite ?list_to_set_disj_cons, ?list_to_set_disj_nil in *.
  all: unfold closure_of in *; simpl_state.
  all: try (exact Hinv).
  all: try (clear -Hinv; multiset_solver).
  all: try (clear -Hinv Hex; multiset_solver).
  all: rewrite Hid; clear -Hinv; multiset_solver.
Qed.

(** *** UploadPart calls *)

Lemma worker_ok_mono (m : gmap Z string) (n n' : Z) (w : worker) :
  n ≤ n' → worker_ok m n w → worker_ok m n' w.
Proof.
  intros Hn [Hheld Hsend]. split; [|done].
  eapply Forall_impl; [done|]. unfold numbered. intros c. cbv beta. lia.
Qed.

Lemma step_uploads_inv (t : thread) (s s' : state C) :
  wf s → uploads_inv s → step t s = Some s' → uploads_inv s'.
Proof.
  intros (Hlen & Hcap & Hclosed & Hdone & Hnum) (Hq & Hws & Hup) H.
  unfold uploads_inv in *.
  step_inv H; simpl_state.
  all: try match goal with
           | Hw : workers _ !! ?i = Some ?w |- _ =>
               pose proof (Forall_lookup_1 _ _ _ _ Hws Hw) as [Hheld Hsend];
               cbn [held] in Hheld; rewrite ?Forall_singleton in Hheld
           end.
  all: try match goal with
           | H : shouldContinue _ _ _ _ = (?b, _), H' : negb ?b = false |- _ =>
               destruct b; [|done];
               apply shouldContinue_true in H as (?&?&?&?&?); simpl_state;
               rewrite next_part_number by lia
           end.
  all: repeat match goal with
              | H : main _ = _ |- _ => rewrite H in *
              | H : ch _ = _ |- _ => rewrite H in *
              end.
  all: cbn [sending app] in *.
  all: unfold uploads in *; rewrite ?omap_app; cbn [omap list_omap].
  all: rewrite ?Forall_app, ?Forall_cons, ?Forall_singleton, ?Forall_nil in *.
  all: cbn [UploadPart_params up_PartNumber] in *.
  all: destruct_and?.
  all: split_and?; try done.
  all: try (apply Forall_insert; [done|]; split; cbn [held];
            rewrite ?Forall_singleton, ?Forall_nil; done).
  all: try (unfold numbered in *; simpl_state; lia).
  all: try (eapply Forall_impl; [done|]; unfold numbered; intros ?; cbv beta; lia).
  all: try (eapply Forall_impl; [done|]; intros ?; by apply worker_ok_mono; lia).
  eapply Forall_impl; [done|]. intros p [? ?]. split; [lia|done].
Qed.

(** *** All invariants together *)

Lemma step_inv_all (t : thread) (s s' : state C) : inv s → step t s = Some s' → inv s'.
Proof.
  intros (Hwf & Hparts & Hret & Hcalls & Hup) H. unfold inv. split_and!.
  - by eapply step_wf.
  - by eapply step_parts_inv.
  - by eapply step_returned_inv.
  - by eapply step_calls_inv.
  - by eapply step_uploads_inv.
Qed.

Lemma reaches_inv (s s' : state C) : reaches s s' → inv s → inv s'.
Proof. apply reaches_invariant. intros t s1 s2 ? ?. by eapply step_inv_all. Qed.

(** *** The first state *)

Context (Unquote : string → error + string).

Lemma spawn_fresh (u : multiuploader) (firstBuf : list byte) (cleanup : closure)
    (rec : recordLocationClient) (tr : list event) (cl : C) (s : state C) :
  spawn u firstBuf cleanup rec tr cl = Started s →
  fresh u firstBuf cleanup rec tr cl s.
Proof.
  unfold spawn. case_match; [done|]. intros [= <-]. by repeat split.
Qed.

Lemma Forall_replicate_WRecv (P : worker → Prop) (n : nat) :
  P WRecv → Forall P (replicate n WRecv).
Proof. intros HP. induction n; cbn; constructor; done. Qed.

Lemma bind_replicate_WRecv (f : worker → list chunk) (n : nat) :
  f WRecv = [] → replicate n WRecv ≫= f = [].
Proof. intros Hf. induction n as [|n IH]; [done|]. cbn. by rewrite Hf, IH. Qed.

Lemma fresh_inv (u : multiuploader) (firstBuf : list byte) (fn : closure)
    (rec : recordLocationClient) (tr : list event) (cl : C) (s : state C) :
  fresh u firstBuf fn rec tr cl s →
  parts u = [] → complete_calls tr = [] → uploads tr = [] →
  inv s.
Proof.
  intros (Hmu & Hcl & Hch & Hclosed & Hws & Hmain & Hnum & Herr & Hrec & Htr).
  intros Hparts Hcalls Huploads.
  unfold inv, wf, parts_inv, pending, returned_inv, calls_inv, uploads_inv.
  rewrite Hmu, Hch, Hclosed, Hws, Hmain, Hnum, Htr, Hparts, Hcalls, Huploads.
  rewrite !bind_replicate_WRecv by done.
  rewrite length_replicate. cbn [sending length app fmap list_fmap].
  rewrite !tally_singleton, !tally_nil. cbn [num].
  unfold MaxUploadParts.
  split_and!; try done; try lia.
  - intros Hin. by apply elem_of_replicate_inv in Hin.
  - apply Forall_singleton. unfold numbered. cbn. lia.
  - apply Forall_replicate_WRecv. split; [constructor|done].
Qed.

Lemma fresh_cleanup_inv (u : multiuploader) (firstBuf : list byte) (fn : closure)
    (rec : recordLocationClient) (tr : list event) (cl : C) (s : state C) :
  fresh u firstBuf fn rec tr cl s →
  cleaned tr = [] → cl_id fn = 0%nat → nreaders (mu_uploader u) = 1%nat →
  cleanup_inv s.
Proof.
  intros (Hmu & Hcl & Hch & Hclosed & Hws & Hmain & Hnum & Herr & Hrec & Htr).
  intros Hcleaned Hid Hn. unfold cleanup_inv.
  rewrite Hmu, Hch, Hws, Hmain, Htr, Hcleaned, Hn.
  rewrite !bind_replicate_WRecv by done.
  cbn [sending]. rewrite !tally_singleton, !tally_nil. unfold closure_of.
  simpl. rewrite Hid. multiset_solver.
Qed.

Lemma wrapped_app (c : recordLocationClient) (xs ys : list HttpExchange) :
  wrapped c (xs ++ ys) = wrapped (wrapped c xs) ys.
Proof. apply foldl_app. Qed.

(** After a wrapped call the recorder holds the URL of the last round trip
    that came back with a request URL, its query removed. *)
Lemma wrapped_location (c : recordLocationClient) (xs : list HttpExchange) :
  location (wrapped c xs)
  = match last (observed xs) with
    | Some url => URL_String (mkURL (Scheme url) (Host url) (Path url) "" (Fragment url))
    | None => location c
    end.
Proof.
  induction xs as [|x xs IH] using rev_ind; [done|].
  rewrite wrapped_app. unfold observed in *. rewrite omap_app, last_app. cbn.
  destruct x as [e|[[[[url|]]|]]]; cbn; try done.
Qed.

Lemma paginate_spec (call : event) (pages : list page) (rec rec' : recordLocationClient)
    (m : gmap Z string) (evs : list event) (r : error + gmap Z string) :
  paginate Unquote call pages rec m = (evs, rec', r) →
  evs = replicate (length evs) call
  ∧ (length evs ≤ length pages)%nat
  ∧ rec' = wrapped rec (concat (fst <$> take (length evs) pages)).
Proof.
  revert rec m evs rec' r. induction pages as [|[xs res] pages IH];
    intros rec m evs rec' r H; cbn in H.
  - by simplify_eq.
  - repeat case_match; simplify_eq; cbn; try (split_and!; [done|lia|by rewrite app_nil_r]).
    match goal with H : paginate _ _ _ _ _ = _ |- _ => apply IH in H as (Hevs & Hlen & ->) end.
    split_and!; [by rewrite <- Hevs|lia|by rewrite wrapped_app].
Qed.

Lemma replicate_no_calls (k : nat) (b key id : string) :
  complete_calls (replicate k (ListPartsCall b key id)) = []
  ∧ uploads (replicate k (ListPartsCall b key id)) = []
  ∧ cleaned (replicate k (ListPartsCall b key id)) = [].
Proof. induction k as [|k IH]; [done|]. cbn. apply IH. Qed.

Lemma mu_upload_started (u : multiuploader) (firstBuf : list byte) (fn : closure)
    (cl : C) (s0 : state C) :
  mu_upload S3 Unquote u firstBuf fn cl = Started s0 →
  fresh (mu s0) firstBuf fn (locationRecorder s0) (trace s0) (client s0) s0
  ∧ mu_uploader (mu s0) = mu_uploader u
  ∧ err (mu s0) = err u
  ∧ parts (mu s0) = parts u
  ∧ acquired u cl s0.
Proof.
  unfold mu_upload, acquired. intros H.
  destruct (existingUploadID (mu_uploader u)) as [id|] eqn:Hid.
  - destruct (paginate _ _ _ _ _) as [[evs rec] r] eqn:Hpag.
    destruct r as [e|m]; [done|].
    apply spawn_fresh in H. pose proof H as (Hmu & Hcl & _ & _ & _ & _ & _ & _ & Hrec & Htr).
    apply paginate_spec in Hpag as (Hevs & Hlen & Hrec').
    rewrite Hmu, Hcl, Hrec, Htr. cbn. split_and!; try done.
    exists (length evs). by rewrite <- Hevs.
  - destruct (CreateMultipartUpload _ _ _ _) as [[xs r] cl'] eqn:Hcreate.
    destruct r as [e|resp]; [done|].
    apply spawn_fresh in H. pose proof H as (Hmu & Hcl & _ & _ & _ & _ & _ & _ & Hrec & Htr).
    rewrite Hmu, Hcl, Hrec, Htr. cbn. split_and!; try done.
    by exists xs, resp.
Qed.

Lemma mu_upload_inv (u : multiuploader) (firstBuf : list byte) (fn : closure)
    (cl : C) (s0 : state C) :
  parts u = [] →
  mu_upload S3 Unquote u firstBuf fn cl = Started s0 → inv s0.
Proof.
  intros Hparts H. apply mu_upload_started in H as (Hfresh & _ & _ & Hp & Hacq).
  eapply fresh_inv; [done|congruence| |].
  all: unfold acquired in Hacq; destruct (existingUploadID _).
  all: destruct Hacq as (? & ? & ?); destruct_and?.
  all: repeat match goal with H : ∃ _, _ |- _ => destruct H end; destruct_and?.
  all: match goal with H : trace _ = _ |- _ => rewrite H end.
  all: try done.
  all: apply replicate_no_calls.
Qed.

Lemma fresh_not_returned (u : multiuploader) (firstBuf : list byte) (fn : closure)
    (rec : recordLocationClient) (tr : list event) (cl : C) (s : state C) :
  fresh u firstBuf fn rec tr cl s → ∀ r, main s ≠ PReturned r.
Proof. intros (_&_&_&_&_&Hmain&_) r. by rewrite Hmain. Qed.

(** ** The claims on the coordinator *)

(** C1.  When a multipart upload returns an output, its last client call
    is the one CompleteMultipartUpload call it made, and the manifest of
    that call lists the part numbers 1, 2, ..., N in this order, with
    [N >= 1]; in particular it is strictly ascending for [Less]. *)
Theorem manifest_lists_parts_1_to_N (u : multiuploader) (firstBuf : list byte)
    (fn : closure) (cl : C) (s0 s' : state C) (out : UploadOutput) :
  parts u = [] →
  mu_upload S3 Unquote u firstBuf fn cl = Started s0 →
  reaches s0 s' →
  main s' = PReturned (inr out) →
  ∃ tr manifest N,
    trace s' = tr ++ [CompleteMultipartUploadCall (Bucket (in_ (mu_uploader u)))
                        (Key (in_ (mu_uploader u))) (UploadID out) manifest]
    ∧ complete_calls tr = []
    ∧ 1 ≤ N
    ∧ PartNumber <$> manifest = seqZ 1 N
    ∧ StronglySorted Less manifest.
Proof.
  intros Hparts Hstart Hreach Hret.
  pose proof (mu_upload_inv _ _ _ _ _ Hparts Hstart) as Hinv0.
  pose proof (reaches_inv _ _ Hreach Hinv0) as (Hwf & _ & Hretinv & Hcalls & _).
  destruct (Hretinv _ Hret) as (_ & _ & Hid & _ & tr & Htr).
  apply mu_upload_started in Hstart as (_ & Hu & _).
  apply reaches_stable in Hreach as (_ & _ & _ & (Hb & Hk & _) & _).
  unfold calls_inv in Hcalls. rewrite Hret, Htr in Hcalls.
  unfold complete_calls in Hcalls. rewrite omap_app in Hcalls. cbn in Hcalls.
  destruct Hcalls as [Hnil|(m & Hm & Hseq)].
  { by apply app_eq_nil in Hnil as [_ ?]. }
  apply app_singleton in Hm as [[Htr0 Heq]|[_ ?]]; [|done]. simplify_eq.
  exists tr, (parts (mu s')), (st_num s').
  rewrite Htr, Hb, Hk, Hu, Hid. split_and!; try done.
  - apply Hwf.
  - by eapply StronglySorted_Less.
Qed.

(** X13.  A failure of CreateMultipartUpload is returned as the client reported
    it, after the first chunk's cleanup. *)
Lemma create_failure_is_returned_unwrapped (u : multiuploader) (firstBuf : list byte)
    (fn : closure) (cl cl' : C) (xs : list HttpExchange) (e : error) :
  existingUploadID (mu_uploader u) = None →
  CreateMultipartUpload S3 (Bucket (in_ (mu_uploader u)))
    (Key (in_ (mu_uploader u))) cl = (xs, inl e, cl') →
  mu_upload S3 Unquote u firstBuf fn cl
  = Returned [CreateMultipartUploadCall (Bucket (in_ (mu_uploader u)))
                (Key (in_ (mu_uploader u)));
              CleanupCall fn] cl' (inl e).
Proof. intros Hnone Hcreate. unfold mu_upload. by rewrite Hnone, Hcreate. Qed.

(** C5, as the code has it.  Once the session is acquired and the
    goroutines are started, a multipart upload that returns an error
    returns a [multiUploadError] around the content of the error
    register, and its [UploadID()] is the session ID. *)
Theorem failure_after_acquisition_carries_UploadID (u : multiuploader)
    (firstBuf : list byte) (fn : closure) (cl : C) (s0 s' : state C) (e : error) :
  mu_upload S3 Unquote u firstBuf fn cl = Started s0 →
  reaches s0 s' →
  main s' = PReturned (inl e) →
  ∃ cause, err (mu s') = Some cause
           ∧ e = multiUploadError (Some cause) (uploadID (mu s0))
           ∧ UploadID_of e = Some (uploadID (mu s0))
           ∧ MultiUploadFailure e.
Proof.
  intros Hstart Hreach Hret.
  apply mu_upload_started in Hstart as (Hfresh & _).
  pose proof (reaches_returned _ _ _ (fresh_not_returned _ _ _ _ _ _ _ Hfresh)
                Hreach Hret) as (cause & Hcause & ->).
  apply reaches_stable in Hreach as (Hid & _). rewrite Hid.
  exists cause. split_and!; try done. by eexists.
Qed.

(** C10.  The [Location] of a successful multipart upload is what the
    recorder held when the goroutines were started: for a fresh upload the
    query-stripped URL of the last round trip of CreateMultipartUpload
    that came back with a request URL; for a resumed one that of the last
    such round trip among the ListParts pages fetched; the empty string
    when there was none.  No later call changes it. *)
Theorem Location_is_recorded_at_acquisition (u : multiuploader) (firstBuf : list byte)
    (fn : closure) (cl : C) (s0 s' : state C) (out : UploadOutput) :
  mu_upload S3 Unquote u firstBuf fn cl = Started s0 →
  reaches s0 s' →
  main s' = PReturned (inr out) →
  let i := in_ (mu_uploader u) in
  match existingUploadID (mu_uploader u) with
  | None =>
      Location out
      = location_of (observed (CreateMultipartUpload S3 (Bucket i) (Key i) cl).1.1)
  | Some id =>
      ∃ k, trace s0 = replicate k (ListPartsCall (Bucket i) (Key i) id)
           ∧ Location out
             = location_of (observed (concat (fst <$>
                 take k (NewListPartsPaginator S3 (Bucket i) (Key i) id cl))))
  end.
Proof.
  intros Hstart Hreach Hret i.
  apply mu_upload_started in Hstart as (Hfresh & _ & _ & _ & Hacq).
  pose proof (reaches_returned _ _ _ (fresh_not_returned _ _ _ _ _ _ _ Hfresh)
                Hreach Hret) as (_ & _ & Hloc & _).
  apply reaches_stable in Hreach as (_ & _ & Hrec & _).
  rewrite Hloc, Hrec. unfold acquired in Hacq. fold i in Hacq.
  destruct (existingUploadID (mu_uploader u)) as [id|].
  - destruct Hacq as (_ & _ & k & Htr & _ & ->).
    exists k. split; [done|]. by rewrite wrapped_location.
  - destruct Hacq as (xs & resp & Hcreate & _ & _ & -> & _).
    rewrite Hcreate. cbn. by rewrite wrapped_location.
Qed.

(** C4, as the code has it.  [seterr] stores its argument whatever the
    register holds: the step of a thread that is about to record [e]
    leaves [e] in the register.  No step empties a register that is set.
    A returned error wraps the content of the register at that moment,
    and an output is returned only with an empty register. *)
Theorem error_register_holds_the_last_error (u : multiuploader)
    (firstBuf : list byte) (fn : closure) (cl : C) (s0 s s' : state C) (t : thread) :
  mu_upload S3 Unquote u firstBuf fn cl = Started s0 →
  reaches s0 s →
  step t s = Some s' →
  (∀ e x, geterr (seterr e x) = e)
  ∧ (is_Some (err (mu s)) → is_Some (err (mu s')))
  ∧ (∀ e, t = Main → main s = PSetErr e → err (mu s') = Some e)
  ∧ (∀ i e c, t = Worker i → workers s !! i = Some (WSetErr e c) →
              err (mu s') = Some e)
  ∧ (∀ r, main s' = PReturned r →
          match r with
          | inl x => ∃ e, err (mu s') = Some e
                          ∧ x = multiUploadError (Some e) (uploadID (mu s'))
          | inr _ => err (mu s') = None
          end).
Proof.
  intros Hstart Hreach Hstep. split_and!.
  - done.
  - by apply step_stable in Hstep as (_&_&_&_&_&?).
  - intros e -> Hmain. cbn in Hstep. unfold step_main in Hstep.
    rewrite Hmain in Hstep. by simplify_eq.
  - intros i e c -> Hw. cbn in Hstep. unfold step_worker in Hstep.
    rewrite Hw in Hstep. cbn in Hstep. by simplify_eq.
  - intros r Hret.
    apply mu_upload_started in Hstart as (Hfresh & _).
    assert (reaches s0 s') as Hreach'.
    { eapply reaches_trans; [done|]. eapply reaches_step; [done|apply reaches_refl]. }
    pose proof (reaches_returned _ _ _ (fresh_not_returned _ _ _ _ _ _ _ Hfresh)
                  Hreach' Hret) as Hras.
    destruct r; [done|]. apply Hras.
Qed.

(** *** The producer after it gave up *)

Lemma step_leaving (t : thread) (s s' : state C) :
  leaving (main s) = true → step t s = Some s' →
  leaving (main s') = true ∧ (ch s' = ch s ∨ ch s' = drop 1 (ch s)).
Proof.
  intros Hl H. step_inv H; simpl_state.
  all: repeat match goal with
              | H : main _ = _ |- _ => rewrite H in *
              | H : ch _ = _ |- _ => rewrite H in *
              end.
  all: try done.
  all: auto.
Qed.

Lemma reaches_leaving (s s' : state C) :
  leaving (main s) = true → reaches s s' →
  leaving (main s') = true ∧ ∃ k, ch s' = drop k (ch s).
Proof.
  intros Hl Hreach.
  revert Hl. pattern s, s'. revert s s' Hreach. apply reaches_relation.
  - intros s Hl. split; [done|]. by exists 0%nat.
  - intros t s0 s s' IH Hstep Hl. destruct (IH Hl) as (Hl' & k & Hk).
    destruct (step_leaving _ _ _ Hl' Hstep) as (Hl'' & [Hch|Hch]).
    + split; [done|]. exists k. congruence.
    + split; [done|]. exists (k + 1)%nat. rewrite Hch, Hk, drop_drop. done.
Qed.

(** C3.  When the producer has read a non-empty chunk (with no error, or
    with [io.EOF]) and the next part number exceeds
    [min (cfg.MaxUploadParts, 10000)], [shouldContinue] answers no with a
    limit error that names the configured value if that one is exceeded
    and the S3 limit of 10000 otherwise; the producer runs the chunk's
    cleanup instead of queueing it, never sends on the channel again, and
    its next action stores that error in the register. *)
Theorem part_limit_stops_the_producer (s : state C) (reader : list byte) (n : Z)
    (fn : closure) (e : option error) (u' : uploader) :
  main s = PRead →
  nextReader (mu_uploader (mu s)) = ((reader, n, fn, e), u') →
  n ≠ 0 →
  e = None ∨ e = Some io_EOF →
  Z.min (cfgMaxUploadParts (cfg (mu_uploader (mu s)))) MaxUploadParts
    < int32 (st_num s + 1) →
  let limit := cfgMaxUploadParts (cfg (mu_uploader (mu s))) in
  let msg :=
    if decide (limit < int32 (st_num s + 1))
    then "exceeded total allowed configured MaxUploadParts (" +:+ pretty limit
           +:+ "). Adjust PartSize to fit in this limit"
    else "exceeded total allowed S3 limit MaxUploadParts (10000). Adjust PartSize to fit in this limit" in
  shouldContinue (mu s) (st_num s) n e = (false, Some (Errorf msg))
  ∧ ∃ s1, step Main s = Some s1
          ∧ main s1 = PSetErr (Errorf msg)
          ∧ ch s1 = ch s
          ∧ trace s1 = trace s ++ [CleanupCall fn]
          ∧ (∀ s2, reaches s1 s2 → ∃ k, ch s2 = drop k (ch s))
          ∧ (∀ s2, main s2 = PSetErr (Errorf msg) →
                   ∃ s3, step Main s2 = Some s3
                         ∧ err (mu s3) = Some (Errorf msg) ∧ main s3 = PClose).
Proof.
  intros Hmain Hread Hn He Hlim limit msg.
  assert (∀ x : multiuploader,
            cfgMaxUploadParts (cfg (mu_uploader x)) = limit →
            shouldContinue x (st_num s) n e = (false, Some (Errorf msg))) as Hsc.
  { intros x Hx. unfold shouldContinue. rewrite Hx.
    assert ((if is_EOF e then None else e) = None) as -> by (by destruct He as [->| ->]).
    destruct (Z.eqb_spec n 0); [done|].
    subst msg. fold limit in Hlim.
    destruct (Z.gtb_spec (int32 (st_num s + 1)) limit);
      destruct (Z.gtb_spec (int32 (st_num s + 1)) MaxUploadParts);
      cbn [orb]; case_decide; try lia; try done. }
  split; [by apply Hsc|].
  pose proof (nextReader_settings _ _ _ Hread) as ((_&_&_&_&_&_&_&_&Hmax&_) & _).
  cbn [step]. unfold step_main. rewrite Hmain, Hread. simpl_state.
  rewrite (Hsc (set_uploader u' (mu s))) by done. cbn [negb].
  eexists. split; [reflexivity|]. simpl_state. split_and!; try done.
  - intros s2 Hreach. eapply reaches_leaving in Hreach as (_ & k & Hk); [|done].
    by exists k.
  - intros s2 Hmain2. unfold step_main. rewrite Hmain2. by eexists.
Qed.

(** *** Every chunk is cleaned up *)

Lemma all_done_channel_empty (s : state C) :
  wf s → all_done (workers s) = true → ch s = [].
Proof.
  intros (Hlen & Hcap & Hclosed & Hdone & Hnum) Hall.
  destruct (workers s) as [|w ws] eqn:Hws.
  - cbn in Hcap. destruct (ch s); [done|cbn in Hcap; lia].
  - assert (w = WDone) as -> by (by eapply (all_done_lookup _ 0)).
    apply Hdone. by left.
Qed.

(** X11.  Once a multipart upload whose goroutines were started has returned,
    the cleanup closures that were run are, each exactly once, those of all
    the readers that [nextReader] handed out. *)
Lemma cleanup_runs_once_after_acquisition (u : multiuploader) (firstBuf : list byte)
    (fn : closure) (cl : C) (s0 s' : state C) (r : error + UploadOutput) :
  parts u = [] →
  cl_id fn = 0%nat →
  nreaders (mu_uploader u) = 1%nat →
  mu_upload S3 Unquote u firstBuf fn cl = Started s0 →
  reaches s0 s' →
  main s' = PReturned r →
  cl_id <$> cleaned (trace s') ≡ₚ seq 0 (nreaders (mu_uploader (mu s'))).
Proof.
  intros Hparts Hid Hn Hstart Hreach Hret.
  pose proof (mu_upload_inv _ _ _ _ _ Hparts Hstart) as Hinv0.
  pose proof (reaches_inv _ _ Hreach Hinv0) as (Hwf & _ & Hretinv & _).
  destruct (Hretinv _ Hret) as (Hall & _).
  apply mu_upload_started in Hstart as (Hfresh & Hu & _ & _ & Hacq).
  assert (cleanup_inv s0) as Hc0.
  { eapply fresh_cleanup_inv; [done| |done|by rewrite Hu].
    unfold acquired in Hacq. destruct (existingUploadID _).
    - destruct Hacq as (_ & _ & k & -> & _). apply replicate_no_calls.
    - destruct Hacq as (xs & resp & _ & _ & -> & _). done. }
  assert (cleanup_inv s') as Hc.
  { eapply (reaches_invariant cleanup_inv); [|done..].
    intros t s1 s2. apply step_cleanup_inv. }
  unfold cleanup_inv in Hc.
  rewrite Hret, (all_done_channel_empty s' Hwf Hall) in Hc. cbn [sending] in Hc.
  rewrite (tally_all_done closure_of held) in Hc by done.
  rewrite tally_nil in Hc. apply list_to_set_disj_inj. rewrite <- Hc. multiset_solver.
Qed.

(** *** Resumed parts *)

(** What a page of ListParts adds to [eTagByPartNumber]: when the scan of
    a page ends without a repeat, every part of the page is in the map
    under its number, with its ETag unquoted. *)
Lemma scanParts_entries (ps : list Part) (m m' : gmap Z string) :
  scanParts Unquote ps m = inr (m', false) →
  (∀ k v, m !! k = Some v → m' !! k = Some v)
  ∧ ∀ part, part ∈ ps →
      ∃ eTag, Unquote (part_ETag part) = inr eTag
              ∧ m' !! part_PartNumber part = Some eTag.
Proof.
  revert m. induction ps as [|p ps IH]; intros m H; cbn in H.
  - simplify_eq. split; [done|]. intros part Hin. by apply elem_of_nil in Hin.
  - destruct (m !! part_PartNumber p) eqn:Hp; [done|].
    destruct (Unquote (part_ETag p)) as [e|eTag] eqn:Hq; [done|].
    apply IH in H as (Hkeep & Hnew). split.
    + intros k v Hk. apply Hkeep. rewrite lookup_insert_ne; [done|]. congruence.
    + intros part [->|Hin]%elem_of_cons; [|by apply Hnew].
      exists eTag. split; [done|]. apply Hkeep. by rewrite lookup_insert_eq.
Qed.

(** C2.  In an upload whose goroutines are running, a worker that holds a
    chunk whose number has an entry in [eTagByPartNumber] compares the hex
    MD5 of the chunk's bytes with the stored ETag.  If they are equal its
    step appends (number, stored ETag) to the completed parts and makes no
    client call.  If they differ its step makes no client call either and
    its next action stores "checksum did not match for chunk N, multipart
    upload out of sync with local file" in the register.  No UploadPart
    request is ever made for a part that has an entry; hence none at all
    when every part produced has one. *)
Theorem resumed_parts_are_checked_not_sent (u : multiuploader) (firstBuf : list byte)
    (fn : closure) (cl : C) (s0 s : state C) :
  parts u = [] →
  mu_upload S3 Unquote u firstBuf fn cl = Started s0 →
  reaches s0 s →
  (∀ i c eTag,
     workers s !! i = Some (WGot c) →
     eTagByPartNumber (mu s) !! num c = Some eTag →
     ∃ s', step (Worker i) s = Some s'
           ∧ trace s' = trace s
           ∧ if decide (EncodeToString (md5_Sum (buf c)) = eTag)
             then parts (mu s') = parts (mu s) ++ [mkCompletedPart (Some eTag) (num c)]
                  ∧ err (mu s') = err (mu s)
                  ∧ workers s' = <[i:=WCleanup c]> (workers s)
             else let e := Errorf ("checksum did not match for chunk " +:+ pretty (num c)
                             +:+ ", multipart upload out of sync with local file") in
                  parts (mu s') = parts (mu s)
                  ∧ workers s' = <[i:=WSetErr e c]> (workers s)
                  ∧ ∃ s'', step (Worker i) s' = Some s''
                           ∧ trace s'' = trace s
                           ∧ err (mu s'') = Some e)
  ∧ (∀ p, p ∈ uploads (trace s) →
          eTagByPartNumber (mu s) !! up_PartNumber p = None)
  ∧ ((∀ k, 1 ≤ k ≤ st_num s → is_Some (eTagByPartNumber (mu s) !! k)) →
     uploads (trace s) = []).
Proof.
  intros Hparts Hstart Hreach.
  pose proof (mu_upload_inv _ _ _ _ _ Hparts Hstart) as Hinv0.
  pose proof (reaches_inv _ _ Hreach Hinv0) as (Hwf & _ & _ & _ & (_ & _ & Hup)).
  split_and!.
  - intros i c eTag Hw HeTag.
    cbn [step]. unfold step_worker at 1. rewrite Hw. cbn [mbind option_bind].
    rewrite HeTag. unfold check.
    destruct (String.eqb_spec (EncodeToString (md5_Sum (buf c))) eTag) as [Heq|Hne];
      cbn [negb]; (eexists; split; [reflexivity|]); simpl_state;
      (split; [done|]); case_decide; try done.
    split_and!; try done.
    unfold step_worker. simpl_state.
    rewrite list_lookup_insert_eq by (by eapply lookup_lt_Some).
    cbn [mbind option_bind]. eexists. split; [reflexivity|]. done.
  - intros p Hp. rewrite Forall_forall in Hup. by apply Hup.
  - intros Hall. destruct (uploads (trace s)) as [|p ps] eqn:Hups; [done|].
    apply Forall_cons in Hup as ((Hrange & Hnone) & _).
    destruct (Hall _ Hrange) as [? Hsome]. congruence.
Qed.

(** *** The call returns *)

Lemma step_closing_inv (t : thread) (s s' : state C) :
  closing_inv s → step t s = Some s' → closing_inv s'.
Proof.
  intros Hinv H. unfold closing_inv in *. step_inv H; simpl_state.
  all: repeat match goal with H : main _ = _ |- _ => rewrite H in * end.
  all: cbn [after_close] in *; try done.
Qed.

Lemma sum_list_append (l1 l2 : list nat) :
  sum_list (l1 ++ l2) = (sum_list l1 + sum_list l2)%nat.
Proof. induction l1 as [|x l1 IH]; cbn; [done|]. rewrite IH. lia. Qed.

Lemma sum_list_insert (f : worker → nat) (ws : list worker) (i : nat) (w w' : worker) :
  ws !! i = Some w →
  (sum_list (f <$> <[i:=w']> ws) + f w = sum_list (f <$> ws) + f w')%nat.
Proof.
  intros Hw.
  rewrite insert_take_drop by (by eapply lookup_lt_Some).
  rewrite <- (take_drop_middle ws i w Hw) at 3.
  rewrite !fmap_app, !fmap_cons, !sum_list_append. cbn. lia.
Qed.

(** Every action lowers the potential. *)
Lemma step_potential (t : thread) (s s' : state C) :
  wf s → step t s = Some s' → (potential s' < potential s)%nat.
Proof.
  intros (Hlen & Hcap & Hclosed & Hdone & Hnum) H. unfold potential.
  step_inv H; simpl_state.
  all: try match goal with
           | Hw : workers _ !! ?i = Some ?w |- context [<[?i:=?w']> (workers _)] =>
               pose proof (sum_list_insert worker_potential _ i w w' Hw) as Hex;
               cbn [worker_potential] in Hex
           end.
  all: try match goal with
           | H : shouldContinue _ _ _ _ = (?b, _), H' : negb ?b = false |- _ =>
               destruct b; [|done];
               apply shouldContinue_true in H as (?&?&?&?&?); simpl_state;
               rewrite next_part_number in * by lia
           end.
  all: repeat match goal with
              | H : main _ = _ |- _ => rewrite H in *
              | H : ch _ = _ |- _ => rewrite H in *
              end.
  all: rewrite ?length_app; cbn [length producer_potential].
  all: unfold MaxUploadParts in *; try lia.
Qed.

Lemma run_potential (sched : list thread) (s s' : state C) :
  wf s → run sched s = Some s' → (length sched + potential s' ≤ potential s)%nat.
Proof.
  revert s. induction sched as [|t sched IH]; intros s Hwf Hrun; cbn in Hrun.
  - simplify_eq. cbn. lia.
  - destruct (step t s) as [s1|] eqn:Hstep; [|done]. cbn in Hrun.
    pose proof (step_potential _ _ _ Hwf Hstep).
    pose proof (IH s1 (step_wf _ _ _ Hwf Hstep) Hrun). cbn. lia.
Qed.

(** A worker that has not returned can act unless it waits on an empty,
    open channel. *)
Lemma worker_can_step (i : nat) (s : state C) (w : worker) :
  workers s !! i = Some w → w ≠ WDone →
  (w = WRecv → ch s ≠ [] ∨ closed s = true) →
  is_Some (step_worker S3 md5_Sum i s).
Proof.
  intros Hw Hnd Hrecv. unfold step_worker. rewrite Hw. cbn [mbind option_bind].
  destruct w; try done.
  - destruct (ch s) eqn:Hch; [|done].
    destruct (Hrecv eq_refl) as [Hne | ->]; done.
  - unfold check. repeat case_match; done.
  - unfold send. repeat case_match; done.
Qed.

Lemma not_all_done (ws : list worker) :
  all_done ws = false → ∃ i w, ws !! i = Some w ∧ w ≠ WDone.
Proof.
  induction ws as [|w ws IH]; [done|]. cbn. intros H.
  destruct w; try (by eexists 0%nat, _).
  cbn in H. fold (all_done ws) in H. destruct (IH H) as (i & w & Hw & Hne).
  by exists (S i), w.
Qed.

(** No deadlock: while the call has not returned, some thread can act. *)
Lemma progress (s : state C) :
  wf s → closing_inv s →
  1 ≤ Concurrency (cfg (mu_uploader (mu s))) →
  (∀ r, main s ≠ PReturned r) →
  is_Some (step_main S3 s) ∨ ∃ i, is_Some (step_worker S3 md5_Sum i s).
Proof.
  intros (Hlen & Hcap & Hclosed & Hdone & Hnum) Hclosing Hconc Hnr.
  unfold step_main. destruct (main s) eqn:Hmain; try (left; repeat case_match; done).
  - destruct (Z.ltb_spec (Z.of_nat (length (ch s)))
                (Concurrency (cfg (mu_uploader (mu s))))); [by left|].
    right. exists 0%nat.
    destruct (workers s) as [|w ws] eqn:Hws; [cbn in Hlen; lia|].
    assert (ch s ≠ []) as Hch by (intros Heq; rewrite Heq in *; cbn in *; lia).
    eapply (worker_can_step 0 s w); [by rewrite Hws| |by left].
    intros ->. destruct Hdone as [_ ?]; [by left|done].
  - destruct (all_done (workers s)) eqn:Hall; [left; repeat case_match; done|].
    right. apply not_all_done in Hall as (i & w & Hw & Hne).
    exists i. eapply worker_can_step; [done..|].
    intros _. right. apply Hclosing. by rewrite Hmain.
  - by destruct (Hnr r).
Qed.

Lemma pick_step (s s' : state C) :
  pick S3 md5_Sum s = Some s' → ∃ t, step t s = Some s'.
Proof.
  unfold pick. destruct (list_find _ _) as [[? i]|]; intros H.
  - by exists (Worker i).
  - by exists Main.
Qed.

Lemma pick_none (s : state C) :
  wf s → closing_inv s →
  1 ≤ Concurrency (cfg (mu_uploader (mu s))) →
  pick S3 md5_Sum s = None → ∃ r, main s = PReturned r.
Proof.
  intros Hwf Hclosing Hconc Hpick.
  destruct (main s) as [| | | | | |r] eqn:Hmain; [..|by exists r].
  all: exfalso.
  all: destruct (progress s Hwf Hclosing Hconc) as [Hm|[i Hi]];
         [intros r; by rewrite Hmain| |].
  all: unfold pick in Hpick.
  all: destruct (list_find _ _) as [[? j]|] eqn:Hfind.
  all: try (apply list_find_Some in Hfind as (_ & Hj & _);
            rewrite Hpick in Hj; by destruct Hj).
  all: try (rewrite Hpick in Hm; by destruct Hm).
  all: apply list_find_None in Hfind; rewrite Forall_forall in Hfind;
       apply (Hfind i); [|done].
  all: apply elem_of_seq; split; [lia|]; cbn.
  all: unfold step_worker in Hi; destruct (workers s !! i) eqn:Hw;
       [by eapply lookup_lt_Some|by destruct Hi].
Qed.

(** Under the scheduling policy the call returns within [potential]
    actions, whatever the client and the stream do. *)
Lemma run_policy_returns (fuel : nat) (s : state C) :
  wf s → closing_inv s →
  1 ≤ Concurrency (cfg (mu_uploader (mu s))) →
  (potential s ≤ fuel)%nat →
  ∃ r, main (run_policy S3 md5_Sum fuel s) = PReturned r.
Proof.
  revert s. induction fuel as [|fuel IH]; intros s Hwf Hclosing Hconc Hfuel; cbn.
  - destruct (pick S3 md5_Sum s) as [s'|] eqn:Hpick; [|by apply pick_none].
    apply pick_step in Hpick as [t Hstep].
    pose proof (step_potential _ _ _ Hwf Hstep). lia.
  - destruct (pick S3 md5_Sum s) as [s'|] eqn:Hpick; [|by apply pick_none].
    apply pick_step in Hpick as [t Hstep].
    pose proof (step_potential _ _ _ Hwf Hstep).
    apply IH; [by eapply step_wf|by eapply step_closing_inv| |lia].
    apply step_stable in Hstep as (_&_&_&(_&_&_&_&_&_&->&_)&_). done.
Qed.

Lemma mu_upload_concurrency (u : multiuploader) (firstBuf : list byte) (fn : closure)
    (cl : C) (s0 : state C) :
  mu_upload S3 Unquote u firstBuf fn cl = Started s0 →
  0 ≤ Concurrency (cfg (mu_uploader u)).
Proof.
  unfold mu_upload, spawn. intros H.
  repeat case_match; simplify_eq; cbn in *; lia.
Qed.

(** A multipart upload whose goroutines were started returns: no schedule
    is longer than the potential of the first state, and the scheduling
    policy ends in a returned call. *)
Lemma multipart_upload_returns (u : multiuploader) (firstBuf : list byte)
    (fn : closure) (cl : C) (s0 : state C) :
  parts u = [] →
  Concurrency (cfg (mu_uploader u)) ≠ 0 →
  mu_upload S3 Unquote u firstBuf fn cl = Started s0 →
  (∀ sched s', run sched s0 = Some s' → (length sched ≤ potential s0)%nat)
  ∧ ∃ r, main (run_policy S3 md5_Sum (potential s0) s0) = PReturned r.
Proof.
  intros Hparts Hconc Hstart.
  pose proof (mu_upload_concurrency _ _ _ _ _ Hstart) as Hge.
  pose proof (mu_upload_inv _ _ _ _ _ Hparts Hstart) as (Hwf & _).
  apply mu_upload_started in Hstart as (Hfresh & Hu & _).
  split.
  - intros sched s' Hrun. pose proof (run_potential _ _ _ Hwf Hrun). lia.
  - apply run_policy_returns; [done| |rewrite Hu; lia|done].
    destruct Hfresh as (_&_&_&Hclosed&_&Hmain&_).
    unfold closing_inv. by rewrite Hmain.
Qed.

End coordinator.

(** ** From the facade to the coordinator *)

Section handover.

Context {C : Type} (S3 : UploadAPIClient C).
Context (md5_Sum : list byte → list byte).
Context (Unquote : string → error + string).

Lemma upload_prelude (u : uploader) (m : multiuploader) (reader : list byte)
    (fn : closure) (cl : C) :
  prelude u = Some (m, reader, fn) →
  upload S3 Unquote u cl = mu_upload S3 Unquote m reader fn cl
  ∧ parts m = [] ∧ err m = None
  ∧ existingUploadID (mu_uploader m) = existingUploadID u
  ∧ (nreaders u = 0%nat → cl_id fn = 0%nat ∧ nreaders (mu_uploader m) = 1%nat).
Proof.
  unfold prelude, upload. intros H.
  destruct (init u) as [e|u0] eqn:Hinit; [done|].
  destruct (PartSize (cfg u0) <? MinUploadPartSize); [done|].
  destruct (nextReader u0) as [[[[reader' n] fn'] [e|]] u1] eqn:Hread; [done|].
  simplify_eq. cbn. split_and!; try done.
  - apply nextReader_settings in Hread as ((_&_&_&_&->&_) & _).
    unfold init in Hinit. by apply initSize_in in Hinit as (_&_&->).
  - intros Hn. apply nextReader_settings in Hread as (_ & -> & Hid). cbn in Hid.
    assert (nreaders u0 = 0%nat) as Hn0.
    { unfold init, initSize in Hinit. cbn in Hinit.
      repeat case_match; simplify_eq; done. }
    rewrite Hid, Hn0. done.
Qed.

(** Whatever the scheduling policy reaches is reachable. *)
Lemma reaches_run_policy (fuel : nat) (s : state C) :
  reaches S3 md5_Sum s (run_policy S3 md5_Sum fuel s).
Proof.
  revert s. induction fuel as [|fuel IH]; intros s; cbn; [apply reaches_refl|].
  destruct (pick S3 md5_Sum s) as [s'|] eqn:Hpick; [|apply reaches_refl].
  unfold pick in Hpick.
  destruct (list_find _ _) as [[? i]|].
  - eapply (reaches_step _ _ (Worker i)); [exact Hpick|apply IH].
  - eapply (reaches_step _ _ Main); [exact Hpick|apply IH].
Qed.

End handover.


(** ** The claims at concrete inputs *)

Import Demo.

(** A fresh three-part upload that succeeds submits the manifest 1, 2, 3. *)
Lemma manifest_lists_parts_1_to_N_witness :
  let m := coordinator options three_parts None in
  let s' := finished healthy (begun healthy options three_parts None) in
  ∃ out tr manifest N,
    main s' = PReturned (inr out)
    ∧ trace s' = tr ++ [CompleteMultipartUploadCall (Bucket (in_ (mu_uploader m)))
                          (Key (in_ (mu_uploader m))) (UploadID out) manifest]
    ∧ complete_calls tr = []
    ∧ 1 ≤ N
    ∧ PartNumber <$> manifest = seqZ 1 N
    ∧ StronglySorted Less manifest.
Proof.
  intros m s'.
  pose (out := mkUploadOutput "https://bucket.s3.amazonaws.com/key" (Some "v1") "upload-1").
  assert (main s' = PReturned (inr out)) as Hret by (vm_compute; reflexivity).
  destruct (manifest_lists_parts_1_to_N healthy digest unquote m
              (first_chunk options three_parts None)
              (first_cleanup options three_parts None)
              tt (begun healthy options three_parts None) s' out)
    as (tr & manifest & N & H);
    [reflexivity|vm_compute; reflexivity|apply reaches_run_policy|exact Hret|].
  exists out, tr, manifest, N. split; [exact Hret|exact H].
Defined.

(** Resuming with parts 1 and 2 stored: the worker that holds part 1 finds
    its checksum equal to the stored ETag and completes it without a call. *)
Lemma resumed_parts_are_checked_not_sent_witness :
  let s0 := begun resumable options three_parts (Some "upload-1") in
  let s := after resumable [Main; Worker 0] s0 in
  let c := mkchunk [x01; x02; x03] 1 (mkClosure 0 NoOp) in
  workers s !! 0%nat = Some (WGot c)
  ∧ eTagByPartNumber (mu s) !! num c = Some "5289df737df57326fcdd22597afb1fac"
  ∧ ∃ s', step resumable digest (Worker 0) s = Some s'
          ∧ trace s' = trace s
          ∧ parts (mu s') = parts (mu s) ++ [mkCompletedPart (Some "5289df737df57326fcdd22597afb1fac") (num c)]
          ∧ uploads (trace s) = [].
Proof.
  intros s0 s c.
  assert (workers s !! 0%nat = Some (WGot c)) as Hw by (vm_compute; reflexivity).
  assert (eTagByPartNumber (mu s) !! num c = Some "5289df737df57326fcdd22597afb1fac") as HeTag
    by (vm_compute; reflexivity).
  destruct (resumed_parts_are_checked_not_sent resumable digest unquote
              (coordinator options three_parts (Some "upload-1"))
              (first_chunk options three_parts (Some "upload-1"))
              (first_cleanup options three_parts (Some "upload-1")) tt s0 s)
    as (Hcheck & _ & _);
    [reflexivity|vm_compute; reflexivity
    |exists [Main; Worker 0%nat]; vm_compute; reflexivity|].
  destruct (Hcheck 0%nat c "5289df737df57326fcdd22597afb1fac" Hw HeTag)
    as (s' & Hstep & Htr & Hif).
  case_decide as Hsum; [|by destruct Hsum].
  destruct Hif as (Hparts & _ & _).
  split; [exact Hw|]. split; [exact HeTag|].
  exists s'. split; [exact Hstep|]. split; [exact Htr|]. split; [exact Hparts|].
  vm_compute; reflexivity.
Defined.

(** With a limit of two parts and a body that never ends, the third read
    stops the producer with the error that names the configured limit. *)
Lemma part_limit_stops_the_producer_witness :
  let s0 := begun healthy two_parts_at_most endless None in
  let s := after healthy [Main; Main; Main; Main; Main] s0 in
  main s = PRead
  ∧ st_num s = 2
  ∧ ∃ s1, step healthy digest Main s = Some s1
          ∧ main s1 = PSetErr (Errorf "exceeded total allowed configured MaxUploadParts (2). Adjust PartSize to fit in this limit")
          ∧ ch s1 = ch s.
Proof.
  intros s0 s.
  assert (main s = PRead) as Hmain by (vm_compute; reflexivity).
  destruct (part_limit_stops_the_producer healthy digest s [] MinUploadPartSize
              (mkClosure 2 NoOp) None
              (nextReader (mu_uploader (mu s))).2 Hmain)
    as (_ & s1 & Hstep & Hmain1 & Hch & _);
    [vm_compute; reflexivity|vm_compute; discriminate|left; reflexivity
    |vm_compute; reflexivity|].
  split; [exact Hmain|]. split; [vm_compute; reflexivity|].
  exists s1. split; [exact Hstep|]. split; [exact Hmain1|exact Hch].
Defined.

(** C4, counterexample.  Two workers find the register empty and both of
    their UploadPart requests fail: the error worker 0 records first is
    replaced by the one worker 1 records next, and the caller is given
    the second. *)
Lemma a_later_error_replaces_the_first :
  let s0 := begun broken_parts options three_parts None in
  let s1 := after broken_parts both_fail s0 in
  let s2 := after broken_parts wind_up s1 in
  Upload broken_parts unquote options three_parts [] tt = Started s0
  ∧ run broken_parts digest both_fail s0 = Some s1
  ∧ run broken_parts digest wind_up s1 = Some s2
  ∧ err (mu s0) = None
  ∧ err (mu s1) = Some (External "part 1 failed")
  ∧ err (mu s2) = Some (External "part 2 failed")
  ∧ main s2 = PReturned (inl (multiUploadError (Some (External "part 2 failed"))
                                "upload-1"))
  ∧ ¬ write_once broken_parts digest s0.
Proof.
  intros s0 s1 s2.
  assert (run broken_parts digest both_fail s0 = Some s1) as H1
    by (vm_compute; reflexivity).
  assert (run broken_parts digest wind_up s1 = Some s2) as H2
    by (vm_compute; reflexivity).
  assert (err (mu s1) = Some (External "part 1 failed")) as He1
    by (vm_compute; reflexivity).
  assert (err (mu s2) = Some (External "part 2 failed")) as He2
    by (vm_compute; reflexivity).
  split; [vm_compute; reflexivity|].
  split; [exact H1|]. split; [exact H2|].
  split; [vm_compute; reflexivity|].
  split; [exact He1|]. split; [exact He2|].
  split; [vm_compute; reflexivity|].
  intros Honce.
  assert (err (mu s2) = Some (External "part 1 failed")) as He2'.
  { apply (Honce s1 s2); [by exists both_fail|exact He1|by exists wind_up]. }
  rewrite He2 in He2'. discriminate He2'.
Qed.

(** The last step of worker 1 in that run leaves its error in a register
    that held another one. *)
Lemma error_register_holds_the_last_error_witness :
  let s0 := begun broken_parts options three_parts None in
  let s := after broken_parts both_fail s0 in
  let s' := after broken_parts [Worker 1] s in
  err (mu s) = Some (External "part 1 failed")
  ∧ err (mu s') = Some (External "part 2 failed").
Proof.
  intros s0 s s'.
  destruct (error_register_holds_the_last_error broken_parts digest unquote
              (coordinator options three_parts None)
              (first_chunk options three_parts None)
              (first_cleanup options three_parts None) tt s0 s s' (Worker 1))
    as (_ & _ & _ & Hworker & _);
    [vm_compute; reflexivity|exists both_fail; vm_compute; reflexivity
    |vm_compute; reflexivity|].
  split; [vm_compute; reflexivity|].
  apply (Hworker 1%nat (External "part 2 failed")
           (mkchunk [] 2 (mkClosure 1 NoOp)) eq_refl).
  vm_compute; reflexivity.
Defined.

(** C5, counterexample.  A fresh upload of more than one part whose
    CreateMultipartUpload request fails returns the client's error, which
    has no [UploadID()]. *)
Lemma create_failure_is_not_a_MultiUploadFailure :
  Upload no_session unquote options three_parts [] tt
  = Returned [CreateMultipartUploadCall "bucket" "key";
              CleanupCall (mkClosure 0 NoOp)] tt (inl (External "AccessDenied"))
  ∧ ¬ MultiUploadFailure (External "AccessDenied").
Proof. split; [vm_compute; reflexivity|]. intros [id Hid]. discriminate Hid. Qed.

(** A three-part upload whose parts all fail returns a
    [multiUploadError] with the session ID. *)
Lemma failure_after_acquisition_carries_UploadID_witness :
  let s0 := begun broken_parts options three_parts None in
  let s' := finished broken_parts s0 in
  ∃ e, main s' = PReturned (inl e)
       ∧ UploadID_of e = Some "upload-1"
       ∧ MultiUploadFailure e.
Proof.
  intros s0 s'.
  pose (e := multiUploadError (Some (External "part 1 failed")) "upload-1").
  assert (main s' = PReturned (inl e)) as Hret by (vm_compute; reflexivity).
  destruct (failure_after_acquisition_carries_UploadID broken_parts digest unquote
              (coordinator options three_parts None)
              (first_chunk options three_parts None)
              (first_cleanup options three_parts None) tt s0 s' e)
    as (cause & _ & _ & Hid & Hfail);
    [vm_compute; reflexivity|apply reaches_run_policy|exact Hret|].
  exists e. split; [exact Hret|]. split; [exact Hid|exact Hfail].
Defined.

(** C6, at the failing input.  [ResumeUpload] on a body of more than one
    part, when the first ListParts page fails: the first chunk's cleanup
    closure was created and the call returns without running it. *)
Lemma resume_listing_failure_skips_cleanup :
  prelude (mkuploader buffered three_parts (Some "upload-1") 0 0 0)
  = Some (coordinator buffered three_parts (Some "upload-1"),
          [x01; x02; x03], mkClosure 0 FromProvider)
  ∧ ResumeUpload no_listing unquote buffered three_parts (Some "upload-1") [] tt
    = Returned [ListPartsCall "bucket" "key" "upload-1"] tt
        (inl (External "ListParts failed"))
  ∧ cleaned [ListPartsCall "bucket" "key" "upload-1"] = [].
Proof. vm_compute. repeat split. Qed.

(** A part size of 1 KiB is rejected. *)
Lemma part_size_below_minimum_is_rejected_witness :
  Upload healthy unquote small_parts empty_stream [] tt
  = Returned [] tt (inl (Errorf "part size must be at least 5242880 bytes"))
  ∧ ResumeUpload healthy unquote small_parts empty_stream (Some "upload-1") [] tt
    = Returned [] tt (inl (Errorf "part size must be at least 5242880 bytes")).
Proof.
  eapply (part_size_below_minimum_is_rejected healthy unquote small_parts empty_stream
            (Some "upload-1") [] tt).
  - vm_compute. reflexivity.
  - vm_compute. reflexivity.
Defined.

(** 50 GiB at the default part size and part limit: the part size becomes
    5368710 bytes and 10000 parts suffice. *)
Lemma initSize_part_count_within_MaxUploadParts_witness :
  ∃ u', initSize fifty_GiB = inr u'
        ∧ totalSize u' = 53687091200
        ∧ cfgMaxUploadParts (cfg u') = 10000
        ∧ PartSize (cfg u') = 5368710
        ∧ ceil_div 53687091200 (PartSize (cfg u')) ≤ 10000.
Proof.
  apply (initSize_part_count_within_MaxUploadParts fifty_GiB 53687091200).
  - reflexivity.
  - vm_compute. split; [discriminate|reflexivity].
  - vm_compute. discriminate.
  - vm_compute. discriminate.
Defined.

(** A zero-byte stream is sent with one PutObject request. *)
Lemma first_read_at_EOF_is_a_single_PutObject_witness :
  Upload healthy unquote options empty_stream [] tt
  = Returned [PutObjectCall "bucket" "key" []; CleanupCall (mkClosure 0 PoolPut)] tt
      (inr (mkUploadOutput "https://bucket.s3.amazonaws.com/key" None "")).
Proof.
  apply (first_read_at_EOF_is_a_single_PutObject healthy unquote
           (mkuploader options empty_stream None 0 0 0)
           (mkuploader (mkUploader 5242880 2 false 10000 false []) empty_stream None 0 (-1) 0)
           (mkuploader (mkUploader 5242880 2 false 10000 false []) empty_stream None 0 (-1) 1)
           tt tt [] 0 (mkClosure 0 PoolPut) [round_trip] (inr {| put_VersionId := None |})).
  - vm_compute. reflexivity.
  - vm_compute. discriminate.
  - vm_compute. reflexivity.
  - reflexivity.
Defined.

(** The location of a fresh upload is the URL of its CreateMultipartUpload
    request without the query. *)
Lemma Location_is_recorded_at_acquisition_witness :
  let s0 := begun healthy options three_parts None in
  let s' := finished healthy s0 in
  ∃ out, main s' = PReturned (inr out)
         ∧ Location out = location_of (observed [round_trip])
         ∧ Location out = "https://bucket.s3.amazonaws.com/key".
Proof.
  intros s0 s'.
  pose (out := mkUploadOutput "https://bucket.s3.amazonaws.com/key" (Some "v1") "upload-1").
  assert (main s' = PReturned (inr out)) as Hret by (vm_compute; reflexivity).
  pose proof (Location_is_recorded_at_acquisition healthy digest unquote
                (coordinator options three_parts None)
                (first_chunk options three_parts None)
                (first_cleanup options three_parts None) tt s0 s' out) as Hloc.
  exists out. split; [exact Hret|]. split; [|reflexivity].
  apply Hloc; [vm_compute; reflexivity|apply reaches_run_policy|exact Hret].
Defined.

(** * Further properties *)

(** ** Readers *)

Lemma takeZ_dropZ {A} (n : Z) (l : list A) : takeZ n l ++ dropZ n l = l.
Proof.
  revert n. induction l as [|x l IH]; intros n; cbn; [done|].
  destruct (0 <? n); cbn; [by rewrite IH|done].
Qed.

Lemma takeZ_length {A} (n : Z) (l : list A) :
  0 ≤ n ≤ Z.of_nat (length l) → Z.of_nat (length (takeZ n l)) = n.
Proof.
  revert n. induction l as [|x l IH]; intros n Hn; cbn in *; [lia|].
  destruct (Z.ltb_spec 0 n); cbn; [|lia].
  rewrite Nat2Z.inj_succ, IH; lia.
Qed.

Lemma dropZ_length {A} (n : Z) (l : list A) :
  0 ≤ n ≤ Z.of_nat (length l) → Z.of_nat (length (dropZ n l)) = Z.of_nat (length l) - n.
Proof.
  revert n. induction l as [|x l IH]; intros n Hn; cbn in *; [lia|].
  destruct (Z.ltb_spec 0 n); cbn; [|lia].
  rewrite IH; lia.
Qed.

Lemma dropZ_dropZ {A} (m n : Z) (l : list A) :
  0 ≤ m → 0 ≤ n → dropZ n (dropZ m l) = dropZ (m + n) l.
Proof.
  revert m. induction l as [|x l IH]; intros m Hm Hn; cbn; [done|].
  destruct (Z.ltb_spec 0 m).
  - destruct (Z.ltb_spec 0 (m + n)); [|lia].
    rewrite IH by lia. f_equal. lia.
  - assert (m = 0) as -> by lia. cbn. done.
Qed.

Lemma dropZ_all {A} (n : Z) (l : list A) : Z.of_nat (length l) ≤ n → dropZ n l = [].
Proof.
  revert n. induction l as [|x l IH]; intros n Hn; cbn in *; [done|].
  destruct (Z.ltb_spec 0 n); [|lia]. apply IH. lia.
Qed.

(** X: readFillBuf never returns more than the buffer holds, and when it
    reports no error the buffer is full. *)
Lemma readFillBuf_length (r r' : list segment) (space : Z) (part : list byte)
    (e : option error) :
  readFillBuf r space = (part, e, r') →
  0 ≤ space →
  Z.of_nat (length part) ≤ space ∧ (e = None → Z.of_nat (length part) = space).
Proof.
  revert space part e r'. induction r as [|[bs eb] r IH]; intros space part e r' H Hs.
  - cbn in H. destruct (Z.leb_spec space 0); simplify_eq; cbn; split; (lia || done).
  - cbn in H. destruct (Z.leb_spec space 0); [simplify_eq; cbn; split; lia|].
    destruct (Z.leb_spec (Z.of_nat (length bs)) space).
    + destruct eb as [err|].
      * simplify_eq. split; [done|done].
      * destruct (readFillBuf r (space - Z.of_nat (length bs))) as [[more e'] r''] eqn:Hrec.
        simplify_eq. apply IH in Hrec as [Hle Hfull]; [|lia].
        rewrite length_app, Nat2Z.inj_add. split; [lia|]. intros ->. specialize (Hfull eq_refl). lia.
    + simplify_eq. rewrite takeZ_length by lia. done.
Qed.

Lemma readFillBuf_conserves (r r' : list segment) (space : Z) (part : list byte)
    (e : option error) :
  readFillBuf r space = (part, e, r') →
  stream_bytes r = part ++ stream_bytes r'.
Proof.
  unfold stream_bytes.
  revert space part e r'. induction r as [|[bs eb] r IH]; intros space part e r' H.
  - cbn in H. destruct (space <=? 0); by simplify_eq.
  - cbn in H. destruct (space <=? 0); [by simplify_eq|].
    destruct (Z.of_nat (length bs) <=? space).
    + destruct eb as [err|].
      * by simplify_eq.
      * destruct (readFillBuf r (space - Z.of_nat (length bs))) as [[more e'] r''] eqn:Hrec.
        simplify_eq. apply IH in Hrec. cbn. rewrite Hrec. by rewrite app_assoc.
    + simplify_eq. cbn. by rewrite app_assoc, takeZ_dropZ.
Qed.

Lemma readFillBuf_clean (r r' : list segment) (space : Z) (part : list byte)
    (e : option error) :
  clean r →
  readFillBuf r space = (part, e, r') →
  clean r' ∧ (∀ err, e = Some err → err = io_EOF ∧ r' = []).
Proof.
  unfold clean.
  revert space part e r'. induction r as [|[bs eb] r IH]; intros space part e r' Hc H.
  - cbn in H. destruct (space <=? 0); simplify_eq; split; try done.
    intros err [= <-]. done.
  - apply Forall_cons in Hc as [Hb Hc]. cbn in Hb. subst eb.
    cbn in H. destruct (space <=? 0); [simplify_eq; split; [by constructor|done]|].
    destruct (Z.of_nat (length bs) <=? space).
    + destruct (readFillBuf r (space - Z.of_nat (length bs))) as [[more e'] r''] eqn:Hrec.
      simplify_eq. by eapply IH.
    + simplify_eq. split; [by constructor|done].
Qed.

(** X17.  [readFillBuf] fills the buffer without loss: it returns no more
    bytes than the buffer holds, exactly that many when it reports no
    error, and the bytes it returns followed by those it leaves in the
    stream are the bytes the stream held. *)
Theorem readFillBuf_fills_without_loss (r r' : list segment) (space : Z)
    (part : list byte) (e : option error) :
  readFillBuf r space = (part, e, r') →
  0 ≤ space →
  Z.of_nat (length part) ≤ space
  ∧ (e = None → Z.of_nat (length part) = space)
  ∧ stream_bytes r = part ++ stream_bytes r'.
Proof.
  intros Hread Hspace.
  destruct (readFillBuf_length _ _ _ _ _ Hread Hspace) as [Hle Hfull].
  split_and!; [exact Hle|exact Hfull|by eapply readFillBuf_conserves].
Qed.

(** A reader handed out for a sequential body holds at most [PartSize]
    bytes, as many as it reports; it is full unless it comes with an error
    or [io.EOF]; and it holds the next bytes of the stream, none lost and
    none repeated. *)
Lemma nextReader_default_reader (u u' : uploader) (r : list segment)
    (part : list byte) (n : Z) (fn : closure) (e : option error) :
  sequential u = Some r →
  0 ≤ PartSize (cfg u) →
  nextReader u = ((part, n, fn, e), u') →
  n = Z.of_nat (length part)
  ∧ n ≤ PartSize (cfg u)
  ∧ (e = None → n = PartSize (cfg u))
  ∧ unread u = part ++ unread u'
  ∧ ∃ r', sequential u' = Some r'.
Proof.
  unfold sequential, unread, nextReader. intros Hseq Hp H.
  destruct (Body (in_ u)) as [|len r0|r0] eqn:Hbody; [done|..]; simplify_eq.
  all: unfold nextReader_default in H.
  all: destruct (readFillBuf r (PartSize (cfg u))) as [[part' e'] r'] eqn:Hread.
  all: pose proof (readFillBuf_length _ _ _ _ _ Hread Hp) as [Hle Hfull].
  all: pose proof (readFillBuf_conserves _ _ _ _ _ Hread) as Hcons.
  all: destruct (partPool (cfg u)) as [|[err|] pool]; simplify_eq; cbn.
  all: rewrite ?Hbody; cbn.
  all: split_and!; try done; try lia; eauto.
Qed.

(** A reader handed out for a random-access body whose length is
    known is the section of the body at the reader position: [PartSize]
    bytes, or what is left together with [io.EOF]. *)
Lemma nextReader_random_access (u u' : uploader) (len : error + Z)
    (data part : list byte) (n : Z) (fn : closure) (e : option error) :
  Body (in_ u) = ReaderAtSeeker len data →
  totalSize u = Z.of_nat (length data) →
  0 ≤ readerPos u ≤ totalSize u →
  0 < PartSize (cfg u) →
  totalSize u < max_int64 →
  nextReader u = ((part, n, fn, e), u') →
  n = Z.of_nat (length part)
  ∧ n = Z.min (PartSize (cfg u)) (totalSize u - readerPos u)
  ∧ e = (if decide (totalSize u - readerPos u ≤ PartSize (cfg u))
         then Some io_EOF else None)
  ∧ readerPos u' = readerPos u + n
  ∧ unread u = part ++ unread u'.
Proof.
  unfold unread, nextReader, max_int64. intros Hbody Hlen Hpos Hp Hmax H.
  rewrite Hbody in *.
  destruct (Z.leb_spec 0 (totalSize u)); [|lia].
  rewrite int64_small in H by lia.
  assert (Z.of_nat (length (dropZ (readerPos u) data)) = totalSize u - readerPos u) as Hrest.
  { rewrite dropZ_length by lia. lia. }
  destruct (Z.leb_spec (totalSize u - readerPos u) (PartSize (cfg u))) as [Hle|Hgt];
    simplify_eq; cbn; rewrite Hbody; unfold NewSectionReader.
  all: case_decide; try lia.
  all: rewrite int64_small by lia.
  all: rewrite <- dropZ_dropZ by lia.
  all: rewrite takeZ_dropZ.
  all: rewrite takeZ_length by lia.
  all: split_and!; try done; lia.
Qed.

Lemma nextReader_sequential (u u' : uploader) (r : list segment) x :
  sequential u = Some r →
  nextReader u = (x, u') →
  PartSize (cfg u') = PartSize (cfg u)
  ∧ (clean r → ∀ r', sequential u' = Some r' → clean r')
  ∧ (Forall (λ g, g = None) (partPool (cfg u)) →
     Forall (λ g, g = None) (partPool (cfg u'))
     ∧ ∀ err, x.2 = Some err → clean r → err = io_EOF ∧ unread u' = []).
Proof.
  unfold sequential, unread, nextReader. intros Hseq H.
  destruct (Body (in_ u)) as [|len r0|r0] eqn:Hbody; [done|..]; simplify_eq.
  all: unfold nextReader_default in H.
  all: destruct (readFillBuf r (PartSize (cfg u))) as [[part' e'] r'] eqn:Hread.
  all: destruct (partPool (cfg u)) as [|[err|] pool] eqn:Hpool; simplify_eq; cbn.
  all: rewrite ?Hbody; cbn.
  all: split_and!; try done.
  all: try (intros Hc r'' [= <-]; try done; by eapply readFillBuf_clean).
  all: try (intros Hall; by apply Forall_cons in Hall as [? ?]).
  all: intros Hall; split; [try done; by apply Forall_cons in Hall as [? ?]|].
  all: intros err -> Hc.
  all: destruct (readFillBuf_clean _ _ _ _ _ Hc Hread) as [_ Hlast].
  all: by destruct (Hlast err eq_refl) as [-> ->].
Qed.

(** X16.  The readers handed out for a sequential body hold, in order, the
    first bytes of the stream, whatever the stream and the pool do. *)
Theorem sequential_readers_are_a_prefix (fuel : nat) (u : uploader) (r : list segment) :
  sequential u = Some r →
  0 ≤ PartSize (cfg u) →
  readers_bytes (read_all fuel u) `prefix_of` stream_bytes r.
Proof.
  revert u r. induction fuel as [|fuel IH]; intros u r Hseq Hp.
  { by exists (stream_bytes r). }
  cbn [read_all].
  destruct (nextReader u) as [[[[part n] fn] e] u'] eqn:Hread.
  pose proof (nextReader_sequential _ _ _ _ Hseq Hread) as (Hp' & _).
  apply (nextReader_default_reader _ _ r) in Hread
    as (_ & _ & _ & Hcons & r' & Hseq'); try done.
  assert (stream_bytes r = unread u) as ->.
  { unfold unread, sequential in *. by repeat case_match; simplify_eq. }
  assert (stream_bytes r' = unread u') as Hr'.
  { unfold unread, sequential in *. by repeat case_match; simplify_eq. }
  rewrite Hcons. cbn [snd]. destruct e as [err|].
  - unfold readers_bytes. cbn. rewrite app_nil_r. by apply prefix_app_r.
  - unfold readers_bytes in *. cbn. apply prefix_app. rewrite <- Hr'.
    apply IH; [done|lia].
Qed.

(** What one read of a body that behaves returns, and what it leaves. *)
Lemma well_behaved_next (u u' : uploader) (part : list byte) (n : Z)
    (fn : closure) (e : option error) :
  well_behaved u →
  nextReader u = ((part, n, fn, e), u') →
  well_behaved u'
  ∧ PartSize (cfg u') = PartSize (cfg u)
  ∧ unread u = part ++ unread u'
  ∧ (e = None → Z.of_nat (length part) = PartSize (cfg u))
  ∧ (is_Some e → e = Some io_EOF ∧ unread u' = [])
  ∧ (n = 0 → unread u = []).
Proof.
  intros [Hp Hbody] Hread. pose proof Hread as Hread0.
  pose proof (nextReader_settings _ _ _ Hread) as ((_&_&_&_&_&Hp'&_) & _).
  destruct (Body (in_ u)) as [len data|len r|r] eqn:Hb.
  - destruct Hbody as (Hlen & Hpos & Hmax).
    apply (nextReader_random_access _ _ len data) in Hread
      as (Hn & Hmin & He & Hpos' & Hcons); try done.
    assert (Body (in_ u') = Body (in_ u) ∧ totalSize u' = totalSize u) as (Hb' & Ht').
    { unfold nextReader in Hread0. rewrite Hb in Hread0.
      repeat case_match; simplify_eq; done. }
    split_and!; try done.
    + unfold well_behaved. rewrite Hb', Hb, Ht', Hp', Hpos'. split_and!; try done; lia.
    + intros ->. case_decide; [done|]. lia.
    + intros Hsome. case_decide; [|subst e; by destruct Hsome].
      split; [done|]. unfold unread. rewrite Hb', Hb. apply dropZ_all. lia.
    + intros ->. unfold unread. rewrite Hb. apply dropZ_all. lia.
  - destruct Hbody as (Hc & Hpool).
    assert (sequential u = Some r) as Hseq by (unfold sequential; by rewrite Hb).
    pose proof (nextReader_sequential _ _ _ _ Hseq Hread) as (_ & Hc' & Hpool').
    destruct (Hpool' Hpool) as [Hpool'' Hlast].
    apply (nextReader_default_reader _ _ r) in Hread
      as (Hn & _ & Hfull & Hcons & r' & Hseq'); [|done|lia].
    assert (∀ err, e = Some err → e = Some io_EOF ∧ unread u' = []) as Hlast'.
    { intros err ->. by destruct (Hlast err eq_refl Hc) as [-> ?]. }
    split_and!; try done.
    + unfold well_behaved, sequential in *. rewrite Hp'.
      split; [done|]. destruct (Body (in_ u')); simplify_eq; split; auto.
    + intros ->. rewrite <- Hn. by apply Hfull.
    + intros [err ->]. by eapply Hlast'.
    + intros ->. destruct e as [err|]; [|specialize (Hfull eq_refl); lia].
      destruct (Hlast' err eq_refl) as [_ Hnil].
      rewrite Hcons, Hnil. destruct part; [done|cbn in Hn; lia].
  - destruct Hbody as (Hc & Hpool).
    assert (sequential u = Some r) as Hseq by (unfold sequential; by rewrite Hb).
    pose proof (nextReader_sequential _ _ _ _ Hseq Hread) as (_ & Hc' & Hpool').
    destruct (Hpool' Hpool) as [Hpool'' Hlast].
    apply (nextReader_default_reader _ _ r) in Hread
      as (Hn & _ & Hfull & Hcons & r' & Hseq'); [|done|lia].
    assert (∀ err, e = Some err → e = Some io_EOF ∧ unread u' = []) as Hlast'.
    { intros err ->. by destruct (Hlast err eq_refl Hc) as [-> ?]. }
    split_and!; try done.
    + unfold well_behaved, sequential in *. rewrite Hp'.
      split; [done|]. destruct (Body (in_ u')); simplify_eq; split; auto.
    + intros ->. rewrite <- Hn. by apply Hfull.
    + intros [err ->]. by eapply Hlast'.
    + intros ->. destruct e as [err|]; [|specialize (Hfull eq_refl); lia].
      destruct (Hlast' err eq_refl) as [_ Hnil].
      rewrite Hcons, Hnil. destruct part; [done|cbn in Hn; lia].
Qed.

(** X15.  The readers handed out for a body that behaves hold the whole
    body: in order, without a gap or an overlap, every reader but the last
    with exactly [PartSize] bytes, and the last one together with
    [io.EOF]. *)
Theorem readers_hold_the_whole_body (fuel : nat) (u : uploader) :
  well_behaved u →
  Z.of_nat (length (unread u)) < Z.of_nat fuel * PartSize (cfg u) →
  readers_bytes (read_all fuel u) = unread u
  ∧ ∃ xs x, read_all fuel u = xs ++ [x]
            ∧ x.2 = Some io_EOF
            ∧ Forall (λ y, Z.of_nat (length y.1.1.1) = PartSize (cfg u) ∧ y.2 = None) xs.
Proof.
  revert u. induction fuel as [|fuel IH]; intros u Hwb Hfuel.
  { destruct Hwb as [Hp _]. lia. }
  cbn [read_all].
  destruct (nextReader u) as [[[[part n] fn] e] u'] eqn:Hread.
  destruct (well_behaved_next _ _ _ _ _ _ Hwb Hread)
    as (Hwb' & Hp' & Hcons & Hfull & Hlast & _).
  cbn [snd]. destruct e as [err|].
  - destruct Hlast as [[= ->] Hnil]; [done|].
    unfold readers_bytes. cbn. rewrite Hcons, Hnil. split; [done|].
    by exists [], (part, n, fn, Some io_EOF).
  - specialize (Hfull eq_refl).
    destruct (IH u' Hwb') as (Hbytes & xs & x & Hxs & Hx & Hall).
    { rewrite Hp'. rewrite Hcons, length_app in Hfuel. lia. }
    split.
    + unfold readers_bytes in *. cbn. by rewrite Hbytes, Hcons.
    + exists ((part, n, fn, None) :: xs), x. rewrite Hxs. split_and!; try done.
      constructor; [done|]. by rewrite <- Hp'.
Qed.

(** ** Validation and the paths that make no multipart upload *)

Lemma init_defaulted (u : uploader) : init u = initSize (set_cfg (defaulted (cfg u)) u).
Proof. done. Qed.

Lemma quot_ge_mul (T P m : Z) : 0 ≤ T → 0 < P → 0 < m → m ≤ T ÷ P → P ≤ T ÷ m.
Proof.
  intros HT HP Hm Hge.
  rewrite Z.quot_div_nonneg in * by lia.
  apply Z.div_le_lower_bound; [lia|].
  pose proof (Z.mul_div_le T P ltac:(lia)). nia.
Qed.

Lemma init_Concurrency (u u' : uploader) :
  init u = inr u' → Concurrency (cfg u') ≠ 0.
Proof.
  unfold init, initSize. cbn. intros H.
  repeat (case_match; cbn in * ); simplify_eq; cbn;
    rewrite ?Z.eqb_eq, ?Z.eqb_neq in *; try done.
Qed.

Section validation.

Context {C : Type} (S3 : UploadAPIClient C).
Context (Unquote : string → error + string).

Lemma paginate_error_calls (call : event) (pages : list page)
    (rec rec' : recordLocationClient) (m : gmap Z string) (evs : list event) (e : error) :
  paginate Unquote call pages rec m = (evs, rec', inl e) → evs ≠ [].
Proof.
  revert rec m evs. induction pages as [|[xs r] pages IH]; intros rec m evs H; cbn in H.
  - done.
  - repeat case_match; simplify_eq; done.
Qed.

(** X20.  A part size that is zero or at least 5 MiB passes the validation
    whatever the length of the body: [init] never lowers the part size,
    and the call does not return before it has read from the stream. *)
Theorem valid_part_size_survives_init (u : uploader) :
  PartSize (cfg u) = 0 ∨ MinUploadPartSize ≤ PartSize (cfg u) →
  0 ≤ cfgMaxUploadParts (cfg u) →
  (∀ len, seekerLen (Body (in_ u)) = Some len → ∃ T, len = inr T ∧ 0 ≤ T < max_int64) →
  ∃ u', init u = inr u'
        ∧ PartSize (defaulted (cfg u)) ≤ PartSize (cfg u')
        ∧ MinUploadPartSize ≤ PartSize (cfg u')
        ∧ ∀ cl r, upload S3 Unquote u cl ≠ Returned [] cl r.
Proof.
  intros Hp Hm Hlen.
  assert (MinUploadPartSize ≤ PartSize (defaulted (cfg u))) as Hp'.
  { unfold defaulted, DefaultUploadPartSize, MinUploadPartSize in *.
    repeat (case_match; cbn in * ); rewrite ?Z.eqb_eq, ?Z.eqb_neq in *; lia. }
  assert (1 ≤ cfgMaxUploadParts (defaulted (cfg u))) as Hm'.
  { unfold defaulted, MaxUploadParts.
    repeat (case_match; cbn in * ); rewrite ?Z.eqb_eq, ?Z.eqb_neq in *; lia. }
  assert (∃ u', init u = inr u' ∧ PartSize (defaulted (cfg u)) ≤ PartSize (cfg u'))
    as (u' & Hinit & Hge).
  { rewrite init_defaulted. unfold initSize. cbn.
    generalize dependent (defaulted (cfg u)). intros c Hc Hmc.
    destruct (seekerLen (Body (in_ u))) as [len|] eqn:Hseek; [|by eexists].
    destruct (Hlen len eq_refl) as (T & -> & HT). unfold max_int64 in HT.
    unfold MinUploadPartSize in Hc.
    assert (0 ≤ T ÷ PartSize c ≤ T) as Hq.
    { split; [apply Z.quot_pos; lia|]. pose proof (quot_bounds T (PartSize c)). lia. }
    rewrite int64_small by lia.
    destruct (Z.geb_spec (T ÷ PartSize c) (cfgMaxUploadParts c)); [|by eexists].
    eexists. split; [reflexivity|]. cbn.
    pose proof (quot_ge_mul T (PartSize c) (cfgMaxUploadParts c)).
    pose proof (quot_bounds T (cfgMaxUploadParts c)).
    rewrite int64_small by lia. lia. }
  exists u'. split_and!; [done|exact Hge|lia|].
  intros cl r. unfold upload, singlePart, mu_upload, spawn. rewrite Hinit.
  destruct (Z.ltb_spec (PartSize (cfg u')) MinUploadPartSize); [lia|].
  repeat case_match; simplify_eq; try done.
  intros Heq. simplify_eq.
  match goal with H : paginate _ _ _ _ _ = _ |- _ => by apply paginate_error_calls in H end.
Qed.

(** X21.  A negative [MaxUploadParts] makes every upload of a seekable body
    fail the part-size validation: the length divided by the part size is
    never below it, so [initSize] replaces the part size by a value of at
    most 1. *)
Theorem negative_MaxUploadParts_rejects_seekable_bodies (U : Uploader)
    (input : PutObjectInput) (uploadID : option string)
    (opts : list (Uploader → Uploader)) (cl : C) (T : Z) :
  let c := foldl (λ c opt, opt c) U opts in
  seekerLen (Body input) = Some (inr T) →
  0 ≤ T < max_int64 →
  0 ≤ PartSize c →
  cfgMaxUploadParts c < 0 →
  Upload S3 Unquote U input opts cl
  = Returned [] cl (inl (Errorf "part size must be at least 5242880 bytes"))
  ∧ ResumeUpload S3 Unquote U input uploadID opts cl
    = Returned [] cl (inl (Errorf "part size must be at least 5242880 bytes")).
Proof.
  intros c Hseek HT Hp Hm. unfold max_int64 in HT.
  assert (∀ id, ∃ u', init (mkuploader c input id 0 0 0) = inr u'
                      ∧ PartSize (cfg u') < MinUploadPartSize) as Hinit.
  { intros id. rewrite init_defaulted. unfold initSize. cbn. rewrite Hseek.
    assert (0 ≤ PartSize (defaulted c)) as Hp'.
    { unfold defaulted, DefaultUploadPartSize, MinUploadPartSize.
      repeat (case_match; cbn in * ); rewrite ?Z.eqb_eq, ?Z.eqb_neq in *; lia. }
    assert (cfgMaxUploadParts (defaulted c) = cfgMaxUploadParts c) as Hm'.
    { unfold defaulted.
      repeat (case_match; cbn in * ); rewrite ?Z.eqb_eq, ?Z.eqb_neq in *; lia. }
    rewrite Hm'.
    assert (0 ≤ T ÷ PartSize (defaulted c) ≤ T) as Hq.
    { pose proof (quot_bounds T (PartSize (defaulted c))).
      destruct (Z.eq_dec (PartSize (defaulted c)) 0) as [->|Hne].
      - replace (T ÷ 0) with 0 by (by destruct T). lia.
      - split; [apply Z.quot_pos; lia|lia]. }
    rewrite int64_small by lia.
    destruct (Z.geb_spec (T ÷ PartSize (defaulted c)) (cfgMaxUploadParts c)); [|lia].
    eexists. split; [reflexivity|]. cbn.
    assert (- T ≤ T ÷ cfgMaxUploadParts c ≤ 0) as Hq'.
    { pose proof (quot_bounds T (cfgMaxUploadParts c)).
      split; [lia|]. rewrite <- (Z.opp_involutive (cfgMaxUploadParts c)).
      rewrite Z.quot_opp_r by lia.
      assert (0 ≤ T ÷ - cfgMaxUploadParts c) by (apply Z.quot_pos; lia). lia. }
    rewrite int64_small by lia. unfold MinUploadPartSize. lia. }
  unfold Upload, ResumeUpload, uploadWithSingleUploader, set_cfg. cbn. fold c.
  split.
  - destruct (Hinit None) as (u' & Hi & Hs). by apply (upload_small_part_size _ _ _ u').
  - destruct (Hinit uploadID) as (u' & Hi & Hs). by apply (upload_small_part_size _ _ _ u').
Qed.

(** X22.  When the length of a seekable body cannot be found, [Upload] and
    [ResumeUpload] return "unable to initialize upload: " followed by the
    seek error, which [Unwrap] yields, without any client call. *)
Theorem seek_failure_is_reported (U : Uploader) (input : PutObjectInput)
    (uploadID : option string) (opts : list (Uploader → Uploader)) (cl : C) (e : error) :
  seekerLen (Body input) = Some (inl e) →
  let failure := ErrorfW "unable to initialize upload: " e in
  Upload S3 Unquote U input opts cl = Returned [] cl (inl failure)
  ∧ ResumeUpload S3 Unquote U input uploadID opts cl = Returned [] cl (inl failure)
  ∧ Error failure = "unable to initialize upload: " +:+ Error e
  ∧ Unwrap failure = Some e.
Proof.
  intros Hseek failure.
  unfold Upload, ResumeUpload, uploadWithSingleUploader, set_cfg. cbn.
  split_and!; try done.
  all: apply upload_init_failure; rewrite init_defaulted; unfold initSize; cbn.
  all: by rewrite Hseek.
Qed.

(** X23.  When the first read fails with an error other than [io.EOF], the
    call runs the cleanup of that read and returns "read upload data
    failed: " followed by the error, without any client call. *)
Theorem first_read_failure_is_reported (u u0 u1 : uploader) (cl : C)
    (reader : list byte) (n : Z) (fn : closure) (e : error) :
  init u = inr u0 →
  MinUploadPartSize ≤ PartSize (cfg u0) →
  nextReader u0 = ((reader, n, fn, Some e), u1) →
  e ≠ io_EOF →
  upload S3 Unquote u cl
  = Returned [CleanupCall fn] cl (inl (ErrorfW "read upload data failed: " e)).
Proof.
  intros Hinit Hsize Hread He. unfold upload. rewrite Hinit.
  destruct (Z.ltb_spec (PartSize (cfg u0)) MinUploadPartSize); [lia|].
  rewrite Hread. by destruct e.
Qed.

(** X19.  A body that behaves and is shorter than the part size is sent
    whole by one PutObject request, also by [ResumeUpload]: the call makes
    no other client call, and runs the cleanup of its one reader. *)
Theorem a_short_body_goes_in_one_PutObject (u u0 : uploader) (cl : C) :
  init u = inr u0 →
  MinUploadPartSize ≤ PartSize (cfg u0) →
  well_behaved u0 →
  Z.of_nat (length (unread u0)) < PartSize (cfg u0) →
  ∃ fn cl' r,
    upload S3 Unquote u cl
    = Returned [PutObjectCall (Bucket (in_ u)) (Key (in_ u)) (unread u0); CleanupCall fn]
        cl' r
    ∧ match r with inl _ => True | inr out => UploadID out = "" end.
Proof.
  intros Hinit Hsize Hwb Hshort. unfold upload. rewrite Hinit.
  destruct (Z.ltb_spec (PartSize (cfg u0)) MinUploadPartSize); [lia|].
  destruct (nextReader u0) as [[[[part n] fn] e] u1] eqn:Hread.
  destruct (well_behaved_next _ _ _ _ _ _ Hwb Hread)
    as (_ & _ & Hcons & Hfull & Hlast & _).
  destruct e as [err|].
  - destruct Hlast as [[= ->] Hnil]; [done|].
    rewrite Hnil, app_nil_r in Hcons. subst part. cbn. unfold singlePart.
    destruct (init_in _ _ Hinit) as (Hb & Hk & _).
    destruct (nextReader_settings _ _ _ Hread) as ((Hb' & Hk' & _) & _).
    rewrite Hb', Hk', Hb, Hk.
    destruct (PutObject S3 _ _ _ _) as [[xs [e|out]] cl']; by eexists _, _, _.
  - specialize (Hfull eq_refl). rewrite Hcons, length_app in Hshort. lia.
Qed.

Lemma prelude_Concurrency (u : uploader) (m : multiuploader) (firstBuf : list byte)
    (fn : closure) :
  prelude u = Some (m, firstBuf, fn) →
  Concurrency (cfg (mu_uploader m)) ≠ 0 ∧ parts m = [].
Proof.
  unfold prelude. intros H.
  destruct (init u) as [e|u0] eqn:Hinit; [done|].
  destruct (PartSize (cfg u0) <? MinUploadPartSize); [done|].
  destruct (nextReader u0) as [[[[reader' n] fn'] [e|]] u1] eqn:Hread; [done|].
  simplify_eq. cbn. split; [|done].
  apply nextReader_settings in Hread as ((_&_&_&_&_&_&->&_) & _).
  by eapply init_Concurrency.
Qed.

End validation.

(** ** The coordinator *)

Ltac simpl_st :=
  cbn [mu client ch closed workers main st_num st_err locationRecorder trace
       set_mu set_client set_ch set_closed set_worker set_main set_num set_err emit
       err parts uploadID eTagByPartNumber mu_uploader seterr geterr completePart
       set_parts set_uploader num buf cleanup PartNumber ETag] in *.

Lemma shouldContinue_stop (u : multiuploader) (part n : Z) (e : option error) :
  shouldContinue u part n e = (false, None) → n = 0.
Proof.
  unfold shouldContinue. intros H.
  destruct (if is_EOF e then None else e); [done|].
  destruct (Z.eqb_spec n 0); [done|].
  by repeat case_match.
Qed.

Lemma part_reader_next (u : uploader) (firstBuf : list byte) (n : Z) :
  1 ≤ n →
  part_reader u firstBuf (n + 1)
  = (nextReader (after_reads (Z.to_nat (n - 1)) u)).1.1.1.1.
Proof.
  intros Hn. unfold part_reader.
  destruct (Z.eqb_spec (n + 1) 1); [lia|].
  by replace (n + 1 - 2) with (n - 1) by lia.
Qed.

Lemma after_reads_next (u : uploader) (n : Z) :
  1 ≤ n →
  after_reads (Z.to_nat (n + 1 - 1)) u
  = (nextReader (after_reads (Z.to_nat (n - 1)) u)).2.
Proof.
  intros Hn. replace (Z.to_nat (n + 1 - 1)) with (S (Z.to_nat (n - 1))) by lia. done.
Qed.

Lemma read_so_far_next (u : uploader) (firstBuf : list byte) (n : Z) :
  1 ≤ n →
  read_so_far u firstBuf (n + 1)
  = read_so_far u firstBuf n ++ (nextReader (after_reads (Z.to_nat (n - 1)) u)).1.1.1.1.
Proof.
  intros Hn. unfold read_so_far.
  rewrite seqZ_snoc by lia. rewrite bind_app. cbn. rewrite app_nil_r.
  by rewrite part_reader_next.
Qed.

Lemma unlisted_app (m : gmap Z string) (l1 l2 : list Z) :
  unlisted m (l1 ++ l2) = unlisted m l1 ++ unlisted m l2.
Proof. apply filter_app. Qed.

Lemma utally_nil (m : gmap Z string) : utally m [] = ∅.
Proof. done. Qed.

Lemma utally_app (m : gmap Z string) (l1 l2 : list chunk) :
  utally m (l1 ++ l2) = utally m l1 ⊎ utally m l2.
Proof. unfold utally. by rewrite fmap_app, unlisted_app, list_to_set_disj_app. Qed.

Lemma utally_cons (m : gmap Z string) (c : chunk) (l : list chunk) :
  utally m (c :: l) = utally m [c] ⊎ utally m l.
Proof. apply (utally_app m [c] l). Qed.

Lemma utally_listed (m : gmap Z string) (c : chunk) (eTag : string) :
  m !! num c = Some eTag → utally m [c] = ∅.
Proof.
  intros Hm. unfold utally, unlisted. change (num <$> [c]) with [num c].
  rewrite filter_cons_False; [done|]. by rewrite Hm.
Qed.

Lemma utally_unlisted (m : gmap Z string) (c : chunk) :
  m !! num c = None → utally m [c] = {[+ num c +]}.
Proof.
  intros Hm. unfold utally, unlisted. change (num <$> [c]) with [num c].
  rewrite filter_cons_True by done. rewrite filter_nil. multiset_solver.
Qed.

Lemma utally_singleton (m : gmap Z string) (c : chunk) :
  utally m [c] = list_to_set_disj (unlisted m [num c]).
Proof. done. Qed.

Lemma utally_bind_insert (m : gmap Z string) (f : worker → list chunk)
    (ws : list worker) (i : nat) (w w' : worker) :
  ws !! i = Some w →
  utally m (<[i:=w']> ws ≫= f) ⊎ utally m (f w) = utally m (ws ≫= f) ⊎ utally m (f w').
Proof.
  intros Hw.
  rewrite insert_take_drop by (by eapply lookup_lt_Some).
  rewrite <- (take_drop_middle ws i w Hw) at 3.
  rewrite !bind_app, !bind_cons, !utally_app. multiset_solver.
Qed.

Lemma unlisted_empty (l : list Z) : unlisted ∅ l = l.
Proof.
  unfold unlisted. induction l as [|k l IH]; [done|].
  rewrite filter_cons_True by apply lookup_empty. by rewrite IH.
Qed.

Lemma multiplicity_NoDup (l : list Z) (x : Z) :
  NoDup l → (multiplicity x (list_to_set_disj l : gmultiset Z) ≤ 1)%nat.
Proof.
  induction 1 as [|y l Hy Hnd IH]; [rewrite list_to_set_disj_nil, multiplicity_empty; lia|].
  rewrite list_to_set_disj_cons, multiplicity_disj_union.
  destruct (decide (x = y)) as [->|Hne].
  - rewrite multiplicity_singleton.
    assert (multiplicity y (list_to_set_disj l : gmultiset Z) = 0%nat) as ->;
      [|case_decide; lia].
    apply not_elem_of_multiplicity. by rewrite elem_of_list_to_set_disj.
  - rewrite multiplicity_singleton_ne by done. lia.
Qed.

Lemma NoDup_subseteq (l l' : list Z) :
  NoDup l' →
  list_to_set_disj l ⊆@{gmultiset Z} list_to_set_disj l' →
  NoDup l.
Proof.
  intros Hnd. induction l as [|x l IH]; intros Hsub; [constructor|].
  rewrite list_to_set_disj_cons in Hsub. constructor.
  - intros Hx.
    pose proof (Hsub x) as Hm.
    rewrite multiplicity_disj_union, multiplicity_singleton in Hm.
    pose proof (multiplicity_NoDup l' x Hnd).
    assert (x ∈ (list_to_set_disj l : gmultiset Z)) as Hx'
      by (by apply elem_of_list_to_set_disj).
    rewrite elem_of_multiplicity in Hx'.
    case_decide; [lia|done].
  - apply IH. etrans; [|done]. multiset_solver.
Qed.

Lemma bind_ext_in {A B} (f g : A → list B) (l : list A) :
  (∀ x, x ∈ l → f x = g x) → l ≫= f = l ≫= g.
Proof.
  induction l as [|x l IH]; intros H; [done|]. cbn.
  rewrite (H x) by (by left). rewrite IH; [done|].
  intros y Hy. apply H. by right.
Qed.

Lemma Forall_sort_Sort (P : CompletedPart → Prop) (ps : list CompletedPart) :
  Forall P ps → Forall P (sort_Sort ps).
Proof.
  rewrite !Forall_forall. intros H x Hx. apply H.
  unfold sort_Sort in Hx. by rewrite merge_sort_Permutation in Hx.
Qed.

Lemma abort_calls_app (tr1 tr2 : list event) :
  abort_calls (tr1 ++ tr2) = abort_calls tr1 ++ abort_calls tr2.
Proof. apply omap_app. Qed.

Lemma addressed_same (i i' : PutObjectInput) (id : string) (ev : event) :
  Bucket i' = Bucket i → Key i' = Key i →
  SSECustomerAlgorithm i' = SSECustomerAlgorithm i →
  SSECustomerKey i' = SSECustomerKey i →
  addressed i id ev → addressed i' id ev.
Proof. intros Hb Hk Ha Hs. destruct ev; cbn; rewrite ?Hb, ?Hk, ?Ha, ?Hs; done. Qed.

Lemma part_body_reader (u : uploader) (firstBuf : list byte) (tr : list event) (k : Z) :
  Forall (λ p, up_Body p = part_reader u firstBuf (up_PartNumber p)) (uploads tr) →
  k ∈ up_PartNumber <$> uploads tr →
  part_body tr k = part_reader u firstBuf k.
Proof.
  intros Hall Hk. unfold part_body.
  apply list_elem_of_fmap in Hk as (p & -> & Hp).
  destruct (list_find _ _) as [[i p']|] eqn:Hfind.
  - apply list_find_Some in Hfind as (Hi & Hnum & _).
    rewrite Forall_forall in Hall. rewrite <- Hnum. apply Hall.
    by eapply list_elem_of_lookup_2.
  - apply list_find_None in Hfind. rewrite Forall_forall in Hfind.
    by destruct (Hfind p Hp).
Qed.

Section coverage.

Context {C : Type} (S3 : UploadAPIClient C).
Context (md5_Sum : list byte → list byte).

Notation step := (step S3 md5_Sum).
Notation run := (run S3 md5_Sum).
Notation reaches := (reaches S3 md5_Sum).

(** *** Every action keeps the invariants *)

Lemma step_abort_inv (t : thread) (s s' : state C) :
  returned_inv s → abort_inv s → step t s = Some s' → abort_inv s'.
Proof.
  intros Hret Hinv H.
  step_inv H; unfold abort_inv in *; simpl_st.
  all: repeat match goal with H : main _ = _ |- _ => rewrite H in * end.
  all: cbn beta iota in *.
  all: try match goal with
           | Hw : workers ?s !! _ = Some _ |- _ =>
               destruct (main s) as [| | | | | |r] eqn:Hm;
               [..|destruct (Hret r Hm) as [Hall _];
                   by pose proof (all_done_lookup _ _ _ Hall Hw)]
           end.
  all: try (unfold geterr in *; congruence).
  all: rewrite ?abort_calls_app; cbn [abort_calls omap list_omap].
  all: rewrite ?Hinv; try done.
  all: cbn [is_failure andb negb].
  all: repeat match goal with H : LeavePartsOnError _ = _ |- _ => rewrite H in * end.
  all: cbn [is_failure andb negb]; rewrite ?abort_calls_app, ?Hinv; try done.
  all: try (eexists; split; [reflexivity|]; done).
  all: try (eexists (_ ++ [_]); split; [rewrite <- app_assoc; reflexivity|];
            rewrite abort_calls_app, Hinv; done).
Qed.

Lemma step_addressed_inv (t : thread) (s s' : state C) :
  addressed_inv s → step t s = Some s' → addressed_inv s'.
Proof.
  intros Hinv H.
  step_inv H; unfold addressed_inv in *; simpl_st.
  all: rewrite ?Forall_app, ?Forall_cons, ?Forall_singleton, ?Forall_nil.
  all: cbn [addressed UploadPart_params up_Bucket up_Key up_UploadId
            up_SSECustomerAlgorithm up_SSECustomerKey].
  all: try done.
  all: try match goal with
           | H : nextReader _ = _ |- _ =>
               apply nextReader_settings in H as ((?&?&?&?&_) & _)
           end.
  all: try (split_and?; try done;
            eapply Forall_impl; [done|]; intros ev; by apply addressed_same).
Qed.

Lemma step_limit_inv (t : thread) (s s' : state C) :
  wf s → limit_inv s → step t s = Some s' → limit_inv s'.
Proof.
  intros (Hlen & Hcap & Hclosed & Hdone & Hnum) Hinv H.
  step_inv H; unfold limit_inv in *; simpl_st.
  all: try done.
  all: try match goal with
           | H : shouldContinue _ _ _ _ = (?b, _), H' : negb ?b = false |- _ =>
               destruct b; [|done];
               apply shouldContinue_true in H as (?&?&?&?&?); simpl_st;
               rewrite next_part_number in * by lia
           end.
  all: try match goal with
           | H : nextReader _ = _ |- _ =>
               apply nextReader_settings in H as ((?&?&?&?&?&?&?&?&HM&?) & _);
               rewrite ?HM in *
           end.
  all: try lia.
Qed.

Lemma step_sent_inv (t : thread) (s s' : state C) :
  wf s → uploads_inv s → sent_inv s → step t s = Some s' → sent_inv s'.
Proof.
  intros (Hlen & Hcap & Hclosed & Hdone & Hnum) (_ & Hws & _) [Hsub Heq] H.
  step_inv H; unfold sent_inv, sent_or_waiting in *; simpl_st.
  all: try match goal with
           | Hw : workers _ !! ?i = Some ?w |- context [<[?i:=?w']> (workers _)] =>
               pose proof (utally_bind_insert (eTagByPartNumber (mu s)) unsent _ i w w' Hw)
                 as Hex;
               pose proof (Forall_lookup_1 _ _ _ _ Hws Hw) as [_ Hsend];
               cbn [unsent] in Hex; rewrite ?utally_nil in Hex
           end.
  all: try match goal with
           | H : eTagByPartNumber _ !! num ?c = Some _ |- _ =>
               rewrite (utally_listed _ c _ H) in *
           end.
  all: try match goal with
           | H : eTagByPartNumber _ !! num ?c = None |- _ =>
               rewrite (utally_unlisted _ c H) in *
           end.
  all: try match goal with
           | H : shouldContinue _ _ _ _ = (?b, _), H' : negb ?b = false |- _ =>
               destruct b; [|done];
               apply shouldContinue_true in H as (?&?&?&?&?); simpl_st;
               rewrite next_part_number, seqZ_snoc by lia
           end.
  all: repeat match goal with
              | H : main _ = _ |- _ => rewrite H in *
              | H : ch _ = _ |- _ => rewrite H in *
              end.
  all: cbn [sending] in *.
  all: unfold uploads in *; rewrite ?omap_app; cbn [omap list_omap].
  all: rewrite ?fmap_app, ?unlisted_app, ?list_to_set_disj_app, ?utally_app, ?utally_nil in *.
  all: try match goal with
           | H : context [utally _ (?c :: ?l)] |- _ =>
               lazymatch l with [] => fail | _ => rewrite (utally_cons _ c l) in * end
           end.
  all: cbn [fmap list_fmap up_PartNumber UploadPart_params] in *.
  all: rewrite ?list_to_set_disj_cons, ?list_to_set_disj_nil in *.
  all: rewrite ?utally_singleton in *; cbn [num] in *.
  all: split;
       [|intros Hnone; try discriminate Hnone; try (unfold geterr in *; congruence);
         specialize (Heq Hnone)].
  all: try (clear -Hsub; multiset_solver).
  all: try (clear -Heq; multiset_solver).
  all: try (clear -Hsub Hex; multiset_solver).
  all: try (clear -Heq Hex; multiset_solver).
Qed.

Lemma step_data_inv (u : uploader) (firstBuf : list byte) (t : thread) (s s' : state C) :
  wf s → data_inv u firstBuf s → step t s = Some s' → data_inv u firstBuf s'.
Proof.
  intros (Hlen & Hcap & Hclosed & Hdone & Hnum) (Hpos & Hq & Hws & Hup) H.
  step_inv H; unfold data_inv in *; simpl_st.
  all: try match goal with
           | Hw : workers _ !! ?i = Some ?w |- _ =>
               pose proof (Forall_lookup_1 _ _ _ _ Hws Hw) as Hheld;
               cbn [held] in Hheld; rewrite ?Forall_singleton in Hheld
           end.
  all: try match goal with
           | H : shouldContinue _ _ _ _ = (?b, _), H' : negb ?b = false |- _ =>
               destruct b; [|done];
               apply shouldContinue_true in H as (?&?&?&?&?); simpl_st;
               rewrite next_part_number by lia
           end.
  all: repeat match goal with
              | H : main _ = _ |- _ => rewrite H in *
              | H : ch _ = _ |- _ => rewrite H in *
              end.
  all: cbn [sending app leaving] in *.
  all: unfold uploads in *; rewrite ?omap_app; cbn [omap list_omap].
  all: rewrite ?Forall_app, ?Forall_cons, ?Forall_singleton, ?Forall_nil in *.
  all: cbn [UploadPart_params up_PartNumber up_Body] in *.
  all: destruct_and?.
  all: split_and?; try done.
  all: try (apply Forall_insert; [done|]; cbn [held];
            rewrite ?Forall_singleton, ?Forall_nil; done).
  all: try match goal with
           | H : nextReader _ = _ |- _ => rewrite (Hpos eq_refl) in H
           end.
  - intros _. rewrite after_reads_next by lia.
    match goal with H : nextReader _ = _ |- _ => by rewrite H end.
  - cbn [buf num]. rewrite part_reader_next by lia.
    match goal with H : nextReader _ = _ |- _ => by rewrite H end.
Qed.

Lemma step_whole_inv (data : list byte) (u : uploader) (firstBuf : list byte)
    (t : thread) (s s' : state C) :
  wf s → data_inv u firstBuf s → whole_inv data u firstBuf s →
  step t s = Some s' → whole_inv data u firstBuf s'.
Proof.
  intros (Hlen & Hcap & Hclosed & Hdone & Hnum) (Hpos & _) Hinv H.
  step_inv H; unfold whole_inv in *; simpl_st.
  all: repeat match goal with H : main _ = _ |- _ => rewrite H in * end.
  all: cbn beta iota in *.
  all: cbn [leaving] in *.
  all: try done.
  - intros Hnone. unfold geterr in *. congruence.
  - intros _. destruct Hinv as (_ & Hsum & Hnil).
    rewrite Hnil in Hsum by done. by rewrite app_nil_r in Hsum.
  - intros _. destruct Hinv as (Hwhole & Hsum & _).
    match goal with H : shouldContinue _ _ _ _ = (?b, _) |- _ =>
      destruct b; [done|]; apply shouldContinue_stop in H as -> end.
    match goal with H : nextReader _ = _ |- _ =>
      apply well_behaved_next in H as (_ & _ & _ & _ & _ & Hnil); [|done] end.
    rewrite Hnil in Hsum by done. by rewrite app_nil_r in Hsum.
  - destruct Hinv as (Hwhole & Hsum & _).
    match goal with
    | H : shouldContinue _ _ _ _ = (?b, _), H' : negb ?b = false |- _ =>
        destruct b; [|done];
        apply shouldContinue_true in H as (?&->&?&?&?); simpl_st;
        rewrite next_part_number by lia
    end.
    rewrite read_so_far_next by lia. rewrite <- (Hpos eq_refl).
    match goal with H : nextReader _ = _ |- _ =>
      pose proof (well_behaved_next _ _ _ _ _ _ Hwhole H)
        as (Hw' & _ & Hcons & _ & Hlast & _);
      rewrite H end.
    cbn [fst snd]. rewrite <- app_assoc, <- Hcons. split_and!; try done.
    intros Hsome. by apply Hlast.
  - destruct (main s); try done.
Qed.

Lemma step_resume_inv (u : uploader) (firstBuf : list byte) (t : thread)
    (s s' : state C) :
  uploads_inv s → data_inv u firstBuf s → resume_inv md5_Sum u firstBuf s →
  step t s = Some s' → resume_inv md5_Sum u firstBuf s'.
Proof.
  intros (_ & Hok & _) (_ & _ & Hheld & _) [Hparts Hws] H.
  step_inv H; unfold resume_inv in *; simpl_st.
  all: try match goal with
           | Hw : workers _ !! ?i = Some ?w |- _ =>
               pose proof (Forall_lookup_1 _ _ _ _ Hok Hw) as [_ Hsend];
               pose proof (Forall_lookup_1 _ _ _ _ Hheld Hw) as Hbuf;
               pose proof (Forall_lookup_1 _ _ _ _ Hws Hw) as Hnone;
               cbn [held] in Hbuf; rewrite ?Forall_singleton in Hbuf;
               cbn beta iota in Hnone
           end.
  all: rewrite ?Forall_app, ?Forall_singleton.
  all: split_and?; try done.
  all: try (apply Forall_insert; done).
  all: try (by apply Forall_sort_Sort).
  - intros e' He'. cbn [PartNumber ETag] in *.
    assert (e' = s0) as -> by congruence. split; [done|].
    rewrite <- Hbuf.
    match goal with H : negb _ = false |- _ =>
      apply negb_false_iff, String.eqb_eq in H end. done.
  - intros e' He'. cbn [PartNumber] in He'. congruence.
Qed.

(** *** From the first state on *)

Context (Unquote : string → error + string).

Lemma acquired_no_aborts (u : multiuploader) (cl : C) (s0 : state C) :
  acquired S3 u cl s0 → abort_calls (trace s0) = [].
Proof.
  unfold acquired. destruct (existingUploadID _).
  - intros (_ & _ & k & -> & _). induction k as [|k IH]; [done|]. apply IH.
  - by intros (xs & resp & _ & _ & -> & _).
Qed.

Lemma fresh_sent_inv (u : multiuploader) (firstBuf : list byte) (fn : closure)
    (rec : recordLocationClient) (tr : list event) (cl : C) (s : state C) :
  fresh u firstBuf fn rec tr cl s → uploads tr = [] → sent_inv s.
Proof.
  intros (Hmu & Hcl & Hch & Hclosed & Hws & Hmain & Hnum & Herr & Hrec & Htr) Hup.
  unfold sent_inv, sent_or_waiting.
  rewrite Hch, Hws, Hmain, Hnum, Htr, Hup.
  rewrite bind_replicate_WRecv by done.
  cbn [sending fmap list_fmap]. rewrite !utally_nil, utally_singleton. cbn [num].
  change (seqZ 1 1) with [1].
  split; [|intros _]; multiset_solver.
Qed.

Lemma reaches_sent_inv (u : multiuploader) (firstBuf : list byte) (fn : closure)
    (cl : C) (s0 s' : state C) :
  parts u = [] →
  mu_upload S3 Unquote u firstBuf fn cl = Started s0 →
  reaches s0 s' →
  inv s' ∧ sent_inv s'.
Proof.
  intros Hparts Hstart Hreach.
  pose proof (mu_upload_inv _ _ _ _ _ _ _ Hparts Hstart) as Hinv0.
  apply mu_upload_started in Hstart as (Hfresh & Hu & _ & _ & Hacq).
  eapply (reaches_invariant S3 md5_Sum (λ s, inv s ∧ sent_inv s)); [|done|].
  - intros t s1 s2 [Hi Hs] Hstep. split.
    + by eapply step_inv_all.
    + eapply step_sent_inv; [apply Hi|apply Hi|done..].
  - split; [done|]. eapply fresh_sent_inv; [done|].
    unfold acquired in Hacq. destruct (existingUploadID _).
    + destruct Hacq as (_ & _ & k & -> & _). apply replicate_no_calls.
    + by destruct Hacq as (xs & resp & _ & _ & -> & _).
Qed.

(** X7.  AbortMultipartUpload is requested only when a multipart upload
    returns an error and the parts are not to be left on error: then it
    is requested once, for the session, as the last client call of the
    upload.  No other execution requests it. *)
Theorem abort_only_after_failure (u : multiuploader) (firstBuf : list byte)
    (fn : closure) (cl : C) (s0 s' : state C) :
  mu_upload S3 Unquote u firstBuf fn cl = Started s0 →
  reaches s0 s' →
  let i := in_ (mu_uploader u) in
  match main s' with
  | PReturned (inl _) =>
      if LeavePartsOnError (cfg (mu_uploader u)) then abort_calls (trace s') = []
      else ∃ tr, trace s' = tr ++ [AbortMultipartUploadCall (Bucket i) (Key i)
                                     (uploadID (mu s0))]
                 ∧ abort_calls tr = []
  | _ => abort_calls (trace s') = []
  end.
Proof.
  intros Hstart Hreach i.
  apply mu_upload_started in Hstart as (Hfresh & Hu & _ & _ & Hacq).
  assert (returned_inv s' ∧ abort_inv s') as [_ Hinv].
  { eapply (reaches_invariant S3 md5_Sum (λ s, returned_inv s ∧ abort_inv s));
      [|done|].
    - intros t s1 s2 [Hr Ha] Hstep. split.
      + by eapply step_returned_inv.
      + by eapply step_abort_inv.
    - destruct Hfresh as (_&_&_&_&_&Hmain&_). split.
      + intros r Hr. by rewrite Hmain in Hr.
      + unfold abort_inv. rewrite Hmain. by eapply acquired_no_aborts. }
  apply reaches_stable in Hreach as (Hid & _ & _ & (Hb & Hk & _ & _ & _ & _ & _ & HL & _) & _).
  unfold abort_inv in Hinv. rewrite Hid, Hb, Hk, HL, Hu in Hinv.
  destruct (main s') as [| | | | | |[e|out]]; try done.
  subst i. destruct (LeavePartsOnError (cfg (mu_uploader u))); cbn in Hinv; done.
Qed.

(** X8.  Every client call of a multipart upload is made for the bucket
    and key of the request and, where it names a session, for the session
    that was acquired; every UploadPart request also carries the request's
    SSE-C algorithm and key.  A multipart upload never calls PutObject. *)
Theorem every_call_is_for_the_session (u : multiuploader) (firstBuf : list byte)
    (fn : closure) (cl : C) (s0 s' : state C) :
  mu_upload S3 Unquote u firstBuf fn cl = Started s0 →
  reaches s0 s' →
  Forall (addressed (in_ (mu_uploader u)) (uploadID (mu s0))) (trace s').
Proof.
  intros Hstart Hreach.
  apply mu_upload_started in Hstart as (Hfresh & Hu & _ & _ & Hacq).
  assert (addressed_inv s') as Hinv.
  { eapply (reaches_invariant S3 md5_Sum addressed_inv); [|done|].
    - intros t s1 s2. apply step_addressed_inv.
    - unfold addressed_inv, acquired in *. rewrite Hu.
      destruct (existingUploadID (mu_uploader u)).
      + destruct Hacq as (-> & _ & k & -> & _).
        induction k as [|k IH]; constructor; [done|apply IH].
      + destruct Hacq as (xs & resp & _ & _ & -> & _). by repeat constructor. }
  apply reaches_stable in Hreach as (Hid & _ & _ & (Hb & Hk & Ha & Hs & _) & _).
  unfold addressed_inv in Hinv. rewrite Hid in Hinv. rewrite Hu in *.
  eapply Forall_impl; [done|]. intros ev. by apply addressed_same.
Qed.

(** X9.  No part number beyond the limit in effect is ever assigned: the
    part counter, the part number of every UploadPart request and the
    length of a submitted manifest stay within
    [min (cfg.MaxUploadParts, 10000)], part 1 apart, which is sent
    without a look at the limit. *)
Theorem part_numbers_stay_within_the_limit (u : multiuploader) (firstBuf : list byte)
    (fn : closure) (cl : C) (s0 s' : state C) :
  parts u = [] →
  mu_upload S3 Unquote u firstBuf fn cl = Started s0 →
  reaches s0 s' →
  let limit := Z.max 1 (Z.min (cfgMaxUploadParts (cfg (mu_uploader u))) MaxUploadParts) in
  1 ≤ st_num s' ≤ limit
  ∧ Forall (λ p, 1 ≤ up_PartNumber p ≤ limit) (uploads (trace s'))
  ∧ Forall (λ m, Z.of_nat (length m) ≤ limit) (complete_calls (trace s')).
Proof.
  intros Hparts Hstart Hreach limit.
  pose proof (mu_upload_inv _ _ _ _ _ _ _ Hparts Hstart) as Hinv0.
  apply mu_upload_started in Hstart as (Hfresh & Hu & _ & _ & Hacq).
  assert (inv s' ∧ limit_inv s') as [(Hwf & _ & _ & Hcalls & (_ & _ & Hup)) Hlim].
  { eapply (reaches_invariant S3 md5_Sum (λ s, inv s ∧ limit_inv s)); [|done|].
    - intros t s1 s2 [Hi Hl] Hstep. split.
      + by eapply step_inv_all.
      + eapply step_limit_inv; [apply Hi|done..].
    - split; [done|]. destruct Hfresh as (_&_&_&_&_&_&Hnum&_).
      unfold limit_inv. rewrite Hnum. lia. }
  apply reaches_stable in Hreach as (_ & _ & _ & (_&_&_&_&_&_&_&_&HM&_) & _).
  unfold limit_inv in Hlim. rewrite HM, Hu in Hlim. fold limit in Hlim.
  destruct Hwf as (_ & _ & _ & _ & Hnum).
  split_and!; [lia|lia| |].
  - eapply Forall_impl; [done|]. intros p [? _]. cbv beta. lia.
  - unfold calls_inv in Hcalls.
    destruct (main s'); rewrite ?Hcalls; try done.
    destruct Hcalls as [->|(m & -> & Hm)]; [done|].
    apply Forall_singleton.
    rewrite <- (length_fmap PartNumber), Hm, length_seqZ. lia.
Qed.

(** X4.  No part is requested twice: in every state of a multipart upload
    the UploadPart requests made so far have pairwise different part
    numbers, whether the upload fails or not. *)
Theorem no_part_is_requested_twice (u : multiuploader) (firstBuf : list byte)
    (fn : closure) (cl : C) (s0 s' : state C) :
  parts u = [] →
  mu_upload S3 Unquote u firstBuf fn cl = Started s0 →
  reaches s0 s' →
  NoDup (up_PartNumber <$> uploads (trace s')).
Proof.
  intros Hparts Hstart Hreach.
  destruct (reaches_sent_inv _ _ _ _ _ _ Hparts Hstart Hreach) as [_ [Hsub _]].
  eapply (NoDup_subseteq _ (unlisted (eTagByPartNumber (mu s')) (seqZ 1 (st_num s')))).
  - apply NoDup_filter, NoDup_seqZ.
  - etrans; [|exact Hsub]. unfold sent_or_waiting. multiset_solver.
Qed.

(** X3.  When a multipart upload returns an output, the parts that were
    requested with UploadPart are, each exactly once, the parts 1 to N
    that have no entry in the ETag table: every part of a fresh upload,
    and the parts that ListParts did not list of a resumed one. *)
Theorem every_unlisted_part_is_sent_once (u : multiuploader) (firstBuf : list byte)
    (fn : closure) (cl : C) (s0 s' : state C) (out : UploadOutput) :
  parts u = [] →
  mu_upload S3 Unquote u firstBuf fn cl = Started s0 →
  reaches s0 s' →
  main s' = PReturned (inr out) →
  up_PartNumber <$> uploads (trace s')
  ≡ₚ unlisted (eTagByPartNumber (mu s0)) (seqZ 1 (st_num s'))
  ∧ (eTagByPartNumber (mu s0) = ∅ →
     up_PartNumber <$> uploads (trace s') ≡ₚ seqZ 1 (st_num s')).
Proof.
  intros Hparts Hstart Hreach Hret.
  destruct (reaches_sent_inv _ _ _ _ _ _ Hparts Hstart Hreach)
    as [(Hwf & _ & Hretinv & _) [_ Heq]].
  destruct (Hretinv _ Hret) as (Hall & Hnone & _).
  apply reaches_stable in Hreach as (_ & Hm & _).
  specialize (Heq Hnone). unfold sent_or_waiting in Heq.
  rewrite Hret, (all_done_channel_empty s' Hwf Hall) in Heq. cbn [sending] in Heq.
  unfold utally in Heq at 3. unfold tally in *.
  assert (workers s' ≫= unsent = []) as Hnil.
  { clear -Hall. induction (workers s') as [|w ws IH]; [done|].
    cbn in Hall. apply andb_prop in Hall as [Hw Hws]. destruct w; try done.
    cbn. by apply IH. }
  rewrite Hnil, !utally_nil in Heq. rewrite Hm in Heq.
  assert (up_PartNumber <$> uploads (trace s')
          ≡ₚ unlisted (eTagByPartNumber (mu s0)) (seqZ 1 (st_num s'))) as Hperm.
  { apply list_to_set_disj_inj. rewrite <- Heq. cbn. multiset_solver. }
  split; [done|]. intros Hempty. rewrite Hperm, Hempty.
  by rewrite unlisted_empty.
Qed.

(** X2.  Every UploadPart request of a multipart upload carries the bytes
    of the reader that [nextReader] handed out for its part number: the
    first reader for part 1, the reader of the [(k-1)]-th further read for
    part [k]. *)
Theorem requests_carry_the_readers_bytes (u : multiuploader) (firstBuf : list byte)
    (fn : closure) (cl : C) (s0 s' : state C) :
  parts u = [] →
  mu_upload S3 Unquote u firstBuf fn cl = Started s0 →
  reaches s0 s' →
  Forall (λ p, up_Body p = part_reader (mu_uploader u) firstBuf (up_PartNumber p))
    (uploads (trace s')).
Proof.
  intros Hparts Hstart Hreach.
  pose proof (mu_upload_inv _ _ _ _ _ _ _ Hparts Hstart) as Hinv0.
  apply mu_upload_started in Hstart as (Hfresh & Hu & _ & _ & Hacq).
  assert (inv s' ∧ data_inv (mu_uploader u) firstBuf s') as [_ (_ & _ & _ & Hup)]; [|done].
  eapply (reaches_invariant S3 md5_Sum (λ s, inv s ∧ data_inv (mu_uploader u) firstBuf s));
    [|done|].
  - intros t s1 s2 [Hi Hd] Hstep. split.
    + by eapply step_inv_all.
    + eapply step_data_inv; [apply Hi|done..].
  - split; [done|].
    destruct Hfresh as (Hmu & Hcl & Hch & Hclosed & Hws & Hmain & Hnum & Herr & Hrec & Htr).
    unfold data_inv. rewrite Hch, Hws, Hmain, Hnum, Hu.
    assert (uploads (trace s0) = []) as ->.
    { unfold acquired in Hacq. destruct (existingUploadID _).
      - destruct Hacq as (_ & _ & k & -> & _). apply replicate_no_calls.
      - by destruct Hacq as (xs & resp & _ & _ & -> & _). }
    split_and!; try done.
    + by apply Forall_singleton.
    + by apply Forall_replicate_WRecv.
Qed.

(** X1.  A fresh multipart upload of a body that behaves, when it returns
    an output, has sent the body: the bodies of its UploadPart requests,
    put in the order of their part numbers, are the bytes of the body from
    the position where the upload began, none missing and none twice. *)
Theorem uploaded_parts_make_up_the_body (u0 u1 : uploader) (firstBuf : list byte)
    (n : Z) (fn : closure) (cl : C) (s0 s' : state C) (out : UploadOutput) :
  well_behaved u0 →
  existingUploadID u0 = None →
  nextReader u0 = ((firstBuf, n, fn, None), u1) →
  mu_upload S3 Unquote (mkmultiuploader u1 None "" [] ∅) firstBuf fn cl = Started s0 →
  reaches s0 s' →
  main s' = PReturned (inr out) →
  uploaded_bytes (trace s') = unread u0.
Proof.
  intros Hwhole Hfresh0 Hread Hstart Hreach Hret.
  pose proof (well_behaved_next _ _ _ _ _ _ Hwhole Hread) as (Hwhole1 & _ & Hcons & _).
  set (data := unread u0) in *.
  assert (parts (mkmultiuploader u1 None "" [] ∅) = []) as Hparts by done.
  pose proof (mu_upload_inv _ _ _ _ _ _ _ Hparts Hstart) as Hinv0.
  pose proof (reaches_sent_inv _ _ _ _ _ _ Hparts Hstart Hreach) as [_ Hsent].
  pose proof Hstart as Hstart0.
  apply mu_upload_started in Hstart as (Hfresh & Hu & _ & _ & Hacq). cbn in Hu.
  assert (existingUploadID u1 = None) as Hid1.
  { apply nextReader_settings in Hread as ((_&_&_&_&->&_) & _). done. }
  unfold acquired in Hacq. cbn in Hacq. rewrite Hid1 in Hacq.
  destruct Hacq as (xs & resp & _ & _ & Htr0 & _ & Hm0).
  assert (inv s' ∧ data_inv u1 firstBuf s' ∧ whole_inv data u1 firstBuf s')
    as ((Hwf & _ & Hretinv & _) & (_ & _ & _ & Hup) & Hw).
  { eapply (reaches_invariant S3 md5_Sum
              (λ s, inv s ∧ data_inv u1 firstBuf s ∧ whole_inv data u1 firstBuf s));
      [|done|].
    - intros t s1 s2 (Hi & Hd & Hw) Hstep. split_and!.
      + by eapply step_inv_all.
      + eapply step_data_inv; [apply Hi|done..].
      + eapply step_whole_inv; [apply Hi|done..].
    - destruct Hfresh as (Hmu & Hcl & Hch & Hclosed & Hws & Hmain & Hnum & Herr & Hrec & Htr).
      assert (uploads (trace s0) = []) as Hnoup by (by rewrite Htr0).
      split_and!; [done| |].
      + unfold data_inv. rewrite Hch, Hws, Hmain, Hnum, Hu, Hnoup.
        split_and!; try done.
        * by apply Forall_singleton.
        * by apply Forall_replicate_WRecv.
      + unfold whole_inv. rewrite Hmain, Hnum, Hu, Herr.
        split_and!; [done| |by intros []].
        unfold read_so_far. change (seqZ 1 1) with [1]. cbn.
        rewrite app_nil_r. by rewrite Hcons. }
  destruct (Hretinv _ Hret) as (Hdone & Hnone & _).
  unfold whole_inv in Hw. rewrite Hret in Hw. specialize (Hw Hnone).
  assert (eTagByPartNumber (mu s') = ∅) as Hempty.
  { by apply reaches_stable in Hreach as (_ & -> & _). }
  assert (up_PartNumber <$> uploads (trace s') ≡ₚ seqZ 1 (st_num s')) as Hperm.
  { destruct Hsent as [_ Heq]. specialize (Heq Hnone).
    unfold sent_or_waiting in Heq.
    rewrite Hret, (all_done_channel_empty s' Hwf Hdone), Hempty in Heq.
    cbn [sending] in Heq.
    assert (workers s' ≫= unsent = []) as Hnil.
    { clear -Hdone. induction (workers s') as [|w ws IH]; [done|].
      cbn in Hdone. apply andb_prop in Hdone as [Hw Hws]. destruct w; try done.
      cbn. by apply IH. }
    rewrite Hnil, !utally_nil, unlisted_empty in Heq.
    apply list_to_set_disj_inj. rewrite <- Heq. multiset_solver. }
  unfold uploaded_bytes.
  assert (Z.of_nat (length (uploads (trace s'))) = st_num s') as ->.
  { rewrite <- (length_fmap up_PartNumber), Hperm, length_seqZ.
    destruct Hwf as (_&_&_&_&?). lia. }
  rewrite <- Hw. unfold read_so_far. apply bind_ext_in.
  intros k Hk. eapply part_body_reader; [done|]. by rewrite Hperm.
Qed.

(** X5.  In the manifest of a multipart upload that returns an output,
    every part that is listed in the ETag table carries the stored ETag,
    and that ETag is the hex MD5 of the bytes read for the part: a listed
    part is completed only after its checksum was found equal. *)
Theorem listed_parts_are_verified (u : multiuploader) (firstBuf : list byte)
    (fn : closure) (cl : C) (s0 s' : state C) (out : UploadOutput) :
  parts u = [] →
  mu_upload S3 Unquote u firstBuf fn cl = Started s0 →
  reaches s0 s' →
  main s' = PReturned (inr out) →
  ∃ tr manifest,
    trace s' = tr ++ [CompleteMultipartUploadCall (Bucket (in_ (mu_uploader u)))
                        (Key (in_ (mu_uploader u))) (UploadID out) manifest]
    ∧ Forall (λ cp, ∀ e, eTagByPartNumber (mu s0) !! PartNumber cp = Some e →
                ETag cp = Some e
                ∧ EncodeToString
                    (md5_Sum (part_reader (mu_uploader u) firstBuf (PartNumber cp))) = e)
        manifest.
Proof.
  intros Hparts Hstart Hreach Hret.
  pose proof (mu_upload_inv _ _ _ _ _ _ _ Hparts Hstart) as Hinv0.
  apply mu_upload_started in Hstart as (Hfresh & Hu & _ & Hp & Hacq).
  assert (inv s' ∧ data_inv (mu_uploader u) firstBuf s'
          ∧ resume_inv md5_Sum (mu_uploader u) firstBuf s')
    as ((_ & _ & Hretinv & _) & _ & [Hver _]).
  { eapply (reaches_invariant S3 md5_Sum
              (λ s, inv s ∧ data_inv (mu_uploader u) firstBuf s
                    ∧ resume_inv md5_Sum (mu_uploader u) firstBuf s)); [|done|].
    - intros t s1 s2 (Hi & Hd & Hr) Hstep. split_and!.
      + by eapply step_inv_all.
      + eapply step_data_inv; [apply Hi|done..].
      + eapply step_resume_inv; [apply Hi|done..].
    - destruct Hfresh as (Hmu & Hcl & Hch & Hclosed & Hws & Hmain & Hnum & Herr & Hrec & Htr).
      assert (uploads (trace s0) = []) as Hnoup.
      { unfold acquired in Hacq. destruct (existingUploadID _).
        - destruct Hacq as (_ & _ & k & -> & _). apply replicate_no_calls.
        - by destruct Hacq as (xs & resp & _ & _ & -> & _). }
      split_and!; [done| |].
      + unfold data_inv. rewrite Hch, Hws, Hmain, Hnum, Hu, Hnoup.
        split_and!; try done.
        * by apply Forall_singleton.
        * by apply Forall_replicate_WRecv.
      + unfold resume_inv. rewrite Hp, Hparts, Hws. split; [done|].
        by apply Forall_replicate_WRecv. }
  destruct (Hretinv _ Hret) as (_ & _ & Hid & _ & tr & Htr).
  apply reaches_stable in Hreach as (_ & Hm & _ & (Hb & Hk & _) & _).
  exists tr, (parts (mu s')). rewrite Htr, Hb, Hk, Hu, Hid. split; [done|].
  by rewrite <- Hm.
Qed.

(** X10.  A multipart upload never deadlocks and never runs forever: in
    every state that an upload started by [uploader.upload] reaches before
    it has returned, some goroutine can take its next action; and no
    execution has more than 90004 actions plus one per worker. *)
Theorem a_started_upload_runs_to_its_return (u : uploader) (m : multiuploader)
    (firstBuf : list byte) (fn : closure) (cl : C) (s0 : state C) :
  prelude u = Some (m, firstBuf, fn) →
  mu_upload S3 Unquote m firstBuf fn cl = Started s0 →
  (∀ s, reaches s0 s → (∀ r, main s ≠ PReturned r) → ∃ t s', step t s = Some s')
  ∧ (∀ sched s, run sched s0 = Some s →
       Z.of_nat (length sched) ≤ 90004 + Concurrency (cfg (mu_uploader m))).
Proof.
  intros Hpre Hstart.
  destruct (prelude_Concurrency _ _ _ _ Hpre) as [Hconc Hparts].
  pose proof (mu_upload_concurrency _ _ _ _ _ _ _ Hstart) as Hge.
  pose proof (mu_upload_inv _ _ _ _ _ _ _ Hparts Hstart) as Hinv0.
  apply mu_upload_started in Hstart as (Hfresh & Hu & _).
  pose proof Hfresh as (_&_&Hch&Hclosed&Hws&Hmain&Hnum&_).
  split.
  - intros s Hreach Hnr.
    assert (inv s ∧ closing_inv s) as [(Hwf & _) Hcl].
    { eapply (reaches_invariant S3 md5_Sum (λ s, inv s ∧ closing_inv s)); [|done|].
      - intros t s1 s2 [Hi Hc] Hstep. split.
        + by eapply step_inv_all.
        + by eapply step_closing_inv.
      - split; [done|]. unfold closing_inv. by rewrite Hmain. }
    apply reaches_stable in Hreach as (_&_&_&(_&_&_&_&_&_&HC&_)&_).
    destruct (progress S3 md5_Sum s Hwf Hcl) as [[s' Hs]|[i [s' Hs]]]; [|done| |].
    + rewrite HC, Hu. lia.
    + by exists Main, s'.
    + by exists (Worker i), s'.
  - intros sched s Hrun.
    destruct Hinv0 as (Hwf & _).
    pose proof (run_potential _ _ _ _ _ Hwf Hrun) as Hpot.
    assert (Z.of_nat (potential s0) = 90004 + Concurrency (cfg (mu_uploader m))) as Hp0.
    { unfold potential. rewrite Hmain, Hnum, Hch, Hws, Hu. cbn [producer_potential length].
      assert (∀ k, sum_list (worker_potential <$> replicate k WRecv) = k) as ->.
      { induction k as [|k IH]; [done|]. cbn. by rewrite IH. }
      unfold MaxUploadParts. lia. }
    lia.
Qed.

(** X12.  The error of a failed multipart upload names the session and the
    cause: its message is "upload multipart failed, upload id: ID, cause:
    CAUSE", and [Unwrap] yields the cause, the error that the register
    held when the upload returned. *)
Theorem a_failed_upload_names_its_session_and_cause (u : multiuploader)
    (firstBuf : list byte) (fn : closure) (cl : C) (s0 s' : state C) (e : error) :
  mu_upload S3 Unquote u firstBuf fn cl = Started s0 →
  reaches s0 s' →
  main s' = PReturned (inl e) →
  ∃ cause, err (mu s') = Some cause
           ∧ Unwrap e = Some cause
           ∧ Error e = "upload multipart failed, upload id: " +:+ uploadID (mu s0)
                         +:+ ", cause: " +:+ Error cause.
Proof.
  intros Hstart Hreach Hret.
  apply mu_upload_started in Hstart as (Hfresh & _).
  pose proof (reaches_returned _ _ _ _ _ (fresh_not_returned _ _ _ _ _ _ _ Hfresh)
                Hreach Hret) as (cause & Hcause & ->).
  apply reaches_stable in Hreach as (Hid & _). rewrite Hid.
  exists cause. split_and!; try done.
Qed.

(** X14.  With a negative [Concurrency] a fresh multipart upload panics at
    [make(chan chunk, n)], after CreateMultipartUpload has succeeded: the
    session is neither completed nor aborted, and the cleanup of the first
    chunk is not run. *)
Theorem negative_Concurrency_panics_after_CreateMultipartUpload (u : multiuploader)
    (firstBuf : list byte) (fn : closure) (cl cl' : C) (xs : list HttpExchange)
    (resp : CreateMultipartUploadOutput) :
  let i := in_ (mu_uploader u) in
  existingUploadID (mu_uploader u) = None →
  Concurrency (cfg (mu_uploader u)) < 0 →
  CreateMultipartUpload S3 (Bucket i) (Key i) cl = (xs, inr resp, cl') →
  mu_upload S3 Unquote u firstBuf fn cl
  = Panicked [CreateMultipartUploadCall (Bucket i) (Key i)] cl'.
Proof.
  intros i Hfresh Hneg Hcreate. unfold mu_upload, spawn. fold i.
  rewrite Hfresh, Hcreate. cbn.
  by destruct (Z.ltb_spec (Concurrency (cfg (mu_uploader u))) 0); [|lia].
Qed.

End coverage.

(** ** The session of a resumed upload *)

Section session_listing.

Context {C : Type} (S3 : UploadAPIClient C).
Context (Unquote : string → error + string).

Notation stands_for := (stands_for Unquote).

Lemma scanParts_sound (ps : list Part) (m m' : gmap Z string) (b : bool) :
  scanParts Unquote ps m = inr (m', b) →
  (∀ k v, m !! k = Some v → m' !! k = Some v)
  ∧ (∀ k v, m' !! k = Some v →
       m !! k = Some v ∨ ∃ part, part ∈ ps ∧ stands_for k v part).
Proof.
  revert m. induction ps as [|p ps IH]; intros m H; cbn in H.
  - simplify_eq. split; [done|]. by left.
  - destruct (m !! part_PartNumber p) eqn:Hp.
    { simplify_eq. split; [done|]. by left. }
    destruct (Unquote (part_ETag p)) as [e|eTag] eqn:Hq; [done|].
    apply IH in H as (Hkeep & Hfrom). split.
    + intros k v Hk. apply Hkeep. rewrite lookup_insert_ne; [done|]. congruence.
    + intros k v Hk. destruct (Hfrom k v Hk) as [Hin|(part & Hin & Hst)].
      * destruct (decide (part_PartNumber p = k)) as [<-|Hne].
        -- rewrite lookup_insert_eq in Hin. simplify_eq.
           right. exists p. split; [by left|done].
        -- rewrite lookup_insert_ne in Hin by done. by left.
      * right. exists part. split; [by right|done].
Qed.

Lemma scanParts_complete (ps : list Part) (m m' : gmap Z string) (b : bool) :
  scanParts Unquote ps m = inr (m', b) →
  NoDup (part_PartNumber <$> ps) →
  (∀ part, part ∈ ps → m !! part_PartNumber part = None) →
  b = false
  ∧ ∀ part, part ∈ ps → ∃ v, stands_for (part_PartNumber part) v part
                              ∧ m' !! part_PartNumber part = Some v.
Proof.
  revert m. induction ps as [|p ps IH]; intros m H Hnd Hnew; cbn in H.
  - simplify_eq. split; [done|]. intros part Hin. by apply elem_of_nil in Hin.
  - rewrite (Hnew p) in H by (by left).
    destruct (Unquote (part_ETag p)) as [e|eTag] eqn:Hq; [done|].
    rewrite fmap_cons in Hnd. apply NoDup_cons in Hnd as [Hp Hnd].
    pose proof (scanParts_sound _ _ _ _ H) as [Hkeep _].
    apply IH in H as (Hb & Hall); [|done|].
    + split; [done|]. intros part [->|Hin]%elem_of_cons; [|by apply Hall].
      exists eTag. split; [done|]. apply Hkeep. by rewrite lookup_insert_eq.
    + intros part Hin. rewrite lookup_insert_ne; [apply Hnew; by right|].
      intros Heq. apply Hp. rewrite Heq. by apply list_elem_of_fmap_2.
Qed.

Lemma paginate_sound (call : event) (pages : list page) (rec rec' : recordLocationClient)
    (m m' : gmap Z string) (evs : list event) :
  paginate Unquote call pages rec m = (evs, rec', inr m') →
  (∀ k v, m !! k = Some v → m' !! k = Some v)
  ∧ (∀ k v, m' !! k = Some v →
       m !! k = Some v ∨ ∃ part, part ∈ listed pages ∧ stands_for k v part).
Proof.
  revert rec m evs. induction pages as [|[xs r] pages IH]; intros rec m evs H; cbn in H.
  - simplify_eq. split; [done|]. by left.
  - destruct r as [e|out]; [done|].
    destruct (scanParts Unquote (Parts out) m) as [e|[m1 b]] eqn:Hscan; [done|].
    pose proof (scanParts_sound _ _ _ _ Hscan) as [Hkeep1 Hfrom1].
    unfold listed. cbn [mbind list_bind snd]. fold (listed pages).
    assert (∀ k v, m1 !! k = Some v →
              m !! k = Some v
              ∨ ∃ part, part ∈ Parts out ++ listed pages ∧ stands_for k v part) as Hfrom1'.
    { intros k v Hk. destruct (Hfrom1 k v Hk) as [?|(part & Hin & Hst)]; [by left|].
      right. exists part. split; [|done]. apply elem_of_app. by left. }
    destruct b.
    + by simplify_eq.
    + destruct (paginate Unquote call pages (wrapped rec xs) m1) as [[evs1 rec1] res] eqn:Hp.
      simplify_eq. apply IH in Hp as [Hkeep2 Hfrom2]. split; [by auto|].
      intros k v Hk. destruct (Hfrom2 k v Hk) as [Hin|(part & Hin & Hst)].
      * by apply Hfrom1'.
      * right. exists part. split; [|done]. apply elem_of_app. by right.
Qed.

Lemma paginate_complete (call : event) (pages : list page) (rec rec' : recordLocationClient)
    (m m' : gmap Z string) (evs : list event) :
  paginate Unquote call pages rec m = (evs, rec', inr m') →
  NoDup (part_PartNumber <$> listed pages) →
  (∀ part, part ∈ listed pages → m !! part_PartNumber part = None) →
  length evs = length pages
  ∧ ∀ part, part ∈ listed pages →
      ∃ v, stands_for (part_PartNumber part) v part
           ∧ m' !! part_PartNumber part = Some v.
Proof.
  revert rec m evs. induction pages as [|[xs r] pages IH];
    intros rec m evs H Hnd Hnew; cbn in H.
  - simplify_eq. split; [done|]. intros part Hin. by apply elem_of_nil in Hin.
  - destruct r as [e|out]; [done|].
    unfold listed in Hnd, Hnew |- *. cbn [mbind list_bind snd] in Hnd, Hnew |- *.
    fold (listed pages) in Hnd, Hnew |- *.
    rewrite fmap_app in Hnd. apply NoDup_app in Hnd as (Hnd1 & Hdisj & Hnd2).
    destruct (scanParts Unquote (Parts out) m) as [e|[m1 b]] eqn:Hscan; [done|].
    pose proof (scanParts_sound _ _ _ _ Hscan) as [Hkeep1 Hfrom1].
    destruct (scanParts_complete _ _ _ _ Hscan Hnd1) as [-> Hall1].
    { intros part Hin. apply Hnew, elem_of_app. by left. }
    destruct (paginate Unquote call pages (wrapped rec xs) m1) as [[evs1 rec1] res] eqn:Hp.
    simplify_eq.
    pose proof (paginate_sound _ _ _ _ _ _ _ Hp) as [Hkeep2 _].
    apply IH in Hp as [Hlen Hall2]; [|done|].
    + split; [cbn; by rewrite Hlen|].
      intros part [Hin|Hin]%elem_of_app; [|by apply Hall2].
      destruct (Hall1 part Hin) as (v & Hst & Hv). exists v. split; [done|]. by apply Hkeep2.
    + intros part Hin.
      destruct (m1 !! part_PartNumber part) as [v|] eqn:Hv; [|done].
      destruct (Hfrom1 _ _ Hv) as [Hm|(part' & Hin' & [Hnum _])].
      * rewrite Hnew in Hm; [done|]. apply elem_of_app. by right.
      * exfalso. apply (Hdisj (part_PartNumber part)).
        -- rewrite <- Hnum. by apply list_elem_of_fmap_2.
        -- by apply list_elem_of_fmap_2.
Qed.

(** X6.  What a resumed upload knows of the session: every entry of the
    ETag table stands for a part that ListParts listed under that number,
    with its ETag unquoted; and when the pages list no part number twice,
    every page was fetched and every listed part has its entry. *)
Theorem the_ETag_table_holds_the_listed_parts (u : multiuploader) (firstBuf : list byte)
    (fn : closure) (cl : C) (s0 : state C) (id : string) :
  existingUploadID (mu_uploader u) = Some id →
  eTagByPartNumber u = ∅ →
  mu_upload S3 Unquote u firstBuf fn cl = Started s0 →
  let i := in_ (mu_uploader u) in
  let pages := NewListPartsPaginator S3 (Bucket i) (Key i) id cl in
  (∀ k v, eTagByPartNumber (mu s0) !! k = Some v →
          ∃ part, part ∈ listed pages ∧ stands_for k v part)
  ∧ (NoDup (part_PartNumber <$> listed pages) →
     trace s0 = replicate (length pages) (ListPartsCall (Bucket i) (Key i) id)
     ∧ ∀ part, part ∈ listed pages →
         ∃ v, stands_for (part_PartNumber part) v part
              ∧ eTagByPartNumber (mu s0) !! part_PartNumber part = Some v).
Proof.
  intros Hid Hempty Hstart i pages.
  unfold mu_upload in Hstart. rewrite Hid in Hstart. fold i pages in Hstart.
  destruct (paginate _ _ _ _ _) as [[evs rec] r] eqn:Hpag.
  destruct r as [e|m]; [done|].
  apply spawn_fresh in Hstart as (Hmu & _ & _ & _ & _ & _ & _ & _ & _ & Htr).
  rewrite Hmu, Htr. cbn [eTagByPartNumber].
  cbn [eTagByPartNumber] in Hpag. rewrite Hempty in Hpag.
  split.
  - intros k v Hk. apply paginate_sound in Hpag as [_ Hfrom].
    destruct (Hfrom k v Hk) as [Hin|?]; [|done]. by rewrite lookup_empty in Hin.
  - intros Hnd.
    pose proof (paginate_spec _ _ _ _ _ _ _ _ Hpag) as (Hevs & _).
    apply paginate_complete in Hpag as [Hlen Hall]; [|done|].
    + split; [by rewrite <- Hlen|done].
    + intros part _. apply lookup_empty.
Qed.

End session_listing.

(** ** What follows a failure *)

Ltac open_step H := cbn [step] in H.

Section failures.

Context {C : Type} (S3 : UploadAPIClient C).
Context (md5_Sum : list byte → list byte).

Notation step := (step S3 md5_Sum).
Notation run := (run S3 md5_Sum).
Notation reaches := (reaches S3 md5_Sum).

Lemma step_doomed (t : thread) (s s' : state C) :
  doomed s → step t s = Some s' → doomed s'.
Proof.
  intros Hd H. pose proof (step_stable _ _ _ _ _ H) as (_&_&_&_&_&Hkeep).
  destruct Hd as [Herr|[[e He]|(i & e & c & Hi)]]; [left; auto|..].
  - destruct t as [|j]; open_step H.
    + unfold step_main in H. rewrite He in H. simplify_eq. left. by eexists.
    + right. left. exists e. rewrite <- He.
      unfold step_worker in H. destruct (workers s !! j) as [w|]; [|done].
      cbn in H. unfold check, send in H. repeat case_match; simplify_eq; done.
  - destruct t as [|j]; open_step H.
    + right. right. exists i, e, c. rewrite <- Hi.
      unfold step_main, complete, fail in H.
      repeat case_match; simplify_eq; done.
    + destruct (decide (i = j)) as [->|Hne].
      * unfold step_worker in H. rewrite Hi in H. cbn in H. simplify_eq.
        left. by eexists.
      * right. right. exists i, e, c.
        unfold step_worker in H. destruct (workers s !! j) as [w|]; [|done].
        cbn in H. unfold check, send in H.
        repeat case_match; simplify_eq; cbn; rewrite ?list_lookup_insert_ne; done.
Qed.

Lemma step_after_failure (t : thread) (s s' : state C) :
  wf s → is_Some (err (mu s)) → step t s = Some s' →
  numbering_budget s' ≤ numbering_budget s
  ∧ (request_budget s' ≤ request_budget s)%nat.
Proof.
  intros (Hlen & Hcap & Hclosed & Hdone & Hnum) [e0 Herr] H.
  unfold numbering_budget, request_budget.
  step_inv H; simpl_st.
  all: try match goal with
           | Hw : workers _ !! ?i = Some ?w |- context [<[?i:=?w']> (workers _)] =>
               pose proof (sum_list_insert about_to_send _ i w w' Hw) as Hex;
               cbn [about_to_send] in Hex
           end.
  all: try match goal with
           | H : shouldContinue _ _ _ _ = (?b, _), H' : negb ?b = false |- _ =>
               destruct b; [|done];
               apply shouldContinue_true in H as (?&?&?&?&?); simpl_st;
               rewrite next_part_number in * by lia
           end.
  all: repeat match goal with H : main _ = _ |- _ => rewrite H in * end.
  all: cbn [about_to_read] in *.
  all: unfold uploads in *; rewrite ?omap_app, ?length_app; cbn [omap list_omap length].
  all: try (unfold geterr in *; congruence).
  all: try (split; lia).
Qed.

Lemma step_no_completion (t : thread) (s s' : state C) :
  doomed s → complete_calls (trace s) = [] → step t s = Some s' →
  complete_calls (trace s') = [].
Proof.
  intros Hd Hnone H.
  assert (main s = PWait → all_done (workers s) = true → is_Some (err (mu s))) as Herr.
  { intros Hm Hall. destruct Hd as [?|[[e He]|(i & e & c & Hi)]]; [done|congruence|].
    by pose proof (all_done_lookup _ _ _ Hall Hi). }
  step_inv H; simpl_st.
  all: unfold complete_calls in *; rewrite ?omap_app, ?Hnone; cbn [omap list_omap app].
  all: try done.
  all: try (destruct Herr as [? ?]; [done..|]; unfold geterr in *; congruence).
Qed.

Context (Unquote : string → error + string).

Lemma returned_manifest (s : state C) (out : UploadOutput) :
  inv s → main s = PReturned (inr out) →
  PartNumber <$> parts (mu s) = seqZ 1 (st_num s).
Proof.
  intros (_ & _ & Hretinv & Hcalls & _) Hret.
  destruct (Hretinv _ Hret) as (_ & _ & _ & _ & tr & Htr).
  unfold calls_inv in Hcalls. rewrite Hret, Htr in Hcalls.
  unfold complete_calls in Hcalls. rewrite omap_app in Hcalls. cbn in Hcalls.
  destruct Hcalls as [Hnil|(m & Hm & Hseq)].
  { by apply app_eq_nil in Hnil as [_ ?]. }
  apply app_singleton in Hm as [[_ Heq]|[_ ?]]; [|done]. by simplify_eq.
Qed.

(** X24.  No error is swallowed: once a goroutine of a multipart upload has
    an error to record (a failed UploadPart request, a checksum that does
    not match, a failed read or the part limit) or has recorded one, the
    upload cannot return an output; what it returns is an error with the
    session's upload ID. *)
Theorem no_error_is_swallowed (u : multiuploader) (firstBuf : list byte)
    (fn : closure) (cl : C) (s0 s s' : state C) (r : error + UploadOutput) :
  mu_upload S3 Unquote u firstBuf fn cl = Started s0 →
  reaches s0 s →
  doomed s →
  reaches s s' →
  main s' = PReturned r →
  ∃ cause, r = inl (multiUploadError (Some cause) (uploadID (mu s0))).
Proof.
  intros Hstart Hreach0 Hd Hreach Hret.
  apply mu_upload_started in Hstart as (Hfresh & _).
  assert (reaches s0 s') as Hreach' by (by eapply reaches_trans).
  pose proof (reaches_returned _ _ _ _ _ (fresh_not_returned _ _ _ _ _ _ _ Hfresh)
                Hreach' Hret) as Hras.
  assert (returned_inv s') as Hretinv.
  { eapply (reaches_invariant S3 md5_Sum returned_inv); [|exact Hreach'|].
    - intros t s1 s2. apply step_returned_inv.
    - intros r0 Hr0. by destruct (fresh_not_returned _ _ _ _ _ _ _ Hfresh r0). }
  assert (doomed s') as Hd'.
  { eapply (reaches_invariant S3 md5_Sum doomed); [|exact Hreach|exact Hd].
    intros t s1 s2. apply step_doomed. }
  apply reaches_stable in Hreach' as (Hid & _).
  destruct (Hretinv _ Hret) as [Hall _].
  assert (is_Some (err (mu s'))) as [e He].
  { destruct Hd' as [?|[[e He]|(i & e & c & Hi)]]; [done|congruence|].
    by pose proof (all_done_lookup _ _ _ Hall Hi). }
  destruct r as [x|out].
  - destruct Hras as (cause & _ & ->). exists cause. by rewrite Hid.
  - destruct Hras as (Hnone & _). congruence.
Qed.

(** X25.  A multipart upload with an error never completes the object: once
    a goroutine has an error to record or has recorded one, and the call
    has not returned yet, no CompleteMultipartUpload request is made. *)
Theorem no_completion_after_an_error (u : multiuploader) (firstBuf : list byte)
    (fn : closure) (cl : C) (s0 s s' : state C) :
  parts u = [] →
  mu_upload S3 Unquote u firstBuf fn cl = Started s0 →
  reaches s0 s →
  doomed s →
  (∀ r, main s ≠ PReturned r) →
  reaches s s' →
  complete_calls (trace s') = [].
Proof.
  intros Hparts Hstart Hreach0 Hd Hrun Hreach.
  pose proof (mu_upload_inv _ _ _ _ _ _ _ Hparts Hstart) as Hinv0.
  pose proof (reaches_inv _ _ _ _ Hreach0 Hinv0) as (_ & _ & _ & Hcalls & _).
  assert (complete_calls (trace s) = []) as Hnone.
  { unfold calls_inv in Hcalls. destruct (main s) eqn:Hm; try done.
    by destruct (Hrun r). }
  assert (doomed s' ∧ complete_calls (trace s') = []) as [_ ?]; [|done].
  eapply (reaches_invariant S3 md5_Sum
            (λ x, doomed x ∧ complete_calls (trace x) = [])); [|exact Hreach|done].
  intros t s1 s2 [Hd1 Hn1] Hstep. split.
  - by eapply step_doomed.
  - by eapply step_no_completion.
Qed.

(** X26.  The work done after a failure is bounded: once an error is in
    the register, the producer numbers at most one more part, and only if
    it had already decided to read; and the workers make at most one more
    UploadPart request each, and only those that had already decided to
    send. *)
Theorem work_after_a_failure_is_bounded (u : multiuploader) (firstBuf : list byte)
    (fn : closure) (cl : C) (s0 s s' : state C) :
  parts u = [] →
  mu_upload S3 Unquote u firstBuf fn cl = Started s0 →
  reaches s0 s →
  is_Some (err (mu s)) →
  reaches s s' →
  st_num s' ≤ st_num s + about_to_read (main s)
  ∧ (length (uploads (trace s'))
     ≤ length (uploads (trace s)) + sum_list (about_to_send <$> workers s))%nat
  ∧ (sum_list (about_to_send <$> workers s) ≤ length (workers s))%nat.
Proof.
  intros Hparts Hstart Hreach0 Herr Hreach.
  pose proof (mu_upload_inv _ _ _ _ _ _ _ Hparts Hstart) as Hinv0.
  pose proof (reaches_inv _ _ _ _ Hreach0 Hinv0) as (Hwf & _).
  assert (wf s' ∧ is_Some (err (mu s'))
          ∧ numbering_budget s' ≤ numbering_budget s
          ∧ (request_budget s' ≤ request_budget s)%nat) as (_ & _ & Hn & Hr).
  { eapply (reaches_invariant S3 md5_Sum
              (λ x, wf x ∧ is_Some (err (mu x))
                    ∧ numbering_budget x ≤ numbering_budget s
                    ∧ (request_budget x ≤ request_budget s)%nat));
      [|exact Hreach|split_and!; try done; lia].
    intros t s1 s2 (Hw1 & He1 & Hn1 & Hr1) Hstep.
    destruct (step_after_failure _ _ _ Hw1 He1 Hstep) as [Hn2 Hr2].
    split_and!; [by eapply step_wf| |lia|lia].
    by apply step_stable in Hstep as (_&_&_&_&_&Hkeep); apply Hkeep. }
  unfold numbering_budget, request_budget in *. split_and!.
  - destruct (main s'); cbn [about_to_read] in Hn; lia.
  - lia.
  - clear. induction (workers s) as [|w ws IH]; [done|].
    cbn. destruct w; cbn; lia.
Qed.

(** X27.  A resumed upload whose local bytes differ from a listed part
    fails: if a part numbered by the producer has an entry in the ETag
    table that is not the hex MD5 of the bytes read for it, the upload
    returns an error. *)
Theorem a_changed_part_fails_the_resumed_upload (u : multiuploader)
    (firstBuf : list byte) (fn : closure) (cl : C) (s0 s' : state C)
    (r : error + UploadOutput) (k : Z) (e : string) :
  parts u = [] →
  mu_upload S3 Unquote u firstBuf fn cl = Started s0 →
  reaches s0 s' →
  main s' = PReturned r →
  eTagByPartNumber (mu s0) !! k = Some e →
  1 ≤ k ≤ st_num s' →
  EncodeToString (md5_Sum (part_reader (mu_uploader u) firstBuf k)) ≠ e →
  ∃ cause, r = inl (multiUploadError (Some cause) (uploadID (mu s0))).
Proof.
  intros Hparts Hstart Hreach Hret Hk Hrange Hne.
  pose proof (mu_upload_inv _ _ _ _ _ _ _ Hparts Hstart) as Hinv0.
  apply mu_upload_started in Hstart as (Hfresh & Hu & _ & Hp & Hacq).
  pose proof (reaches_returned _ _ _ _ _ (fresh_not_returned _ _ _ _ _ _ _ Hfresh)
                Hreach Hret) as Hras.
  destruct r as [x|out].
  { destruct Hras as (cause & _ & ->). exists cause.
    by apply reaches_stable in Hreach as (-> & _). }
  exfalso.
  assert (inv s' ∧ data_inv (mu_uploader u) firstBuf s'
          ∧ resume_inv md5_Sum (mu_uploader u) firstBuf s')
    as (Hinv & _ & [Hver _]).
  { eapply (reaches_invariant S3 md5_Sum
              (λ s, inv s ∧ data_inv (mu_uploader u) firstBuf s
                    ∧ resume_inv md5_Sum (mu_uploader u) firstBuf s)); [|done|].
    - intros t s1 s2 (Hi & Hd & Hr) Hstep. split_and!.
      + by eapply step_inv_all.
      + eapply step_data_inv; [apply Hi|done..].
      + eapply step_resume_inv; [apply Hi|done..].
    - destruct Hfresh as (Hmu & Hcl & Hch & Hclosed & Hws & Hmain & Hnum & Herr & Hrec & Htr).
      assert (uploads (trace s0) = []) as Hnoup.
      { unfold acquired in Hacq. destruct (existingUploadID _).
        - destruct Hacq as (_ & _ & n & -> & _). apply replicate_no_calls.
        - by destruct Hacq as (xs & resp & _ & _ & -> & _). }
      split_and!; [done| |].
      + unfold data_inv. rewrite Hch, Hws, Hmain, Hnum, Hu, Hnoup.
        split_and!; try done.
        * by apply Forall_singleton.
        * by apply Forall_replicate_WRecv.
      + unfold resume_inv. rewrite Hp, Hparts, Hws. split; [done|].
        by apply Forall_replicate_WRecv. }
  pose proof (returned_manifest _ _ Hinv Hret) as Hman.
  assert (k ∈ PartNumber <$> parts (mu s')) as Hin.
  { rewrite Hman. apply elem_of_seqZ. lia. }
  apply list_elem_of_fmap in Hin as (cp & -> & Hcp).
  rewrite Forall_forall in Hver.
  apply reaches_stable in Hreach as (_ & Hm & _).
  destruct (Hver cp Hcp e) as [_ Hsum]; [by rewrite Hm|]. done.
Qed.

End failures.

(** ** The further properties at concrete inputs *)

Import Cases.

(** A buffer of two bytes, filled from a stream that delivers two bytes
    and then one. *)
Lemma readFillBuf_fills_without_loss_witness :
  let r := [([x01; x02], None); ([x03], None)] in
  readFillBuf r 2 = ([x01; x02], None, [([x03], None)])
  ∧ Z.of_nat (length [x01; x02]) ≤ 2
  ∧ (@None error = None → Z.of_nat (length [x01; x02]) = 2)
  ∧ stream_bytes r = [x01; x02] ++ stream_bytes [([x03], None)].
Proof.
  intros r. split; [reflexivity|].
  apply (readFillBuf_fills_without_loss r [([x03], None)] 2 [x01; x02] None
           (eq_refl : readFillBuf r 2 = ([x01; x02], None, [([x03], None)]))).
  lia.
Defined.

(** The stream of five bytes is handed out as two full readers and a last
    one of one byte. *)
Lemma readers_hold_the_whole_body_witness :
  readers_bytes (read_all 3 streamed) = five
  ∧ ∃ xs x, read_all 3 streamed = xs ++ [x]
            ∧ x.2 = Some io_EOF
            ∧ Forall (λ y, Z.of_nat (length y.1.1.1) = 2 ∧ y.2 = None) xs.
Proof.
  apply (readers_hold_the_whole_body 3 streamed).
  - split; [reflexivity|]. split; [|constructor].
    repeat constructor.
  - vm_compute. reflexivity.
Defined.

(** Of the stream that breaks after four bytes, the readers hold the
    first four. *)
Lemma sequential_readers_are_a_prefix_witness :
  readers_bytes (read_all 3 broken_stream) = [x01; x02; x03; x04]
  ∧ readers_bytes (read_all 3 broken_stream) `prefix_of` five.
Proof.
  split; [reflexivity|].
  apply (sequential_readers_are_a_prefix 3 broken_stream
           [([x01; x02; x03], None);
            ([x04], Some (External "connection reset"));
            ([x05], None)]).
  - reflexivity.
  - vm_compute. discriminate.
Defined.

(** The default part size survives the 50 GiB body: it is raised. *)
Lemma valid_part_size_survives_init_witness :
  ∃ u', init fifty_GiB = inr u'
        ∧ PartSize (defaulted (cfg fifty_GiB)) ≤ PartSize (cfg u')
        ∧ MinUploadPartSize ≤ PartSize (cfg u')
        ∧ ∀ cl r, upload healthy unquote fifty_GiB cl ≠ Returned [] cl r.
Proof.
  apply (valid_part_size_survives_init healthy unquote fifty_GiB).
  - right. vm_compute. discriminate.
  - vm_compute. discriminate.
  - intros len [= <-]. exists 53687091200. split; [reflexivity|].
    vm_compute. split; [discriminate|reflexivity].
Defined.

(** A part limit of -1 and a seekable stream of 100 bytes. *)
Lemma negative_MaxUploadParts_rejects_seekable_bodies_witness :
  Upload healthy unquote negative_limit hundred [] tt
  = Returned [] tt (inl (Errorf "part size must be at least 5242880 bytes"))
  ∧ ResumeUpload healthy unquote negative_limit hundred (Some "upload-1") [] tt
    = Returned [] tt (inl (Errorf "part size must be at least 5242880 bytes")).
Proof.
  apply (negative_MaxUploadParts_rejects_seekable_bodies healthy unquote
           negative_limit hundred (Some "upload-1") [] tt 100).
  - reflexivity.
  - vm_compute. split; [discriminate|reflexivity].
  - vm_compute. discriminate.
  - vm_compute. reflexivity.
Defined.

(** A stream whose length cannot be found. *)
Lemma seek_failure_is_reported_witness :
  let failure := ErrorfW "unable to initialize upload: " (External "seek failed") in
  Upload healthy unquote options unseekable [] tt = Returned [] tt (inl failure)
  ∧ ResumeUpload healthy unquote options unseekable (Some "upload-1") [] tt
    = Returned [] tt (inl failure)
  ∧ Error failure = "unable to initialize upload: seek failed"
  ∧ Unwrap failure = Some (External "seek failed").
Proof.
  apply (seek_failure_is_reported healthy unquote options unseekable
           (Some "upload-1") [] tt (External "seek failed")).
  reflexivity.
Defined.

(** A stream whose first read fails. *)
Lemma first_read_failure_is_reported_witness :
  upload healthy unquote (mkuploader options unreadable None 0 0 0) tt
  = Returned [CleanupCall (mkClosure 0 PoolPut)] tt
      (inl (ErrorfW "read upload data failed: " (External "connection reset"))).
Proof.
  apply (first_read_failure_is_reported healthy unquote
           (mkuploader options unreadable None 0 0 0)
           (mkuploader filled_in unreadable None 0 (-1) 0)
           (nextReader (mkuploader filled_in unreadable None 0 (-1) 0)).2
           tt [] 0 (mkClosure 0 PoolPut) (External "connection reset")).
  - vm_compute. reflexivity.
  - vm_compute. discriminate.
  - vm_compute. reflexivity.
  - discriminate.
Defined.

(** Five bytes, with a session to resume: one PutObject request, and the
    session is left alone. *)
Lemma a_short_body_goes_in_one_PutObject_witness :
  ∃ fn cl' r,
    upload healthy unquote (mkuploader options short (Some "upload-1") 0 0 0) tt
    = Returned [PutObjectCall "bucket" "key" five; CleanupCall fn] cl' r
    ∧ match r with inl _ => True | inr out => UploadID out = "" end.
Proof.
  apply (a_short_body_goes_in_one_PutObject healthy unquote
           (mkuploader options short (Some "upload-1") 0 0 0)
           (mkuploader filled_in short (Some "upload-1") 0 5 0) tt).
  - vm_compute. reflexivity.
  - vm_compute. discriminate.
  - split; [reflexivity|]. split; [reflexivity|].
    split; [vm_compute; split; discriminate|reflexivity].
  - vm_compute. reflexivity.
Defined.

(** A fresh upload whose every UploadPart request fails: the call returns
    an error after one AbortMultipartUpload request, its last call. *)
Lemma abort_only_after_failure_witness :
  let s0 := begun broken_parts options three_parts None in
  let s' := finished broken_parts s0 in
  main s' = PReturned (inl (multiUploadError (Some (External "part 1 failed")) "upload-1"))
  ∧ match main s' with
    | PReturned (inl _) =>
        if LeavePartsOnError (cfg (mu_uploader (coordinator options three_parts None)))
        then abort_calls (trace s') = []
        else ∃ tr, trace s' = tr ++ [AbortMultipartUploadCall "bucket" "key"
                                       (uploadID (mu s0))]
                   ∧ abort_calls tr = []
    | _ => abort_calls (trace s') = []
    end.
Proof.
  intros s0 s'. split; [vm_compute; reflexivity|].
  apply (abort_only_after_failure broken_parts digest unquote
           (coordinator options three_parts None)
           (first_chunk options three_parts None)
           (first_cleanup options three_parts None) tt s0 s').
  - vm_compute. reflexivity.
  - apply reaches_run_policy.
Defined.

(** Every call of the fresh three-part upload names the bucket, the key
    and the session. *)
Lemma every_call_is_for_the_session_witness :
  let s0 := begun healthy options three_parts None in
  let s' := finished healthy s0 in
  uploadID (mu s0) = "upload-1"
  ∧ Forall (addressed three_parts (uploadID (mu s0))) (trace s').
Proof.
  intros s0 s'. split; [vm_compute; reflexivity|].
  apply (every_call_is_for_the_session healthy digest unquote
           (coordinator options three_parts None)
           (first_chunk options three_parts None)
           (first_cleanup options three_parts None) tt s0 s').
  - vm_compute. reflexivity.
  - apply reaches_run_policy.
Defined.

(** With a limit of two parts and a body that never ends, part 3 is never
    numbered. *)
Lemma part_numbers_stay_within_the_limit_witness :
  let s0 := begun healthy two_parts_at_most endless None in
  let s' := finished healthy s0 in
  1 ≤ st_num s' ≤ 2
  ∧ Forall (λ p, 1 ≤ up_PartNumber p ≤ 2) (uploads (trace s'))
  ∧ Forall (λ m, Z.of_nat (length m) ≤ 2) (complete_calls (trace s')).
Proof.
  intros s0 s'.
  apply (part_numbers_stay_within_the_limit healthy digest unquote
           (coordinator two_parts_at_most endless None)
           (first_chunk two_parts_at_most endless None)
           (first_cleanup two_parts_at_most endless None) tt s0 s').
  - reflexivity.
  - vm_compute. reflexivity.
  - apply reaches_run_policy.
Defined.

(** The part numbers requested by the fresh three-part upload. *)
Lemma no_part_is_requested_twice_witness :
  let s0 := begun healthy options three_parts None in
  let s' := finished healthy s0 in
  up_PartNumber <$> uploads (trace s') = [1; 2; 3]
  ∧ NoDup (up_PartNumber <$> uploads (trace s')).
Proof.
  intros s0 s'. split; [vm_compute; reflexivity|].
  apply (no_part_is_requested_twice healthy digest unquote
           (coordinator options three_parts None)
           (first_chunk options three_parts None)
           (first_cleanup options three_parts None) tt s0 s').
  - reflexivity.
  - vm_compute. reflexivity.
  - apply reaches_run_policy.
Defined.

(** Resuming with parts 1 and 2 listed: part 3 alone is requested. *)
Lemma every_unlisted_part_is_sent_once_witness :
  let s0 := begun resumable options three_parts (Some "upload-1") in
  let s' := finished resumable s0 in
  st_num s' = 3
  ∧ up_PartNumber <$> uploads (trace s') = [3]
  ∧ up_PartNumber <$> uploads (trace s')
    ≡ₚ unlisted (eTagByPartNumber (mu s0)) (seqZ 1 (st_num s'))
  ∧ (eTagByPartNumber (mu s0) = ∅ →
     up_PartNumber <$> uploads (trace s') ≡ₚ seqZ 1 (st_num s')).
Proof.
  intros s0 s'. split; [vm_compute; reflexivity|]. split; [vm_compute; reflexivity|].
  apply (every_unlisted_part_is_sent_once resumable digest unquote
           (coordinator options three_parts (Some "upload-1"))
           (first_chunk options three_parts (Some "upload-1"))
           (first_cleanup options three_parts (Some "upload-1")) tt s0 s'
           (mkUploadOutput "https://bucket.s3.amazonaws.com/key" (Some "v1") "upload-1")).
  - reflexivity.
  - vm_compute. reflexivity.
  - apply reaches_run_policy.
  - vm_compute. reflexivity.
Defined.

(** The bodies of the requests of the five-byte upload are the readers of
    their parts. *)
Lemma requests_carry_the_readers_bytes_witness :
  let s' := ended healthy (started_from healthy in_memory) in
  up_Body <$> uploads (trace s') = [[x01; x02]; [x03; x04]; [x05]]
  ∧ Forall (λ p, up_Body p
                 = part_reader (mu_uploader (taking_over in_memory))
                     (first_reader in_memory) (up_PartNumber p))
      (uploads (trace s')).
Proof.
  intros s'. split; [vm_compute; reflexivity|].
  apply (requests_carry_the_readers_bytes healthy digest unquote
           (taking_over in_memory) (first_reader in_memory) (first_closure in_memory)
           tt (started_from healthy in_memory) s').
  - reflexivity.
  - vm_compute. reflexivity.
  - apply reaches_run_policy.
Defined.

(** The five bytes, uploaded in parts of two from memory: the bodies of
    the three requests make up the five bytes. *)
Lemma uploaded_parts_make_up_the_body_witness :
  uploaded_bytes (trace (ended healthy (started_from healthy in_memory))) = five.
Proof.
  apply (uploaded_parts_make_up_the_body healthy digest unquote
           in_memory (nextReader in_memory).2 (first_reader in_memory) 2
           (first_closure in_memory) tt (started_from healthy in_memory)
           (ended healthy (started_from healthy in_memory))
           (mkUploadOutput "https://bucket.s3.amazonaws.com/key" (Some "v1") "upload-1")).
  - split; [reflexivity|]. split; [reflexivity|].
    split; [vm_compute; split; discriminate|reflexivity].
  - reflexivity.
  - vm_compute. reflexivity.
  - vm_compute. reflexivity.
  - apply reaches_run_policy.
  - vm_compute. reflexivity.
Defined.

(** The fresh three-part upload: in its first state the producer can act,
    and no execution is longer than 90006 actions. *)
Lemma a_started_upload_runs_to_its_return_witness :
  let s0 := begun healthy options three_parts None in
  (∀ s, reaches healthy digest s0 s → (∀ r, main s ≠ PReturned r) →
        ∃ t s', step healthy digest t s = Some s')
  ∧ (∀ sched s, run healthy digest sched s0 = Some s →
       Z.of_nat (length sched) ≤ 90004 + 2).
Proof.
  intros s0.
  apply (a_started_upload_runs_to_its_return healthy digest unquote
           (mkuploader options three_parts None 0 0 0)
           (coordinator options three_parts None)
           (first_chunk options three_parts None)
           (first_cleanup options three_parts None) tt s0).
  - vm_compute. reflexivity.
  - vm_compute. reflexivity.
Defined.

(** What the caller reads when every UploadPart request fails. *)
Lemma a_failed_upload_names_its_session_and_cause_witness :
  let s0 := begun broken_parts options three_parts None in
  let s' := finished broken_parts s0 in
  let e := multiUploadError (Some (External "part 1 failed")) "upload-1" in
  Error e = "upload multipart failed, upload id: upload-1, cause: part 1 failed"
  ∧ ∃ cause, err (mu s') = Some cause
             ∧ Unwrap e = Some cause
             ∧ Error e = "upload multipart failed, upload id: " +:+ uploadID (mu s0)
                           +:+ ", cause: " +:+ Error cause.
Proof.
  intros s0 s' e. split; [reflexivity|].
  apply (a_failed_upload_names_its_session_and_cause broken_parts digest unquote
           (coordinator options three_parts None)
           (first_chunk options three_parts None)
           (first_cleanup options three_parts None) tt s0 s' e).
  - vm_compute. reflexivity.
  - apply reaches_run_policy.
  - vm_compute. reflexivity.
Defined.

(** Minus one worker: the session is created and the call panics. *)
Lemma negative_Concurrency_panics_after_CreateMultipartUpload_witness :
  let u := mkmultiuploader (mkuploader negative_workers three_parts None 5242880 10485761 1)
             None "" [] ∅ in
  mu_upload healthy unquote u [x01; x02; x03] (mkClosure 0 NoOp) tt
  = Panicked [CreateMultipartUploadCall "bucket" "key"] tt.
Proof.
  intros u.
  apply (negative_Concurrency_panics_after_CreateMultipartUpload healthy unquote u
           [x01; x02; x03] (mkClosure 0 NoOp) tt tt [round_trip]
           {| UploadId := "upload-1" |}).
  - reflexivity.
  - vm_compute. reflexivity.
  - reflexivity.
Defined.

(** Resuming with parts 1 and 2 listed: the manifest carries their stored
    ETags, which are the MD5 digests of the bytes read for them. *)
Lemma listed_parts_are_verified_witness :
  let s0 := begun resumable options three_parts (Some "upload-1") in
  let s' := finished resumable s0 in
  eTagByPartNumber (mu s0) !! 1 = Some "5289df737df57326fcdd22597afb1fac"
  ∧ ∃ tr manifest,
      trace s' = tr ++ [CompleteMultipartUploadCall "bucket" "key" "upload-1" manifest]
      ∧ Forall (λ cp, ∀ e, eTagByPartNumber (mu s0) !! PartNumber cp = Some e →
                  ETag cp = Some e
                  ∧ EncodeToString
                      (digest (part_reader
                                 (mu_uploader (coordinator options three_parts
                                                 (Some "upload-1")))
                                 (first_chunk options three_parts (Some "upload-1"))
                                 (PartNumber cp))) = e)
          manifest.
Proof.
  intros s0 s'. split; [vm_compute; reflexivity|].
  apply (listed_parts_are_verified resumable digest unquote
           (coordinator options three_parts (Some "upload-1"))
           (first_chunk options three_parts (Some "upload-1"))
           (first_cleanup options three_parts (Some "upload-1")) tt s0 s'
           (mkUploadOutput "https://bucket.s3.amazonaws.com/key" (Some "v1") "upload-1")).
  - reflexivity.
  - vm_compute. reflexivity.
  - apply reaches_run_policy.
  - vm_compute. reflexivity.
Defined.

(** The one page of the session lists parts 1 and 2: both are in the
    table, and nothing else is. *)
Lemma the_ETag_table_holds_the_listed_parts_witness :
  let u := coordinator options three_parts (Some "upload-1") in
  let s0 := begun resumable options three_parts (Some "upload-1") in
  (∀ k v, eTagByPartNumber (mu s0) !! k = Some v →
          ∃ part, part ∈ listed listing ∧ stands_for unquote k v part)
  ∧ (NoDup (part_PartNumber <$> listed listing) →
     trace s0 = replicate (length listing) (ListPartsCall "bucket" "key" "upload-1")
     ∧ ∀ part, part ∈ listed listing →
         ∃ v, stands_for unquote (part_PartNumber part) v part
              ∧ eTagByPartNumber (mu s0) !! part_PartNumber part = Some v).
Proof.
  intros u s0.
  apply (the_ETag_table_holds_the_listed_parts resumable unquote u
           (first_chunk options three_parts (Some "upload-1"))
           (first_cleanup options three_parts (Some "upload-1")) tt s0 "upload-1").
  - vm_compute. reflexivity.
  - vm_compute. reflexivity.
  - vm_compute. reflexivity.
Defined.

(** The closures of the fresh three-part upload are run once each. *)
Lemma cleanup_runs_once_after_acquisition_witness :
  let s0 := begun healthy options three_parts None in
  let s' := finished healthy s0 in
  cl_id <$> cleaned (trace s') = [0; 1; 2]%nat
  ∧ cl_id <$> cleaned (trace s') ≡ₚ seq 0 (nreaders (mu_uploader (mu s'))).
Proof.
  intros s0 s'. split; [vm_compute; reflexivity|].
  apply (cleanup_runs_once_after_acquisition healthy digest unquote
           (coordinator options three_parts None)
           (first_chunk options three_parts None)
           (first_cleanup options three_parts None) tt s0 s'
           (inr (mkUploadOutput "https://bucket.s3.amazonaws.com/key" (Some "v1")
                   "upload-1"))).
  - reflexivity.
  - vm_compute. reflexivity.
  - vm_compute. reflexivity.
  - vm_compute. reflexivity.
  - apply reaches_run_policy.
  - vm_compute. reflexivity.
Defined.

(** 50 GiB in memory at the default part size: never more than 10000
    readers. *)
Lemma random_access_parts_within_limit_witness :
  let u := mkuploader (mkUploader 5242880 5 false 10000 false [])
             (request (ReaderAtSeeker (inr 53687091200) [])) None 0 0 0 in
  ∃ u', initSize u = inr u'
        ∧ ∀ fuel, Z.of_nat (length (read_all fuel u')) ≤ 10000.
Proof.
  intros u.
  apply (random_access_parts_within_limit u 53687091200 []).
  - reflexivity.
  - reflexivity.
  - vm_compute. split; [discriminate|reflexivity].
  - vm_compute. discriminate.
  - vm_compute. discriminate.
Defined.

(** A client that refuses to create the session. *)
Lemma create_failure_is_returned_unwrapped_witness :
  let u := coordinator options three_parts None in
  mu_upload no_session unquote u (first_chunk options three_parts None)
    (first_cleanup options three_parts None) tt
  = Returned [CreateMultipartUploadCall "bucket" "key";
              CleanupCall (first_cleanup options three_parts None)] tt
      (inl (External "AccessDenied")).
Proof.
  intros u.
  apply (create_failure_is_returned_unwrapped no_session unquote u
           (first_chunk options three_parts None)
           (first_cleanup options three_parts None) tt tt [round_trip]
           (External "AccessDenied")).
  - vm_compute. reflexivity.
  - vm_compute. reflexivity.
Defined.

(** Both UploadPart requests have failed and no error is recorded yet:
    the call returns an error. *)
Lemma no_error_is_swallowed_witness :
  let s0 := begun broken_parts options three_parts None in
  let s := after broken_parts requests_fail s0 in
  let s' := finished broken_parts s in
  let r := inl (multiUploadError (Some (External "part 2 failed")) "upload-1") in
  (err (mu s) = None ∧ main s' = PReturned r)
  ∧ ∃ cause, r = inl (multiUploadError (Some cause) (uploadID (mu s0))).
Proof.
  intros s0 s s' r. split; [split; vm_compute; reflexivity|].
  apply (no_error_is_swallowed broken_parts digest unquote
           (coordinator options three_parts None)
           (first_chunk options three_parts None)
           (first_cleanup options three_parts None) tt s0 s s').
  - vm_compute. reflexivity.
  - exists requests_fail. vm_compute. reflexivity.
  - right. right.
    exists 0%nat, (External "part 1 failed"),
      (mkchunk [x01; x02; x03] 1 (mkClosure 0 NoOp)).
    vm_compute. reflexivity.
  - apply reaches_run_policy.
  - vm_compute. reflexivity.
Defined.

(** In the same run the call ends without a CompleteMultipartUpload
    request. *)
Lemma no_completion_after_an_error_witness :
  let s0 := begun broken_parts options three_parts None in
  let s := after broken_parts requests_fail s0 in
  let s' := finished broken_parts s in
  (∃ r, main s' = PReturned r) ∧ complete_calls (trace s') = [].
Proof.
  intros s0 s s'. split; [eexists; vm_compute; reflexivity|].
  apply (no_completion_after_an_error broken_parts digest unquote
           (coordinator options three_parts None)
           (first_chunk options three_parts None)
           (first_cleanup options three_parts None) tt s0 s s').
  - reflexivity.
  - vm_compute. reflexivity.
  - exists requests_fail. vm_compute. reflexivity.
  - right. right.
    exists 0%nat, (External "part 1 failed"),
      (mkchunk [x01; x02; x03] 1 (mkClosure 0 NoOp)).
    vm_compute. reflexivity.
  - intros r. vm_compute. discriminate.
  - apply reaches_run_policy.
Defined.

(** Worker 0 has recorded its error while worker 1 is about to send part
    2: one more request is made, and no further part is numbered. *)
Lemma work_after_a_failure_is_bounded_witness :
  let s0 := begun broken_parts options three_parts None in
  let s := after broken_parts first_recorded s0 in
  let s' := finished broken_parts s in
  length (uploads (trace s)) = 1%nat
  ∧ length (uploads (trace s')) = 2%nat
  ∧ st_num s' ≤ st_num s + about_to_read (main s)
  ∧ (length (uploads (trace s'))
     ≤ length (uploads (trace s)) + sum_list (about_to_send <$> workers s))%nat
  ∧ (sum_list (about_to_send <$> workers s) ≤ length (workers s))%nat.
Proof.
  intros s0 s s'.
  split; [vm_compute; reflexivity|]. split; [vm_compute; reflexivity|].
  apply (work_after_a_failure_is_bounded broken_parts digest unquote
           (coordinator options three_parts None)
           (first_chunk options three_parts None)
           (first_cleanup options three_parts None) tt s0 s s').
  - reflexivity.
  - vm_compute. reflexivity.
  - exists first_recorded. vm_compute. reflexivity.
  - exists (External "part 1 failed"). vm_compute. reflexivity.
  - apply reaches_run_policy.
Defined.

(** The session lists a part 2 that is not the empty part read locally:
    the resumed upload fails. *)
Lemma a_changed_part_fails_the_resumed_upload_witness :
  let s0 := begun stale options three_parts (Some "upload-1") in
  let s' := finished stale s0 in
  let r :=
    inl (multiUploadError
           (Some (Errorf "checksum did not match for chunk 2, multipart upload out of sync with local file"))
           "upload-1") in
  main s' = PReturned r
  ∧ ∃ cause, r = inl (multiUploadError (Some cause) (uploadID (mu s0))).
Proof.
  intros s0 s' r. split; [vm_compute; reflexivity|].
  apply (a_changed_part_fails_the_resumed_upload stale digest unquote
           (coordinator options three_parts (Some "upload-1"))
           (first_chunk options three_parts (Some "upload-1"))
           (first_cleanup options three_parts (Some "upload-1")) tt s0 s' r 2
           "00000000000000000000000000000000").
  - reflexivity.
  - vm_compute. reflexivity.
  - apply reaches_run_policy.
  - vm_compute. reflexivity.
  - vm_compute. reflexivity.
  - vm_compute. split; discriminate.
  - vm_compute. discriminate.
Defined.
